(** * request-core: a shallow embedding of the request library's core layer

    The development follows [src/request-core/index.js]: the two module-level
    variables ([requestorInstance], [globalConfig]), the configuration merge
    ([setGlobalConfig], [applyGlobalConfig]), the accessor [useRequestor] and
    the four decorators built on it (retry, bounded concurrency, cache,
    idempotent).

    JavaScript objects that serve as dictionaries (request headers, the
    in-memory cache) are finite maps; objects with a fixed, documented shape
    (request configuration, global configuration, cache entry) are records
    whose fields are optional where the property may be [undefined]. *)

From Stdlib Require Import ZArith Lia Bool Ascii String DecimalString.
From stdpp Require Import base option list strings gmap.

Local Open Scope Z_scope.

(** ** JavaScript values *)

Module Js.

(** Values that travel as [params], [data] and response payloads.  [Num n]
    stands for the JavaScript number [n] where [n] is a safe integer (of
    magnitude at most 2^53 - 1): ids, page numbers, counts.  Fractions, NaN,
    the infinities and larger magnitudes, which [JSON.stringify] prints in
    another notation (exponent form from 1e21 on), are outside the model.  An
    object is the list of its own enumerable properties in enumeration order,
    which is the order [JSON.stringify] emits. *)
#[warnings="-register-all"]
Inductive value : Type :=
| Undefined
| Null
| Bool (b : bool)
| Num (n : Z)
| Str (s : string)
| Arr (items : list value)
| Obj (props : list (string * value)).

(** ToBoolean. *)
Definition truthy (v : value) : bool :=
  match v with
  | Undefined | Null => false
  | Bool b => b
  | Num n => negb (n =? 0)
  | Str s => negb (s =? "")%string
  | Arr _ | Obj _ => true
  end.

(** Truthiness of an optional string property ([undefined] or a string). *)
Definition truthy_str (s : option string) : bool :=
  match s with
  | Some s => negb (s =? "")%string
  | None => false
  end.

(** Truthiness of an optional number property. *)
Definition truthy_num (n : option Z) : bool :=
  match n with
  | Some n => negb (n =? 0)
  | None => false
  end.

(** [String.prototype.startsWith]: [search] is matched from position 0. *)
Fixpoint startsWith (s search : string) {struct search} : bool :=
  match search, s with
  | EmptyString, _ => true
  | String _ _, EmptyString => false
  | String c search', String d s' => Ascii.eqb c d && startsWith s' search'
  end.

(** [String.prototype.endsWith]: [s] is [search], or its tail ends with it. *)
Fixpoint endsWith (s search : string) : bool :=
  (s =? search)%string ||
  match s with
  | EmptyString => false
  | String _ s' => endsWith s' search
  end.

(** [String.prototype.slice(start)] for a start inside the string. *)
Fixpoint slice (start : nat) (s : string) : string :=
  match start, s with
  | O, _ => s
  | S n, EmptyString => EmptyString
  | S n, String _ s' => slice n s'
  end.

(** [Array.prototype.join]: [undefined] elements contribute the empty string. *)
Fixpoint join (sep : string) (parts : list (option string)) : string :=
  match parts with
  | [] => ""
  | [p] => default "" p
  | p :: rest => default "" p +:+ sep +:+ join sep rest
  end.

(** *** JSON.stringify *)

Definition dquote : ascii := "034"%char.
Definition backslash : ascii := "092"%char.

Definition hexDigit (n : N) : ascii :=
  match n with
  | 0%N => "0" | 1%N => "1" | 2%N => "2" | 3%N => "3" | 4%N => "4"
  | 5%N => "5" | 6%N => "6" | 7%N => "7" | 8%N => "8" | 9%N => "9"
  | 10%N => "a" | 11%N => "b" | 12%N => "c" | 13%N => "d" | 14%N => "e"
  | _ => "f"
  end%char.

(** One code unit of QuoteJSONString: the two-character escapes, [\u00xx] for
    the remaining control characters, anything else verbatim. *)
Definition quoteChar (c : ascii) : string :=
  let n := N_of_ascii c in
  if (n =? 8)%N then String backslash "b"
  else if (n =? 9)%N then String backslash "t"
  else if (n =? 10)%N then String backslash "n"
  else if (n =? 12)%N then String backslash "f"
  else if (n =? 13)%N then String backslash "r"
  else if (n =? 34)%N then String backslash (String dquote "")
  else if (n =? 92)%N then String backslash (String backslash "")
  else if (n <? 32)%N then
    String backslash ("u00" +:+ String (hexDigit (n / 16)) (String (hexDigit (n mod 16)) ""))
  else String c "".

Fixpoint quoteBody (s : string) : string :=
  match s with
  | EmptyString => ""
  | String c s' => quoteChar c +:+ quoteBody s'
  end.

Definition quote (s : string) : string :=
  String dquote (quoteBody s +:+ String dquote "").

(** [Number::toString] on a safe integer: its decimal digits. *)
Definition numberToString (n : Z) : string := NilZero.string_of_int (Z.to_int n).


(** [JSON.stringify(v)] without replacer or indentation.  The result is
    [undefined] ([None]) for [undefined] itself; inside an array [undefined]
    is written as null, inside an object the property is left out. *)
Fixpoint stringify (v : value) : option string :=
  match v with
  | Undefined => None
  | Null => Some "null"
  | Bool true => Some "true"
  | Bool false => Some "false"
  | Num n => Some (numberToString n)
  | Str s => Some (quote s)
  | Arr items =>
      Some ("[" +:+ String.concat ","
                      (List.map (fun item => default "null" (stringify item)) items)
                +:+ "]")
  | Obj props =>
      Some ("{" +:+ String.concat ","
                      ((fix members (ps : list (string * value)) : list string :=
                          match ps with
                          | [] => []
                          | (k, x) :: ps' =>
                              match stringify x with
                              | Some text => (quote k +:+ ":" +:+ text) :: members ps'
                              | None => members ps'
                              end
                          end) props)
                +:+ "}")
  end.

(** *** The shape of JSON texts *)

(** The members that [stringify] writes between the braces of an object. *)
Definition members (props : list (string * value)) : list string :=
  omap (fun p => (fun text => quote (fst p) +:+ ":" +:+ text) <$> stringify (snd p)) props.




(** A template literal's rendering of a property that may be [undefined]. *)
Definition template (s : option string) : string := default "undefined" s.

End Js.

(** ** Request and global configuration *)

Record RequestConfig : Type := mkRequestConfig {
  method : option string;
  url : option string;
  headers : option (gmap string string);
  params : Js.value;
  data : Js.value;
  timeout : option Z
}.

Record GlobalConfig : Type := mkGlobalConfig {
  baseURL : option string;
  gheaders : option (gmap string string);
  gtimeout : option Z
}.

(** A property of an object literal passed by a caller: not written at all, or
    written with a value that may itself be [undefined] (as [initRequest]
    does for the options it was not given). *)
Inductive field (A : Type) : Type :=
| absent
| present (v : option A).
Arguments absent {A}.
Arguments present {A} v.

Record PartialConfig : Type := mkPartialConfig {
  p_baseURL : field string;
  p_headers : field (gmap string string);
  p_timeout : field Z
}.

(** One property of [{...target, ...source}]. *)
Definition spread_field {A} (target : option A) (source : field A) : option A :=
  match source with
  | absent => target
  | present v => v
  end.

(** The initial value of the module variable [globalConfig]. *)
Definition initialGlobalConfig : GlobalConfig :=
  {| baseURL := Some ""; gheaders := Some ∅; gtimeout := Some 0 |}.

(** [setGlobalConfig(config)]: [globalConfig = {...globalConfig, ...config}]. *)
Definition setGlobalConfig (config : PartialConfig) (globalConfig : GlobalConfig)
  : GlobalConfig :=
  {| baseURL := spread_field (baseURL globalConfig) (p_baseURL config);
     gheaders := spread_field (gheaders globalConfig) (p_headers config);
     gtimeout := spread_field (gtimeout globalConfig) (p_timeout config) |}.

Definition set_url (u : option string) (c : RequestConfig) : RequestConfig :=
  {| method := method c; url := u; headers := headers c;
     params := params c; data := data c; timeout := timeout c |}.

Definition set_headers (h : option (gmap string string)) (c : RequestConfig)
  : RequestConfig :=
  {| method := method c; url := url c; headers := h;
     params := params c; data := data c; timeout := timeout c |}.

Definition set_timeout (t : option Z) (c : RequestConfig) : RequestConfig :=
  {| method := method c; url := url c; headers := headers c;
     params := params c; data := data c; timeout := t |}.

(** [{...globalHeaders, ...configHeaders}]: the request's own keys win; a
    request without a [headers] property contributes nothing. *)
Definition spread_headers (globalHeaders : gmap string string)
    (configHeaders : option (gmap string string)) : gmap string string :=
  default ∅ configHeaders ∪ globalHeaders.

(** The string that [applyGlobalConfig] writes to [config.url]. *)
Definition joinURL (base u : string) : string :=
  let baseURL := if Js.endsWith base "/" then base else base +:+ "/" in
  let url := if Js.startsWith u "/" then Js.slice 1 u else u in
  baseURL +:+ url.

(** [applyGlobalConfig(config)].  The function assigns to the properties of
    the object it is given and returns that same object: the result is the
    state of the caller's object after the call. *)
Definition applyGlobalConfig (globalConfig : GlobalConfig) (config : RequestConfig)
  : RequestConfig :=
  let config :=
    if Js.truthy_str (baseURL globalConfig) && Js.truthy_str (url config)
    then set_url (Some (joinURL (default "" (baseURL globalConfig))
                                (default "" (url config)))) config
    else config in
  let config :=
    match gheaders globalConfig with
    | Some gh => set_headers (Some (spread_headers gh (headers config))) config
    | None => config
    end in
  if Js.truthy_num (gtimeout globalConfig) && negb (Js.truthy_num (timeout config))
  then set_timeout (gtimeout globalConfig) config
  else config.

(** ** The module state and the transport *)

(** What a promise rejects with, or a function throws. *)
Inductive thrown : Type :=
| NotInjected                 (* Error('Requestor not injected. Please call inject() first.') *)
| TypeError (what : string)   (* a property read on null or undefined *)
| Failure (reason : Js.value) (* whatever the transport adapter rejects with *).

Inductive settled : Type :=
| Resolved (v : Js.value)
| Rejected (e : thrown).

(** The answer of a transport adapter to one [request(config)]: how its promise
    settles and how long that takes. *)
Record Reply : Type := mkReply {
  outcome : settled;
  latency : Z
}.

(** A transport adapter.  Its answer may depend on how many dispatches were
    made before this one, and on the configuration it receives. *)
Record Requestor : Type := mkRequestor {
  rname : string;
  rrequest : nat -> RequestConfig -> Reply
}.

(** The two module-level variables of request-core. *)
Record Core : Type := mkCore {
  requestorInstance : option Requestor;
  globalConfig : GlobalConfig
}.

Definition initialCore : Core :=
  {| requestorInstance := None; globalConfig := initialGlobalConfig |}.

(** [inject(requestor)]; [None] stands for a falsy argument. *)
Definition inject (requestor : option Requestor) (c : Core) : Core :=
  {| requestorInstance := requestor; globalConfig := globalConfig c |}.

Definition setGlobal (config : PartialConfig) (c : Core) : Core :=
  {| requestorInstance := requestorInstance c;
     globalConfig := setGlobalConfig config (globalConfig c) |}.

(** What other code may do to the module between two steps of a decorator:
    only the exported setters reach the module variables. *)
Inductive action : Type :=
| Inject (requestor : option Requestor)
| SetGlobalConfig (config : PartialConfig).

Definition perform (a : action) (c : Core) : Core :=
  match a with
  | Inject r => inject r c
  | SetGlobalConfig p => setGlobal p c
  end.

Definition performAll (acts : list action) (c : Core) : Core :=
  fold_left (fun c a => perform a c) acts c.

(** Observable steps of the sequential decorators. *)
Inductive event : Type :=
| Dispatch (adapter : string) (config : RequestConfig)
| Wait (ms : Z).

Definition isDispatch (e : event) : bool :=
  match e with Dispatch _ _ => true | Wait _ => false end.

Definition dispatches (t : list event) : list event := List.filter isDispatch t.

Record World : Type := mkWorld {
  core : Core;
  clock : Z;          (* Date.now() *)
  trace : list event
}.

Definition others (acts : list action) (w : World) : World :=
  {| core := performAll acts (core w); clock := clock w; trace := trace w |}.

(** [await new Promise(resolve => setTimeout(resolve, ms))]. *)
Definition wait (ms : Z) (w : World) : World :=
  {| core := core w; clock := clock w + ms; trace := trace w ++ [Wait ms] |}.

(** [useRequestor()]: throws when nothing is injected, otherwise returns the
    proxy object.  The proxy's methods read [requestorInstance] and
    [globalConfig] when they are called, so the proxy carries no state. *)
Definition useRequestor (c : Core) : thrown + unit :=
  match requestorInstance c with
  | None => inl NotInjected
  | Some _ => inr tt
  end.

(** The proxy's [request(config)] followed to the settlement of its promise:
    [applyGlobalConfig] on the caller's object, then the adapter that is
    active now.  The second component is the caller's object afterwards. *)
Definition proxiedRequest (config : RequestConfig) (w : World)
  : settled * RequestConfig * World :=
  let updatedConfig := applyGlobalConfig (globalConfig (core w)) config in
  match requestorInstance (core w) with
  | None => (Rejected (TypeError "requestorInstance.request"), updatedConfig, w)
  | Some r =>
      let reply := rrequest r (length (dispatches (trace w))) updatedConfig in
      (outcome reply, updatedConfig,
       {| core := core w;
          clock := clock w + latency reply;
          trace := trace w ++ [Dispatch (rname r) updatedConfig] |})
  end.

(** ** Retry decorator *)

Module Retry.

(** [createRetryRequestor(maxCount = 5)]: the default of the parameter. *)
Definition createRetryRequestor (maxCount : option Z) : Z := default 5 maxCount.

(** The [while] loop of [makeRequest].  [env count] is what other code does to
    the module while the call is suspended after its [count]-th failure.
    [fuel] bounds the number of iterations; [makeRequest_total] shows that the
    amount given by [makeRequest] is never used up. *)
Fixpoint loop (fuel : nat) (maxCount : Z) (env : Z -> list action)
    (count : Z) (config : RequestConfig) (w : World)
  : option (settled * RequestConfig * World) :=
  match fuel with
  | O => None
  | S fuel' =>
      if count <? maxCount then
        match proxiedRequest config w with
        | (Resolved v, config', w') => Some (Resolved v, config', w')
        | (Rejected error, config', w') =>
            let count := count + 1 in
            if count >=? maxCount then Some (Rejected error, config', w')
            else loop fuel' maxCount env count config'
                   (others (env count) (wait (1000 * count) w'))
        end
      else Some (Resolved Js.Undefined, config, w)
  end.

Definition makeRequest (maxCount : Z) (env : Z -> list action)
    (config : RequestConfig) (w : World)
  : option (settled * RequestConfig * World) :=
  match useRequestor (core w) with
  | inl error => Some (Rejected error, config, w)
  | inr _ => loop (S (Z.to_nat maxCount)) maxCount env 0 config w
  end.

(** Nothing else touches the module during the call. *)
Definition quiet : Z -> list action := fun _ => [].

(** *** Vocabulary for the statements about a call *)

(** The waits of a trace, in order. *)
Definition waits (t : list event) : list Z :=
  omap (fun e => match e with Wait ms => Some ms | Dispatch _ _ => None end) t.

(** [m] failed attempts on adapter [adapter] under configuration [G], each
    followed by its wait, when [count] failures came before. *)
Fixpoint failedAttempts (adapter : string) (G : GlobalConfig) (config : RequestConfig)
    (count : Z) (m : nat) : list event :=
  match m with
  | O => []
  | S m' =>
      Dispatch adapter (applyGlobalConfig G config) ::
      Wait (1000 * (count + 1)) ::
      failedAttempts adapter G (applyGlobalConfig G config) (count + 1) m'
  end.

(** A call that needs [n] attempts: [n - 1] failed ones and a last dispatch. *)
Definition schedule (adapter : string) (G : GlobalConfig) (config : RequestConfig)
    (n : nat) : list event :=
  failedAttempts adapter G config 0 (n - 1) ++
  [Dispatch adapter (Nat.iter n (applyGlobalConfig G) config)].

(** The module as it stands when attempt [k] (counted from 0) is made: the
    interference of the first [k] waits has happened. *)
Fixpoint coreAt (env : Z -> list action) (c : Core) (k : nat) : Core :=
  match k with
  | O => c
  | S k' => performAll (env (Z.of_nat k)) (coreAt env c k')
  end.

(** The caller's config object before attempt [k] and after it. *)
Fixpoint configBefore (env : Z -> list action) (c : Core) (config : RequestConfig)
    (k : nat) : RequestConfig :=
  match k with
  | O => config
  | S k' =>
      applyGlobalConfig (globalConfig (coreAt env c k')) (configBefore env c config k')
  end.

Definition configAt (env : Z -> list action) (c : Core) (config : RequestConfig)
    (k : nat) : RequestConfig :=
  configBefore env c config (S k).

(** The value for header [name] in the first of the global configurations
    read by attempts 0 to [k] that has one. *)
Fixpoint firstStoredHeader (env : Z -> list action) (c : Core) (name : string)
    (k : nat) : option string :=
  match k with
  | O => gheaders (globalConfig (coreAt env c 0)) ≫= lookup name
  | S k' =>
      match firstStoredHeader env c name k' with
      | Some value => Some value
      | None => gheaders (globalConfig (coreAt env c k)) ≫= lookup name
      end
  end.

(** A global timeout that counts: one that is not 0. *)
Definition storedTimeout (G : GlobalConfig) : option Z :=
  if Js.truthy_num (gtimeout G) then gtimeout G else None.

(** The first timeout other than 0 in the global configurations read by
    attempts 0 to [k]. *)
Fixpoint firstStoredTimeout (env : Z -> list action) (c : Core) (k : nat) : option Z :=
  match k with
  | O => storedTimeout (globalConfig (coreAt env c 0))
  | S k' =>
      match firstStoredTimeout env c k' with
      | Some t => Some t
      | None => storedTimeout (globalConfig (coreAt env c k))
      end
  end.

End Retry.

(** ** Bounded-concurrency decorator *)

Module Parallel.

(** [createParallelRequestor(maxParallelCount = 4)]. *)
Definition createParallelRequestor (maxParallelCount : option Z) : Z :=
  default 4 maxParallelCount.

(** A queue entry [{config, resolve, reject}]; [resolve] and [reject] belong
    to the promise that the [i_id]-th call of [makeRequest] returned. *)
Record item : Type := mkItem {
  i_config : RequestConfig;
  i_id : nat
}.

Inductive promise : Type :=
| Pending
| Settled (o : settled).

(** A request handed to the proxy and on to the adapter active at that moment,
    whose promise has not settled. *)
Record flight : Type := mkFlight {
  f_id : nat;
  f_adapter : option string;
  f_config : RequestConfig
}.

(** One decorator instance ([queue], [runningCount]) with the module it reads
    and the promises it has handed out.  [finishing] holds the calls whose
    transport promise has settled while the [finally] callback has not run
    yet; [admitted] records the order in which calls left the queue. *)
Record state : Type := mkState {
  pcore : Core;
  queue : list item;
  runningCount : Z;
  promises : list promise;
  inflight : list flight;
  finishing : list nat;
  admitted : list nat
}.

Definition initial (c : Core) : state :=
  {| pcore := c; queue := []; runningCount := 0; promises := [];
     inflight := []; finishing := []; admitted := [] |}.

(** [resolve(v)] or [reject(e)]: only a pending promise changes. *)
Definition settle (id : nat) (o : settled) (ps : list promise) : list promise :=
  match ps !! id with
  | Some Pending => <[id := Settled o]> ps
  | _ => ps
  end.

(** [processQueue()].  The second component is the exception that escapes
    when [useRequestor] throws; by then the count is incremented and the
    entry is off the queue. *)
Definition processQueue (maxParallelCount : Z) (s : state) : state * option thrown :=
  if Nat.eqb (length (queue s)) 0 || (runningCount s >=? maxParallelCount) then (s, None)
  else
    match queue s with
    | [] => (s, None)
    | entry :: rest =>
        let running := runningCount s + 1 in
        match useRequestor (pcore s) with
        | inl error =>
            ({| pcore := pcore s; queue := rest; runningCount := running;
                promises := promises s; inflight := inflight s;
                finishing := finishing s;
                admitted := admitted s ++ [i_id entry] |}, Some error)
        | inr _ =>
            (* originalRequest.call(req, config), up to the adapter's promise *)
            let updatedConfig :=
              applyGlobalConfig (globalConfig (pcore s)) (i_config entry) in
            ({| pcore := pcore s; queue := rest; runningCount := running;
                promises := promises s;
                inflight := inflight s ++
                  [{| f_id := i_id entry;
                      f_adapter := rname <$> requestorInstance (pcore s);
                      f_config := updatedConfig |}];
                finishing := finishing s;
                admitted := admitted s ++ [i_id entry] |}, None)
        end
    end.

Definition setPromises (ps : list promise) (s : state) : state :=
  {| pcore := pcore s; queue := queue s; runningCount := runningCount s;
     promises := ps; inflight := inflight s; finishing := finishing s;
     admitted := admitted s |}.

(** What can happen to a decorator instance. *)
Inductive event : Type :=
| Call (config : RequestConfig)      (* a caller invokes [request] or a verb *)
| Settle (id : nat) (o : settled)    (* the adapter settles the dispatch of call [id] *)
| Finally (id : nat)                 (* the [finally] callback of that dispatch runs *)
| Other (a : action)                 (* other code calls [inject] or [setGlobalConfig] *).

Definition flying (id : nat) (s : state) : bool :=
  existsb (fun f => Nat.eqb (f_id f) id) (inflight s).

(** One event; [None] when the event cannot happen in this state. *)
Definition step (maxParallelCount : Z) (e : event) (s : state) : option state :=
  match e with
  | Call config =>
      (* new Promise((resolve, reject) => { queue.push(...); processQueue(); }) *)
      let id := length (promises s) in
      let pushed :=
        {| pcore := pcore s;
           queue := queue s ++ [{| i_config := config; i_id := id |}];
           runningCount := runningCount s;
           promises := promises s ++ [Pending];
           inflight := inflight s; finishing := finishing s;
           admitted := admitted s |} in
      match processQueue maxParallelCount pushed with
      | (s', None) => Some s'
      | (s', Some error) =>
          (* an exception in the executor rejects the promise being built *)
          Some (setPromises (settle id (Rejected error) (promises s')) s')
      end
  | Settle id o =>
      (* .then(resolve).catch(reject) *)
      if flying id s then
        Some {| pcore := pcore s; queue := queue s; runningCount := runningCount s;
                promises := settle id o (promises s);
                inflight := List.filter (fun f => negb (Nat.eqb (f_id f) id)) (inflight s);
                finishing := finishing s ++ [id];
                admitted := admitted s |}
      else None
  | Finally id =>
      (* .finally(() => { runningCount--; processQueue(); }) *)
      if existsb (Nat.eqb id) (finishing s) then
        let decremented :=
          {| pcore := pcore s; queue := queue s; runningCount := runningCount s - 1;
             promises := promises s; inflight := inflight s;
             finishing := List.filter (fun i => negb (Nat.eqb i id)) (finishing s);
             admitted := admitted s |} in
        (* an exception here only rejects the promise that [finally] returned *)
        Some (fst (processQueue maxParallelCount decremented))
      else None
  | Other a =>
      Some {| pcore := perform a (pcore s); queue := queue s;
              runningCount := runningCount s; promises := promises s;
              inflight := inflight s; finishing := finishing s;
              admitted := admitted s |}
  end.

Fixpoint run (maxParallelCount : Z) (events : list event) (s : state) : option state :=
  match events with
  | [] => Some s
  | e :: events' =>
      match step maxParallelCount e s with
      | Some s' => run maxParallelCount events' s'
      | None => None
      end
  end.

(** *** Vocabulary for the statements about an instance *)

(** What holds of an instance after any sequence of events. *)
Record invariant (maxParallelCount : Z) (s : state) : Prop := mkInvariant {
  (* every dispatch that has not finished is counted *)
  inv_count : Z.of_nat (length (inflight s) + length (finishing s)) <= runningCount s;
  inv_bound : runningCount s <= Z.max 0 maxParallelCount;
  (* calls are numbered as they come; they leave the queue in that order *)
  inv_fifo : admitted s ++ (i_id <$> queue s) = seq 0 (length (promises s));
  (* nobody waits while there is room *)
  inv_full : queue s <> [] -> maxParallelCount <= runningCount s;
  inv_flying : forall f, f ∈ inflight s ->
    f_id f ∈ admitted s /\ promises s !! f_id f = Some Pending;
  inv_queued : forall entry, entry ∈ queue s -> promises s !! i_id entry = Some Pending
}.

(** The part of the count that no dispatch under way or finishing accounts
    for; no [finally] callback will ever give it back. *)
Definition surplus (s : state) : Z :=
  runningCount s - Z.of_nat (length (inflight s) + length (finishing s)).

(** No dispatch is under way and the count is used up: nothing can leave the
    queue any more.  [first] is the number of calls made before. *)
Record stuck (maxParallelCount : Z) (first : nat) (s : state) : Prop := mkStuck {
  stuck_count : maxParallelCount <= runningCount s;
  stuck_inflight : inflight s = [];
  stuck_finishing : finishing s = [];
  stuck_waiting : forall id, (first <= id < length (promises s))%nat ->
    promises s !! id = Some Pending /\ id ∈ (i_id <$> queue s)
}.

(** A call that has left the queue, has no dispatch under way and has not been
    settled: nobody holds its [resolve] and [reject] any more. *)
Record lost (id : nat) (s : state) : Prop := mkLost {
  lost_pending : promises s !! id = Some Pending;
  lost_admitted : id ∈ admitted s;
  lost_grounded : flying id s = false
}.

End Parallel.

(** ** Cache decorator *)

Module Cache.

(** [{data: result, timestamp: Date.now()}]. *)
Record CacheEntry : Type := mkCacheEntry {
  data : Js.value;
  timestamp : Z
}.

(** The four operations that both stores offer.  [createMemoryStore] keeps the
    entries in a [Map]; [createStorageStore] keeps their JSON text in the
    browser's [localStorage], which is not part of this library: the decorator
    is stated over the interface, and [useCacheStore(false)], the default and
    the choice of the idempotent decorator, is the in-memory instance. *)
Class Store (S : Type) : Type := {
  store_has : string -> S -> bool;
  store_get : string -> S -> option CacheEntry;
  store_set : string -> CacheEntry -> S -> S;
  store_delete : string -> S -> S
}.

(** [createMemoryStore()]: a [Map]. *)
Definition createMemoryStore : gmap string CacheEntry := ∅.

#[global] Instance MemoryStore : Store (gmap string CacheEntry) := {|
  store_has key store := match store !! key with Some _ => true | None => false end;
  store_get key store := store !! key;
  store_set key value store := <[key := value]> store;
  store_delete key store := delete key store
|}.

(** What the decorator relies on: an entry that was set is there and is read
    back as it was written; [has] promises that [get] finds something. *)
Class StoreLaws (S : Type) `{Store S} : Prop := {
  has_set : forall key value store, store_has key (store_set key value store) = true;
  get_set : forall key value store, store_get key (store_set key value store) = Some value;
  has_get : forall key store, store_has key store = true -> is_Some (store_get key store)
}.

Record Options : Type := mkOptions {
  o_key : option (RequestConfig -> string);
  o_duration : option Z;
  o_isValid : option (string -> RequestConfig -> CacheEntry -> bool);
  o_persist : option bool
}.

Record NormalizedOptions : Type := mkNormalizedOptions {
  key : RequestConfig -> string;
  duration : Z;
  isValid : option (string -> RequestConfig -> CacheEntry -> bool);
  persist : bool
}.

(** [(config) => `${config.method}-${config.url}`]. *)
Definition defaultKey (config : RequestConfig) : string :=
  Js.template (method config) +:+ "-" +:+ Js.template (url config).

(** The parameter normalisation of [createCacheRequestor(options = {})]. *)
Definition createCacheRequestor (options : Options) : NormalizedOptions :=
  {| key := default defaultKey (o_key options);
     duration := if Js.truthy_num (o_duration options)
                 then default 0 (o_duration options) else 1000 * 60 * 5;
     isValid := o_isValid options;
     persist := default false (o_persist options) |}.

(** The validity check of [makeRequest] for an entry read at time [now]. *)
Definition valid (normalizedOptions : NormalizedOptions) (key : string)
    (config : RequestConfig) (cache : CacheEntry) (now : Z) : bool :=
  match isValid normalizedOptions with
  | Some custom => custom key config cache
  | None => (now - timestamp cache) <? duration normalizedOptions
  end.

(** [makeRequest(config)] of the cache decorator, followed to the settlement
    of its promise.  The result carries the caller's config object and the
    store as the call leaves them. *)
Definition makeRequest {S : Type} `{Store S} (normalizedOptions : NormalizedOptions)
    (config : RequestConfig) (store : S) (w : World)
  : settled * RequestConfig * S * World :=
  let key := key normalizedOptions config in
  let cached : option settled :=
    if store_has key store then
      match store_get key store with
      | Some cache =>
          let now := clock w in
          if valid normalizedOptions key config cache now
          then Some (Resolved (data cache))
          else None
      | None => Some (Rejected (TypeError "cache.timestamp"))
      end
    else None in
  match cached with
  | Some answer => (answer, config, store, w)
  | None =>
      match useRequestor (core w) with
      | inl error => (Rejected error, config, store, w)
      | inr _ =>
          match proxiedRequest config w with
          | (Resolved result, config', w') =>
              (Resolved result, config',
               store_set key {| data := result; timestamp := clock w' |} store, w')
          | (Rejected error, config', w') => (Rejected error, config', store, w')
          end
      end
  end.

End Cache.

(** ** Idempotent decorator *)

Module Idempotent.

(** The key function used when [genKey] is not given. *)
Definition defaultKey (config : RequestConfig) : string :=
  let keyParts := [method config; url config] in
  let keyParts :=
    if Js.truthy (params config)
    then keyParts ++ [Js.stringify (params config)] else keyParts in
  let keyParts :=
    if Js.truthy (data config)
    then keyParts ++ [Js.stringify (data config)] else keyParts in
  Js.join "-" keyParts.





(** [createIdempotentRequest(genKey)]. *)
Definition createIdempotentRequest (genKey : option (RequestConfig -> string))
  : Cache.NormalizedOptions :=
  Cache.createCacheRequestor
    {| Cache.o_key := Some (default defaultKey genKey);
       Cache.o_duration := Some (1000 * 60 * 60);
       Cache.o_isValid := None;
       Cache.o_persist := Some false |}.

End Idempotent.

(** ** Sample data for the concrete runs *)

Module Sample.

Definition request (m u : string) : RequestConfig :=
  {| method := Some m; url := Some u; headers := None;
     params := Js.Undefined; data := Js.Undefined; timeout := None |}.

Definition api : GlobalConfig :=
  {| baseURL := Some "https://api.example.com"; gheaders := None; gtimeout := None |}.

Definition root : GlobalConfig :=
  {| baseURL := Some "/"; gheaders := None; gtimeout := None |}.

(** An adapter that rejects every request with the number of the dispatch. *)
Definition failing (name : string) : Requestor :=
  {| rname := name;
     rrequest := fun i _ =>
       {| outcome := Rejected (Failure (Js.Num (Z.of_nat i))); latency := 5 |} |}.

(** An adapter that resolves every request with the URL it was given. *)
Definition echo (name : string) : Requestor :=
  {| rname := name;
     rrequest := fun _ c =>
       {| outcome := Resolved (Js.Str (default "" (url c))); latency := 5 |} |}.

(** An adapter that rejects the first [n] dispatches and then resolves. *)
Definition flaky (name : string) (n : nat) (v : Js.value) : Requestor :=
  {| rname := name;
     rrequest := fun i _ =>
       {| outcome := if (i <? n)%nat then Rejected (Failure (Js.Num (Z.of_nat i)))
                     else Resolved v;
          latency := 5 |} |}.


Definition payByBody : RequestConfig :=
  {| method := Some "post"; url := Some "/api/pay"; headers := None;
     params := Js.Undefined; data := Js.Obj [("orderId", Js.Num 123456)];
     timeout := None |}.

Definition world (r : option Requestor) (g : GlobalConfig) : World :=
  {| core := {| requestorInstance := r; globalConfig := g |};
     clock := 0; trace := [] |}.

End Sample.

(** ** The verbs of the decorators *)

Module Verb.

(** The optional last argument of a verb: the properties it carries, each
    possibly with the value [undefined]. *)
Record CallConfig : Type := mkCallConfig {
  c_method : field string;
  c_url : field string;
  c_headers : field (gmap string string);
  c_params : option Js.value;
  c_data : option Js.value;
  c_timeout : field Z
}.

Definition noConfig : CallConfig :=
  {| c_method := absent; c_url := absent; c_headers := absent;
     c_params := None; c_data := None; c_timeout := absent |}.

(** [{...literal, ...config}]; a [config] that is [undefined] adds nothing. *)
Definition spread (literal : RequestConfig) (config : option CallConfig) : RequestConfig :=
  match config with
  | None => literal
  | Some c =>
      {| method := spread_field (method literal) (c_method c);
         url := spread_field (url literal) (c_url c);
         headers := spread_field (headers literal) (c_headers c);
         params := default (params literal) (c_params c);
         data := default (data literal) (c_data c);
         timeout := spread_field (timeout literal) (c_timeout c) |}
  end.

(** [{ method: 'get', url, ...config }] and its siblings: the object that the
    verbs of all four decorators hand to their [makeRequest]. *)
Definition get (u : option string) (config : option CallConfig) : RequestConfig :=
  spread {| method := Some "get"; url := u; headers := None;
            params := Js.Undefined; data := Js.Undefined; timeout := None |} config.

Definition post (u : option string) (body : Js.value) (config : option CallConfig)
  : RequestConfig :=
  spread {| method := Some "post"; url := u; headers := None;
            params := Js.Undefined; data := body; timeout := None |} config.

Definition put (u : option string) (body : Js.value) (config : option CallConfig)
  : RequestConfig :=
  spread {| method := Some "put"; url := u; headers := None;
            params := Js.Undefined; data := body; timeout := None |} config.

Definition delete (u : option string) (config : option CallConfig) : RequestConfig :=
  spread {| method := Some "delete"; url := u; headers := None;
            params := Js.Undefined; data := Js.Undefined; timeout := None |} config.

End Verb.

(** ** The entry point (src/index.js) *)

Module Init.

(** [fetchRequestor.requestor].  The name [fetchRequestor] is bound to the
    adapter object that request-fetch-imp exports as [requestor]; that object
    has the properties request, get, post, put, delete and patch and none
    called [requestor], so the read gives [undefined]. *)
Definition fetchRequestor_requestor : option Requestor := None.

(** A destructured property: [undefined] when the object does not carry it. *)
Definition destructured {A} (f : field A) : option A :=
  match f with
  | absent => None
  | present v => v
  end.

(** [initRequest(config = {})] on the module variables. *)
Definition initRequest (config : PartialConfig) (c : Core) : Core :=
  let baseURL := destructured (p_baseURL config) in
  let headers := destructured (p_headers config) in
  let timeout := destructured (p_timeout config) in
  let c := setGlobal {| p_baseURL := present baseURL; p_headers := present headers;
                        p_timeout := present timeout |} c in
  inject fetchRequestor_requestor c.

End Init.

(** ** The article module of the business layer *)

Module Article.

(** [response.data]: a property read, which throws on [undefined] and [null]. *)
Definition readData (response : Js.value) : thrown + Js.value :=
  match response with
  | Js.Undefined | Js.Null => inl (TypeError "response.data")
  | Js.Obj props =>
      inr (default Js.Undefined (snd <$> List.find (fun p => (fst p =? "data")%string) props))
  | _ => inr Js.Undefined
  end.

(** [return response.data] inside [try { ... } catch (error) { console.error(...);
    throw error; }]: a failure is passed on as it is. *)
Definition returnData (answer : settled) : settled :=
  match answer with
  | Resolved response =>
      match readData response with
      | inr d => Resolved d
      | inl error => Rejected error
      end
  | Rejected error => Rejected error
  end.

(** A parameter with a default value. *)
Definition parameter (given fallback : Js.value) : Js.value :=
  match given with
  | Js.Undefined => fallback
  | _ => given
  end.

(** The key function that [getArticles] passes. *)
Definition articlesKey (config : RequestConfig) : string :=
  Js.template (method config) +:+ "-" +:+ Js.template (url config) +:+ "-" +:+
  Js.template (Js.stringify (params config)).

(** [getArticles(page = 1, size = 10)]. *)
Definition getArticles (page size : Js.value) (w : World) : settled * World :=
  let page := parameter page (Js.Num 1) in
  let size := parameter size (Js.Num 10) in
  let req := Cache.createCacheRequestor
               {| Cache.o_key := Some articlesKey;
                  Cache.o_duration := Some (1000 * 60 * 30);
                  Cache.o_isValid := None; Cache.o_persist := None |} in
  let store := Cache.createMemoryStore in
  let config :=
    Verb.get (Some "/api/articles")
      (Some {| Verb.c_method := absent; Verb.c_url := absent; Verb.c_headers := absent;
               Verb.c_params := Some (Js.Obj [("page", page); ("size", size)]);
               Verb.c_data := None; Verb.c_timeout := absent |}) in
  match Cache.makeRequest req config store w with
  | (answer, _, _, w') => (returnData answer, w')
  end.

(** [publishArticle(article)]. *)
Definition publishArticle (article : Js.value) (w : World) : settled * World :=
  let req := Idempotent.createIdempotentRequest None in
  let store := Cache.createMemoryStore in
  let config := Verb.post (Some "/api/articles") article None in
  match Cache.makeRequest req config store w with
  | (answer, _, _, w') => (returnData answer, w')
  end.

(** [getArticleDetail(id)]; [env] is what other code does during the waits. *)
Definition getArticleDetail (id : string) (env : Z -> list action) (w : World)
  : option (settled * World) :=
  let maxCount := Retry.createRetryRequestor (Some 3) in
  let config := Verb.get (Some ("/api/articles/" +:+ id)) None in
  match Retry.makeRequest maxCount env config w with
  | Some (answer, _, w') => Some (returnData answer, w')
  | None => None
  end.

End Article.

(** ** The fetch adapter: the options it hands to [fetch] *)

Module FetchAdapter.

(** [String.prototype.toUpperCase] on the letters a to z; method names are
    ASCII. *)
Definition upperChar (c : ascii) : ascii :=
  let n := N_of_ascii c in
  if ((97 <=? n) && (n <=? 122))%N then ascii_of_N (n - 32) else c.

Fixpoint toUpperCase (s : string) : string :=
  match s with
  | EmptyString => EmptyString
  | String c s' => String (upperChar c) (toUpperCase s')
  end.

Record FetchOptions : Type := mkFetchOptions {
  fo_method : string;
  fo_headers : gmap string string;
  fo_credentials : string;
  fo_body : option string
}.

(** The [fetchOptions] object of [request(config)], with the body that is
    added to it: the destructuring defaults ([method = 'get'],
    [headers = {}], [data = null]), the upper-cased method, the headers over
    the default content type, and a body only for data that is truthy and a
    method other than GET and HEAD. *)
Definition fetchOptions (config : RequestConfig) : FetchOptions :=
  let method := default "get" (method config) in
  let headers := default ∅ (headers config) in
  let data := match data config with Js.Undefined => Js.Null | d => d end in
  {| fo_method := toUpperCase method;
     fo_headers := headers ∪ {[ "Content-Type" := "application/json" ]};
     fo_credentials := "same-origin";
     fo_body :=
       if Js.truthy data &&
          (negb (toUpperCase method =? "GET")%string &&
           negb (toUpperCase method =? "HEAD")%string)
       then Js.stringify data
       else None |}.

End FetchAdapter.

(** ** More vocabulary for the bounded-concurrency decorator *)

Module Slots.

(** An event that does not take the adapter away. *)
Definition keepsAdapter (e : Parallel.event) : bool :=
  match e with
  | Parallel.Other (Inject None) => false
  | _ => true
  end.

(** Every counted slot belongs to a dispatch that is under way or about to
    run its [finally] callback, and each such dispatch is listed once. *)
Record tight (s : Parallel.state) : Prop := mkTight {
  tight_adapter : is_Some (requestorInstance (Parallel.pcore s));
  tight_count : Parallel.runningCount s
                = Z.of_nat (length (Parallel.inflight s) + length (Parallel.finishing s));
  tight_nodup : NoDup ((Parallel.f_id <$> Parallel.inflight s) ++ Parallel.finishing s);
  tight_admitted : forall id,
    id ∈ (Parallel.f_id <$> Parallel.inflight s) ++ Parallel.finishing s ->
    id ∈ Parallel.admitted s
}.

End Slots.

(** ** More sample data *)

Module Fixture.

(** An adapter that answers like the fetch adapter does: an object with the
    payload under [data]. *)
Definition server (name : string) (payload : Js.value) : Requestor :=
  {| rname := name;
     rrequest := fun _ _ =>
       {| outcome := Resolved (Js.Obj [("data", payload); ("status", Js.Num 200)]);
          latency := 20 |} |}.

Definition later (ms : Z) (w : World) : World :=
  {| core := core w; clock := clock w + ms; trace := trace w |}.

End Fixture.
(** * Properties *)

(** ** Strings *)

Section Strings.

Lemma string_app_cons (c : ascii) (a b : string) :
  String c a +:+ b = String c (a +:+ b).
Proof. reflexivity. Qed.

Lemma string_app_nil (b : string) : "" +:+ b = b.
Proof. reflexivity. Qed.

Lemma string_app_empty (a : string) : a +:+ "" = a.
Proof.
  induction a as [|c a IH]; [reflexivity|].
  rewrite string_app_cons. now rewrite IH.
Qed.

Lemma string_app_length (a b : string) :
  String.length (a +:+ b) = (String.length a + String.length b)%nat.
Proof.
  induction a as [|c a IH]; [reflexivity|].
  rewrite string_app_cons. cbn. now rewrite IH.
Qed.

Lemma string_app_assoc (a b c : string) : (a +:+ b) +:+ c = a +:+ (b +:+ c).
Proof.
  induction a as [|x a IH]; [reflexivity|].
  rewrite !string_app_cons. now rewrite IH.
Qed.

Lemma truthy_str_nonempty (s : string) : s <> "" -> Js.truthy_str (Some s) = true.
Proof. intros H. cbn. now apply negb_true_iff, String.eqb_neq. Qed.

(** [endsWith] finds exactly the suffixes. *)
Lemma endsWith_suffix (s t : string) :
  Js.endsWith s t = true <-> exists p, s = p +:+ t.
Proof.
  split.
  - induction s as [|c s IH]; cbn [Js.endsWith]; intros H.
    + rewrite orb_false_r in H. apply String.eqb_eq in H. subst t. now exists "".
    + apply orb_true_iff in H as [H | H].
      * apply String.eqb_eq in H. subst t. now exists "".
      * destruct (IH H) as [p ->]. now exists (String c p).
  - intros [p ->]. induction p as [|c p IH].
    + rewrite string_app_nil. destruct t; cbn [Js.endsWith]; rewrite String.eqb_refl; reflexivity.
    + rewrite string_app_cons. cbn [Js.endsWith]. rewrite IH. apply orb_true_r.
Qed.

(** A base URL that ends with one slash, not two, is a slash-free end plus
    that slash. *)
Lemma endsWith_single_slash (b : string) :
  Js.endsWith b "/" = true -> Js.endsWith b "//" = false ->
  exists b0, b = b0 +:+ "/" /\ Js.endsWith b0 "/" = false.
Proof.
  intros H1 H2. apply endsWith_suffix in H1 as [b0 ->]. exists b0. split; [reflexivity|].
  destruct (Js.endsWith b0 "/") eqn:E; [|reflexivity].
  apply endsWith_suffix in E as [p ->].
  assert (Js.endsWith ((p +:+ "/") +:+ "/") "//" = true) as H.
  { apply endsWith_suffix. exists p. now rewrite string_app_assoc. }
  congruence.
Qed.

(** A URL that starts with one slash, not two, is that slash plus a rest that
    does not start with one. *)
Lemma startsWith_single_slash (u : string) :
  Js.startsWith u "/" = true -> Js.startsWith u "//" = false ->
  u = "/" +:+ Js.slice 1 u /\ Js.startsWith (Js.slice 1 u) "/" = false.
Proof.
  destruct u as [|c u]; cbn [Js.startsWith Js.slice]; [discriminate|].
  destruct (Ascii.eqb_spec "/" c) as [<-|]; [|discriminate]. cbn [andb].
  intros _ H. split; [reflexivity|].
  destruct u as [|d u]; [reflexivity|]. cbn [Js.startsWith] in *. exact H.
Qed.

End Strings.

(** ** Global configuration *)

Example joinURL_examples :
  joinURL "https://api.example.com" "/api/articles" = "https://api.example.com/api/articles" /\
  joinURL "https://api.example.com/" "api/articles" = "https://api.example.com/api/articles" /\
  joinURL "https://api.example.com/" "/api/articles" = "https://api.example.com/api/articles" /\
  joinURL "https://api.example.com" "api/articles" = "https://api.example.com/api/articles".
Proof. repeat split; reflexivity. Qed.

(** C1, as stated, fails: a URL that already starts with the base URL is not
    left alone, the base URL is put in front of it once more. *)
Lemma absolute_url_prefixed_again :
  Js.startsWith "https://api.example.com/users" "https://api.example.com" = true /\
  url (applyGlobalConfig Sample.api (Sample.request "get" "https://api.example.com/users"))
  = Some "https://api.example.com/https://api.example.com/users" /\
  url (applyGlobalConfig Sample.api (Sample.request "get" "https://api.example.com/users"))
  <> url (Sample.request "get" "https://api.example.com/users").
Proof. split; [reflexivity | split; [reflexivity | discriminate]]. Qed.

Lemma applyGlobalConfig_url (G : GlobalConfig) (config : RequestConfig) (b u : string) :
  baseURL G = Some b -> url config = Some u -> b <> "" -> u <> "" ->
  url (applyGlobalConfig G config) = Some (joinURL b u).
Proof.
  intros Hb Hu Hb0 Hu0. unfold applyGlobalConfig.
  rewrite Hb, Hu, !truthy_str_nonempty by assumption. cbn [andb default].
  destruct (gheaders G); cbn [url set_headers set_url];
    destruct (_ && _); reflexivity.
Qed.

Lemma proxiedRequest_trace (config : RequestConfig) (w : World) (r : Requestor) :
  requestorInstance (core w) = Some r ->
  trace (proxiedRequest config w).2
  = trace w ++ [Dispatch (rname r) (applyGlobalConfig (globalConfig (core w)) config)].
Proof. intros H. unfold proxiedRequest. now rewrite H. Qed.

(** C1 (amended): with a non-empty base URL and a non-empty request URL, the
    URL handed to the adapter is the base URL without its trailing slash, one
    slash, and the request URL without its leading slash; this holds for every
    request URL, also one that already starts with the base URL.  (Base URLs
    ending in two slashes and request URLs starting with two are left aside.) *)
Theorem dispatched_url_is_joined (w : World) (r : Requestor) (config : RequestConfig)
    (b u : string) :
  requestorInstance (core w) = Some r ->
  baseURL (globalConfig (core w)) = Some b -> url config = Some u ->
  b <> "" -> u <> "" ->
  Js.endsWith b "//" = false -> Js.startsWith u "//" = false ->
  exists b0 u0 sent,
    (b = b0 \/ b = b0 +:+ "/") /\ Js.endsWith b0 "/" = false /\
    (u = u0 \/ u = "/" +:+ u0) /\ Js.startsWith u0 "/" = false /\
    trace (proxiedRequest config w).2 = trace w ++ [Dispatch (rname r) sent] /\
    url sent = Some (b0 +:+ "/" +:+ u0).
Proof.
  intros Hr Hb Hu Hb0 Hu0 Hbb Huu.
  pose proof (applyGlobalConfig_url _ _ _ _ Hb Hu Hb0 Hu0) as Hurl.
  pose proof (proxiedRequest_trace config w r Hr) as Htr.
  unfold joinURL in Hurl.
  destruct (Js.endsWith b "/") eqn:Eb; destruct (Js.startsWith u "/") eqn:Eu.
  - destruct (endsWith_single_slash b Eb Hbb) as (b0 & -> & Hb0').
    destruct (startsWith_single_slash u Eu Huu) as (Hu' & Hu0').
    exists b0, (Js.slice 1 u), (applyGlobalConfig (globalConfig (core w)) config).
    rewrite Hurl, string_app_assoc. auto 10.
  - destruct (endsWith_single_slash b Eb Hbb) as (b0 & -> & Hb0').
    exists b0, u, (applyGlobalConfig (globalConfig (core w)) config).
    rewrite Hurl, string_app_assoc. auto 10.
  - destruct (startsWith_single_slash u Eu Huu) as (Hu' & Hu0').
    exists b, (Js.slice 1 u), (applyGlobalConfig (globalConfig (core w)) config).
    rewrite Hurl, string_app_assoc. auto 10.
  - exists b, u, (applyGlobalConfig (globalConfig (core w)) config).
    rewrite Hurl, string_app_assoc. auto 10.
Qed.

Lemma dispatched_url_is_joined_witness :
  let w := Sample.world (Some (Sample.echo "fetch")) Sample.api in
  let config := Sample.request "get" "https://api.example.com/users" in
  exists b0 u0 sent,
    ("https://api.example.com" = b0 \/ "https://api.example.com" = b0 +:+ "/") /\
    Js.endsWith b0 "/" = false /\
    ("https://api.example.com/users" = u0 \/ "https://api.example.com/users" = "/" +:+ u0) /\
    Js.startsWith u0 "/" = false /\
    trace (proxiedRequest config w).2 = trace w ++ [Dispatch "fetch" sent] /\
    url sent = Some (b0 +:+ "/" +:+ u0).
Proof.
  intros w config.
  apply (dispatched_url_is_joined w (Sample.echo "fetch") config
           "https://api.example.com" "https://api.example.com/users");
    first [ reflexivity | discriminate ].
Defined.

(** C2, as stated, fails: a header of the stored configuration does not
    survive a call that passes other headers. *)
Lemma stored_header_is_dropped :
  let G := {| baseURL := Some ""; gheaders := Some {[ "Content-Type" := "application/json" ]};
              gtimeout := Some 0 |} in
  let P := {| p_baseURL := absent;
              p_headers := present (Some {[ "Authorization" := "Bearer t" ]});
              p_timeout := absent |} in
  (gheaders G ≫= lookup "Content-Type") = Some "application/json" /\
  (gheaders (setGlobalConfig P G) ≫= lookup "Content-Type") = None /\
  (gheaders (setGlobalConfig P G) ≫= lookup "Authorization") = Some "Bearer t".
Proof. repeat split; reflexivity. Qed.

(** C2 (amended): every top-level field that the argument carries replaces the
    stored field, the others stay as they were; the headers object is such a
    field and is replaced as a whole, so afterwards the stored headers are
    exactly the ones passed. *)
Theorem setGlobalConfig_replaces_fields (P : PartialConfig) (G : GlobalConfig) :
  (forall v, p_baseURL P = present v -> baseURL (setGlobalConfig P G) = v) /\
  (forall v, p_headers P = present v -> gheaders (setGlobalConfig P G) = v) /\
  (forall v, p_timeout P = present v -> gtimeout (setGlobalConfig P G) = v) /\
  (p_baseURL P = absent -> baseURL (setGlobalConfig P G) = baseURL G) /\
  (p_headers P = absent -> gheaders (setGlobalConfig P G) = gheaders G) /\
  (p_timeout P = absent -> gtimeout (setGlobalConfig P G) = gtimeout G) /\
  (forall h k, p_headers P = present (Some h) ->
     (gheaders (setGlobalConfig P G) ≫= lookup k) = h !! k).
Proof.
  unfold setGlobalConfig; cbn. repeat split; intros.
  all: try match goal with H : _ = _ |- _ => rewrite H end; reflexivity.
Qed.

Lemma setGlobalConfig_replaces_fields_witness :
  let G := {| baseURL := Some "https://api.example.com";
              gheaders := Some {[ "Content-Type" := "application/json" ]};
              gtimeout := Some 0 |} in
  let P := {| p_baseURL := absent;
              p_headers := present (Some {[ "Authorization" := "Bearer t" ]});
              p_timeout := present None |} in
  baseURL (setGlobalConfig P G) = Some "https://api.example.com" /\
  gheaders (setGlobalConfig P G) = Some {[ "Authorization" := "Bearer t" ]} /\
  gtimeout (setGlobalConfig P G) = None.
Proof.
  intros G P.
  destruct (setGlobalConfig_replaces_fields P G) as (_ & Hh & Ht & Hb & _).
  split; [apply Hb; reflexivity|]. split; [apply Hh; reflexivity | apply Ht; reflexivity].
Defined.

(** ** Retry decorator *)

Lemma loop_S (fuel : nat) (maxCount : Z) (env : Z -> list action) (count : Z)
    (config : RequestConfig) (w : World) :
  Retry.loop (S fuel) maxCount env count config w =
  if count <? maxCount then
    match proxiedRequest config w with
    | (Resolved v, config', w') => Some (Resolved v, config', w')
    | (Rejected error, config', w') =>
        if count + 1 >=? maxCount then Some (Rejected error, config', w')
        else Retry.loop fuel maxCount env (count + 1) config'
               (others (env (count + 1)) (wait (1000 * (count + 1)) w'))
    end
  else Some (Resolved Js.Undefined, config, w).
Proof. reflexivity. Qed.

Lemma proxiedRequest_injected (config : RequestConfig) (w : World) (r : Requestor) :
  requestorInstance (core w) = Some r ->
  let sent := applyGlobalConfig (globalConfig (core w)) config in
  let reply := rrequest r (length (dispatches (trace w))) sent in
  proxiedRequest config w =
  (outcome reply, sent,
   {| core := core w; clock := clock w + latency reply;
      trace := trace w ++ [Dispatch (rname r) sent] |}).
Proof. intros H. unfold proxiedRequest. now rewrite H. Qed.

(** The fuel that [makeRequest] hands to the loop is enough: the call always
    settles. *)
Lemma loop_total (maxCount : Z) (env : Z -> list action) (fuel : nat) :
  forall count config w,
    (Z.to_nat (maxCount - count) < fuel)%nat ->
    is_Some (Retry.loop fuel maxCount env count config w).
Proof.
  induction fuel as [|fuel IH]; intros count config w Hfuel; [lia|].
  rewrite loop_S. destruct (Z.ltb_spec count maxCount); [|eauto].
  destruct (proxiedRequest config w) as [[[v|e] c'] w']; [eauto|].
  rewrite Z.geb_leb. destruct (Z.leb_spec maxCount (count + 1)); [eauto|].
  apply IH. lia.
Qed.

Lemma makeRequest_total (maxCount : Z) (env : Z -> list action)
    (config : RequestConfig) (w : World) :
  is_Some (Retry.makeRequest maxCount env config w).
Proof.
  unfold Retry.makeRequest. destruct (useRequestor (core w)); [eauto|].
  apply loop_total. lia.
Qed.

Lemma dispatches_app (t1 t2 : list event) :
  dispatches (t1 ++ t2) = dispatches t1 ++ dispatches t2.
Proof. apply List.filter_app. Qed.

(** Every dispatch of the loop goes to the adapter that is injected when the
    attempt is made, with the global configuration stored at that moment
    merged into the caller's object. *)
Lemma loop_reads_module (maxCount : Z) (env : Z -> list action) (c0 : Core)
    (config0 : RequestConfig) :
  (forall k, is_Some (requestorInstance (Retry.coreAt env c0 k))) ->
  forall fuel k w result config' w',
    core w = Retry.coreAt env c0 k ->
    Retry.loop fuel maxCount env (Z.of_nat k) (Retry.configBefore env c0 config0 k) w
    = Some (result, config', w') ->
    exists t, trace w' = trace w ++ t /\
      forall j ev, dispatches t !! j = Some ev ->
        exists r, requestorInstance (Retry.coreAt env c0 (k + j)) = Some r /\
                  ev = Dispatch (rname r) (Retry.configAt env c0 config0 (k + j)).
Proof.
  intros Hinj. induction fuel as [|fuel IH]; intros k w result config' w' Hcore Hrun;
    [discriminate|].
  rewrite loop_S in Hrun. destruct (Z.of_nat k <? maxCount).
  2:{ inversion Hrun; subst. exists []. rewrite app_nil_r. split; [reflexivity|].
      intros j ev H. destruct j; discriminate. }
  destruct (Hinj k) as [r Hr]. rewrite <- Hcore in Hr.
  rewrite (proxiedRequest_injected _ _ _ Hr) in Hrun. cbn zeta in Hrun.
  set (sent := applyGlobalConfig (globalConfig (core w))
                 (Retry.configBefore env c0 config0 k)) in *.
  assert (Hsent : sent = Retry.configAt env c0 config0 k).
  { unfold sent, Retry.configAt. cbn [Retry.configBefore]. now rewrite Hcore. }
  assert (Hone : forall j ev, [Dispatch (rname r) sent] !! j = Some ev ->
            exists r', requestorInstance (Retry.coreAt env c0 (k + j)) = Some r' /\
                       ev = Dispatch (rname r') (Retry.configAt env c0 config0 (k + j))).
  { intros [|j] ev H; [|destruct j; discriminate]. inversion H; subst ev.
    exists r. rewrite Nat.add_0_r, <- Hcore, <- Hsent. auto. }
  destruct (outcome _) as [v|e].
  { inversion Hrun; subst. cbn [trace]. eexists. split; [reflexivity|]. exact Hone. }
  destruct (Z.of_nat k + 1 >=? maxCount).
  { inversion Hrun; subst. cbn [trace]. eexists. split; [reflexivity|]. exact Hone. }
  replace (Z.of_nat k + 1) with (Z.of_nat (S k)) in Hrun by lia.
  rewrite Hsent in Hrun.
  apply IH in Hrun as (t & Ht & Hdis).
  2:{ cbn [others wait core Retry.coreAt]. now rewrite Hcore. }
  cbn [others wait trace] in Ht. rewrite <- !app_assoc in Ht.
  eexists. split; [exact Ht|].
  intros [|j] ev H.
  - apply (Hone 0%nat). cbn in H. rewrite Hsent. exact H.
  - cbn in H. apply Hdis in H. now rewrite Nat.add_succ_r.
Qed.

Lemma applyGlobalConfig_headers (G : GlobalConfig) (c : RequestConfig) :
  headers (applyGlobalConfig G c)
  = match gheaders G with
    | Some gh => Some (spread_headers gh (headers c))
    | None => headers c
    end.
Proof.
  unfold applyGlobalConfig.
  destruct (Js.truthy_str (baseURL G) && Js.truthy_str (url c)); destruct (gheaders G);
    match goal with
    | |- context [if ?b then _ else _] => destruct b
    end; reflexivity.
Qed.

Lemma applyGlobalConfig_header_default (G : GlobalConfig) (config : RequestConfig)
    (stored : gmap string string) (name value : string) :
  gheaders G = Some stored -> stored !! name = Some value ->
  (headers config ≫= lookup name) = None ->
  (headers (applyGlobalConfig G config) ≫= lookup name) = Some value.
Proof.
  intros Hg Hs Hc. unfold applyGlobalConfig. rewrite Hg.
  assert (forall c, headers c = headers config ->
            (headers (set_headers (Some (spread_headers stored (headers c))) c)
               ≫= lookup name) = Some value) as Hset.
  { intros c Hh. cbn. unfold spread_headers. rewrite Hh.
    destruct (headers config) as [h|]; cbn in *.
    - now rewrite lookup_union_r.
    - now rewrite lookup_union_r by apply lookup_empty. }
  destruct (_ && _); destruct (_ && _); cbn [headers set_timeout]; apply Hset; reflexivity.
Qed.

Lemma applyGlobalConfig_header_lookup (G : GlobalConfig) (config : RequestConfig)
    (name : string) :
  (headers (applyGlobalConfig G config) ≫= lookup name)
  = match headers config ≫= lookup name with
    | Some own => Some own
    | None => gheaders G ≫= lookup name
    end.
Proof.
  rewrite applyGlobalConfig_headers. destruct (gheaders G) as [gh|]; cbn.
  - unfold spread_headers. rewrite lookup_union.
    destruct (headers config) as [h|]; cbn.
    + destruct (h !! name), (gh !! name); reflexivity.
    + rewrite lookup_empty. destruct (gh !! name); reflexivity.
  - destruct (headers config ≫= lookup name); reflexivity.
Qed.

Lemma applyGlobalConfig_timeout (G : GlobalConfig) (config : RequestConfig) :
  timeout (applyGlobalConfig G config)
  = if Js.truthy_num (timeout config) then timeout config
    else match Retry.storedTimeout G with
         | Some t => Some t
         | None => timeout config
         end.
Proof.
  assert (forall c, timeout c = timeout config ->
            timeout (if Js.truthy_num (gtimeout G) && negb (Js.truthy_num (timeout c))
                     then set_timeout (gtimeout G) c else c)
            = if Js.truthy_num (gtimeout G) && negb (Js.truthy_num (timeout config))
              then gtimeout G else timeout config) as Hfill.
  { intros c Hc. rewrite Hc. destruct (_ && _); [reflexivity | exact Hc]. }
  assert (timeout (applyGlobalConfig G config)
          = if Js.truthy_num (gtimeout G) && negb (Js.truthy_num (timeout config))
            then gtimeout G else timeout config) as ->.
  { unfold applyGlobalConfig.
    destruct (Js.truthy_str (baseURL G) && Js.truthy_str (url config));
      destruct (gheaders G); apply Hfill; reflexivity. }
  unfold Retry.storedTimeout.
  destruct (Js.truthy_num (timeout config)), (Js.truthy_num (gtimeout G)) eqn:Hg;
    cbn [andb negb]; try reflexivity.
  destruct (gtimeout G); [reflexivity | discriminate].
Qed.

Lemma storedTimeout_counts (G : GlobalConfig) (t : Z) :
  Retry.storedTimeout G = Some t -> Js.truthy_num (Some t) = true.
Proof.
  unfold Retry.storedTimeout. destruct (Js.truthy_num (gtimeout G)) eqn:Hg; [|discriminate].
  intros E. now rewrite E in Hg.
Qed.

Lemma firstStoredTimeout_counts (env : Z -> list action) (c : Core) (k : nat) (t : Z) :
  Retry.firstStoredTimeout env c k = Some t -> Js.truthy_num (Some t) = true.
Proof.
  revert t. induction k as [|k IH]; intros t; cbn [Retry.firstStoredTimeout].
  - apply storedTimeout_counts.
  - destruct (Retry.firstStoredTimeout env c k) as [t'|].
    + intros E. injection E as <-. now apply IH.
    + apply storedTimeout_counts.
Qed.

(** The headers of the object after attempt [k]: a header of the caller's own
    keeps its value, any other header has the value that was stored when an
    attempt first found one. *)
Lemma configAt_header (env : Z -> list action) (c : Core) (config : RequestConfig)
    (name : string) (k : nat) :
  (headers (Retry.configAt env c config k) ≫= lookup name)
  = match headers config ≫= lookup name with
    | Some own => Some own
    | None => Retry.firstStoredHeader env c name k
    end.
Proof.
  unfold Retry.configAt. induction k as [|k IH].
  - cbn [Retry.configBefore Retry.firstStoredHeader]. apply applyGlobalConfig_header_lookup.
  - change (Retry.configBefore env c config (S (S k)))
      with (applyGlobalConfig (globalConfig (Retry.coreAt env c (S k)))
              (Retry.configBefore env c config (S k))).
    rewrite applyGlobalConfig_header_lookup, IH. cbn [Retry.firstStoredHeader].
    destruct (headers config ≫= lookup name); [reflexivity|].
    destruct (Retry.firstStoredHeader env c name k); reflexivity.
Qed.

(** The same for the timeout, where 0 counts as no timeout. *)
Lemma configAt_timeout (env : Z -> list action) (c : Core) (config : RequestConfig)
    (k : nat) :
  timeout (Retry.configAt env c config k)
  = if Js.truthy_num (timeout config) then timeout config
    else match Retry.firstStoredTimeout env c k with
         | Some t => Some t
         | None => timeout config
         end.
Proof.
  unfold Retry.configAt. induction k as [|k IH].
  - cbn [Retry.configBefore Retry.firstStoredTimeout]. apply applyGlobalConfig_timeout.
  - change (Retry.configBefore env c config (S (S k)))
      with (applyGlobalConfig (globalConfig (Retry.coreAt env c (S k)))
              (Retry.configBefore env c config (S k))).
    rewrite applyGlobalConfig_timeout, IH. cbn [Retry.firstStoredTimeout].
    destruct (Js.truthy_num (timeout config)) eqn:Hown; [now rewrite Hown|].
    destruct (Retry.firstStoredTimeout env c k) as [t|] eqn:Hfirst.
    + now rewrite (firstStoredTimeout_counts env c k t Hfirst).
    + now rewrite Hown.
Qed.

(** C3, as stated, fails: a configuration change made between two attempts is
    not what the later attempt sends when the first attempt already merged a
    value into the caller's object.  Here [setGlobalConfig] replaces the
    Authorization header and the timeout during the wait; the second attempt
    is made while the new values are stored and sends the old ones. *)
Lemma retry_later_attempt_sends_merged_values :
  let old := {| baseURL := Some "";
                gheaders := Some {[ "Authorization" := "Bearer OLD" ]};
                gtimeout := Some 5000 |} in
  let change := {| p_baseURL := absent;
                   p_headers := present (Some {[ "Authorization" := "Bearer NEW" ]});
                   p_timeout := present (Some 9000) |} in
  let env := fun count : Z => if count =? 1 then [SetGlobalConfig change] else [] in
  (fun o => match o with
            | Some (_, _, w') =>
                Some ((fun e => match e with
                                | Dispatch a c =>
                                    (a, headers c ≫= lookup "Authorization", timeout c)
                                | Wait ms => ("wait", None, Some ms)
                                end) <$> trace w',
                      gheaders (globalConfig (core w')) ≫= lookup "Authorization",
                      gtimeout (globalConfig (core w')))
            | None => None
            end)
    (Retry.makeRequest 2 env (Sample.request "get" "/users")
       (Sample.world (Some (Sample.failing "fetch")) old))
  = Some ([("fetch", Some "Bearer OLD", Some 5000); ("wait", None, Some 1000);
           ("fetch", Some "Bearer OLD", Some 5000)],
          Some "Bearer NEW", Some 9000).
Proof. vm_compute. reflexivity. Qed.

(** C3 (amended): within one call of the retry decorator, every attempt that
    reaches an adapter reaches the one injected at the moment of that attempt,
    so a transport swap between two attempts is seen by the later one.  The
    configuration it hands over is the merge of the global configuration
    stored at that moment into the caller's object as the earlier attempts
    left it.  So a header that the object does not carry by then takes the
    value stored by then, while a header of the caller's own keeps its value
    and any other header keeps the value that an attempt of this call first
    found; likewise a timeout other than 0 of the caller's own is kept, and
    otherwise the first stored timeout other than 0 that an attempt found. *)
Theorem retry_attempt_merges_current_module (maxCount : Z) (env : Z -> list action)
    (config : RequestConfig) (w : World) :
  (forall k, is_Some (requestorInstance (Retry.coreAt env (core w) k))) ->
  exists result config' w' t,
    Retry.makeRequest maxCount env config w = Some (result, config', w') /\
    trace w' = trace w ++ t /\
    forall k ev, dispatches t !! k = Some ev ->
      exists r sent,
        requestorInstance (Retry.coreAt env (core w) k) = Some r /\
        ev = Dispatch (rname r) sent /\
        sent = applyGlobalConfig (globalConfig (Retry.coreAt env (core w) k))
                 (Retry.configBefore env (core w) config k) /\
        (forall stored name value,
           gheaders (globalConfig (Retry.coreAt env (core w) k)) = Some stored ->
           stored !! name = Some value ->
           (headers (Retry.configBefore env (core w) config k) ≫= lookup name) = None ->
           (headers sent ≫= lookup name) = Some value) /\
        (forall name,
           (headers sent ≫= lookup name)
           = match headers config ≫= lookup name with
             | Some own => Some own
             | None => Retry.firstStoredHeader env (core w) name k
             end) /\
        timeout sent
        = (if Js.truthy_num (timeout config) then timeout config
           else match Retry.firstStoredTimeout env (core w) k with
                | Some t => Some t
                | None => timeout config
                end).
Proof.
  intros Hinj.
  destruct (makeRequest_total maxCount env config w) as [[[result config'] w'] Hrun].
  exists result, config', w'.
  unfold Retry.makeRequest in *. destruct (useRequestor (core w)) eqn:Huse.
  - inversion Hrun; subst. exists []. rewrite app_nil_r.
    split; [reflexivity|]. split; [reflexivity|].
    intros k ev H. destruct k; discriminate.
  - pose proof (loop_reads_module maxCount env (core w) config Hinj _ 0%nat w
                  result config' w' eq_refl Hrun) as (t & Ht & Hdis).
    exists t. split; [exact Hrun|]. split; [exact Ht|].
    intros k ev Hk. destruct (Hdis k ev Hk) as (r & Hr & Hev). cbn [Nat.add] in Hr, Hev.
    exists r, (Retry.configAt env (core w) config k).
    split; [exact Hr|]. split; [exact Hev|]. split; [reflexivity|].
    split; [|split].
    + intros stored name value. apply applyGlobalConfig_header_default.
    + intros name. apply configAt_header.
    + apply configAt_timeout.
Qed.

Lemma retry_attempt_merges_current_module_witness :
  let old := {| baseURL := Some "https://api.example.com";
                gheaders := Some ∅; gtimeout := Some 0 |} in
  let change := {| p_baseURL := absent;
                   p_headers := present (Some {[ "X-Trace" := "on" ]});
                   p_timeout := absent |} in
  let env := fun count : Z =>
    if count =? 1 then [Inject (Some (Sample.echo "axios")); SetGlobalConfig change]
    else [] in
  let w := Sample.world (Some (Sample.failing "fetch")) old in
  let config := Sample.request "get" "/users" in
  exists result config' w' t,
    Retry.makeRequest 3 env config w = Some (result, config', w') /\
    trace w' = trace w ++ t /\
    forall k ev, dispatches t !! k = Some ev ->
      exists r sent,
        requestorInstance (Retry.coreAt env (core w) k) = Some r /\
        ev = Dispatch (rname r) sent /\
        sent = applyGlobalConfig (globalConfig (Retry.coreAt env (core w) k))
                 (Retry.configBefore env (core w) config k) /\
        (forall stored name value,
           gheaders (globalConfig (Retry.coreAt env (core w) k)) = Some stored ->
           stored !! name = Some value ->
           (headers (Retry.configBefore env (core w) config k) ≫= lookup name) = None ->
           (headers sent ≫= lookup name) = Some value) /\
        (forall name,
           (headers sent ≫= lookup name)
           = match headers config ≫= lookup name with
             | Some own => Some own
             | None => Retry.firstStoredHeader env (core w) name k
             end) /\
        timeout sent
        = (if Js.truthy_num (timeout config) then timeout config
           else match Retry.firstStoredTimeout env (core w) k with
                | Some t => Some t
                | None => timeout config
                end).
Proof.
  intros old change env w config.
  apply (retry_attempt_merges_current_module 3 env config w).
  intros k. destruct k as [|[|k]]; [cbn; eauto | cbn; eauto |].
  induction k as [|k IH]; [cbn; eauto|].
  cbn [Retry.coreAt] in *. destruct IH as [r Hr].
  replace (env (Z.of_nat (S (S (S k))))) with (@nil action); [cbn; eauto|].
  unfold env. destruct (Z.eqb_spec (Z.of_nat (S (S (S k)))) 1); [lia | reflexivity].
Defined.

(** In that run the second attempt goes to the adapter injected during the
    first wait and carries the header stored during that wait. *)
Example retry_swap_run :
  let old := {| baseURL := Some "https://api.example.com";
                gheaders := Some ∅; gtimeout := Some 0 |} in
  let change := {| p_baseURL := absent;
                   p_headers := present (Some {[ "X-Trace" := "on" ]});
                   p_timeout := absent |} in
  let env := fun count : Z =>
    if count =? 1 then [Inject (Some (Sample.echo "axios")); SetGlobalConfig change]
    else [] in
  (fun o => match o with
            | Some (result, _, w') =>
                Some (result,
                      (fun e => match e with
                                | Dispatch a c => (a, headers c ≫= lookup "X-Trace")
                                | Wait _ => ("wait", None)
                                end) <$> trace w')
            | None => None
            end)
    (Retry.makeRequest 3 env (Sample.request "get" "/users")
       (Sample.world (Some (Sample.failing "fetch")) old))
  = Some (Resolved (Js.Str "https://api.example.com/https://api.example.com/users"),
          [("fetch", None); ("wait", None); ("axios", Some "on")]).
Proof. vm_compute. reflexivity. Qed.

(** C8, as stated, fails when no adapter is injected: the call rejects. *)
Lemma retry_zero_attempts_not_injected :
  Retry.makeRequest 0 Retry.quiet (Sample.request "get" "/users")
    (Sample.world None initialGlobalConfig)
  = Some (Rejected NotInjected, Sample.request "get" "/users",
          Sample.world None initialGlobalConfig).
Proof. reflexivity. Qed.

(** C8 (amended): with [maxCount <= 0] a call never dispatches, whatever else
    happens; it resolves with [undefined] when an adapter is injected and
    rejects with the not-injected error when none is.  Either way the world,
    its trace included, and the caller's object are left as they were. *)
Theorem retry_without_attempts (maxCount : Z) (env : Z -> list action)
    (config : RequestConfig) (w : World) :
  maxCount <= 0 ->
  Retry.makeRequest maxCount env config w =
  Some (match requestorInstance (core w) with
        | Some _ => Resolved Js.Undefined
        | None => Rejected NotInjected
        end, config, w).
Proof.
  intros Hmax. unfold Retry.makeRequest, useRequestor.
  destruct (requestorInstance (core w)); [|reflexivity].
  rewrite loop_S. destruct (Z.ltb_spec 0 maxCount); [lia | reflexivity].
Qed.

Lemma retry_without_attempts_witness :
  -1 <= 0 /\
  Retry.makeRequest (-1) Retry.quiet (Sample.request "get" "/users")
    (Sample.world (Some (Sample.echo "fetch")) Sample.api)
  = Some (Resolved Js.Undefined, Sample.request "get" "/users",
          Sample.world (Some (Sample.echo "fetch")) Sample.api).
Proof.
  split; [lia|].
  apply (retry_without_attempts (-1) Retry.quiet (Sample.request "get" "/users")
           (Sample.world (Some (Sample.echo "fetch")) Sample.api)).
  lia.
Defined.

Lemma dispatches_failedAttempts (a : string) (G : GlobalConfig) (m : nat) :
  forall config count,
    length (dispatches (Retry.failedAttempts a G config count m)) = m.
Proof. induction m as [|m IH]; intros config count; cbn; [reflexivity | now rewrite IH]. Qed.

Lemma waits_failedAttempts (a : string) (G : GlobalConfig) (m : nat) :
  forall config (k : nat),
    Retry.waits (Retry.failedAttempts a G config (Z.of_nat k) m)
    = (fun i => 1000 * Z.of_nat i) <$> seq (S k) m.
Proof.
  induction m as [|m IH]; intros config k; cbn; [reflexivity|].
  replace (Z.of_nat k + 1) with (Z.of_nat (S k)) by lia.
  f_equal. apply IH.
Qed.

Lemma waits_app (t1 t2 : list event) :
  Retry.waits (t1 ++ t2) = Retry.waits t1 ++ Retry.waits t2.
Proof. apply omap_app. Qed.

Lemma iter_shift {A} (f : A -> A) (m : nat) (x : A) :
  Nat.iter m f (f x) = Nat.iter (S m) f x.
Proof. symmetry. apply Nat.iter_succ_r. Qed.

(** While the adapter keeps rejecting and attempts remain, the loop dispatches,
    waits [1000 * count] and comes back with the same module. *)
Lemma loop_skip_failures (maxCount : Z) (r : Requestor) (G : GlobalConfig) (m : nat) :
  forall fuel count config w,
    core w = {| requestorInstance := Some r; globalConfig := G |} ->
    count + Z.of_nat m < maxCount ->
    (forall i c, (i < m)%nat ->
       exists e, outcome (rrequest r (length (dispatches (trace w)) + i) c) = Rejected e) ->
    exists w1,
      Retry.loop (m + fuel) maxCount Retry.quiet count config w
      = Retry.loop fuel maxCount Retry.quiet (count + Z.of_nat m)
          (Nat.iter m (applyGlobalConfig G) config) w1 /\
      core w1 = core w /\
      trace w1 = trace w ++ Retry.failedAttempts (rname r) G config count m.
Proof.
  induction m as [|m IH]; intros fuel count config w Hcore Hlt Hfail.
  - exists w. rewrite Z.add_0_r, app_nil_r. auto.
  - cbn [Nat.add]. rewrite loop_S.
    destruct (Z.ltb_spec count maxCount); [|lia].
    assert (Hr : requestorInstance (core w) = Some r) by now rewrite Hcore.
    rewrite (proxiedRequest_injected _ _ _ Hr). cbn zeta.
    replace (globalConfig (core w)) with G by now rewrite Hcore.
    destruct (Hfail 0%nat (applyGlobalConfig G config) ltac:(lia)) as [e He].
    rewrite Nat.add_0_r in He. rewrite He.
    rewrite Z.geb_leb. destruct (Z.leb_spec maxCount (count + 1)); [lia|].
    match goal with |- context [Retry.loop _ _ _ _ _ ?w0] => set (w' := w0) end.
    destruct (IH fuel (count + 1) (applyGlobalConfig G config) w') as (w1 & Hrun & Hc & Ht).
    + exact Hcore.
    + lia.
    + intros i c Hi. unfold w'. cbn [others wait trace].
      rewrite !dispatches_app. cbn [dispatches List.filter isDispatch].
      rewrite app_nil_r, length_app. cbn [length].
      replace (length (dispatches (trace w)) + 1 + i)%nat
        with (length (dispatches (trace w)) + S i)%nat by lia.
      apply Hfail. lia.
    + exists w1. rewrite Hrun, iter_shift. split; [f_equal; lia|].
      split; [exact Hc|]. rewrite Ht. unfold w'. cbn [others wait trace Retry.failedAttempts].
      now rewrite <- !app_assoc.
Qed.

(** The last attempt of a call: its outcome is the outcome of the call. *)
Lemma loop_last_attempt (maxCount : Z) (r : Requestor) (G : GlobalConfig)
    (fuel : nat) (count : Z) (config : RequestConfig) (w : World) :
  core w = {| requestorInstance := Some r; globalConfig := G |} ->
  count + 1 = maxCount ->
  let sent := applyGlobalConfig G config in
  let reply := rrequest r (length (dispatches (trace w))) sent in
  Retry.loop (S fuel) maxCount Retry.quiet count config w
  = Some (outcome reply, sent,
          {| core := core w; clock := clock w + latency reply;
             trace := trace w ++ [Dispatch (rname r) sent] |}).
Proof.
  intros Hcore Hlast. rewrite loop_S.
  destruct (Z.ltb_spec count maxCount); [|lia].
  assert (Hr : requestorInstance (core w) = Some r) by now rewrite Hcore.
  rewrite (proxiedRequest_injected _ _ _ Hr). cbn zeta.
  replace (globalConfig (core w)) with G by now rewrite Hcore.
  destruct (outcome _); [reflexivity|].
  rewrite Z.geb_leb. destruct (Z.leb_spec maxCount (count + 1)); [reflexivity | lia].
Qed.

(** A call whose first [n - 1] attempts are rejected: the outcome is the one of
    attempt [n] and the trace is the schedule of [n] attempts. *)
Lemma makeRequest_after_failures (maxAttempts : Z) (r : Requestor) (G : GlobalConfig)
    (config : RequestConfig) (w : World) :
  1 <= maxAttempts ->
  core w = {| requestorInstance := Some r; globalConfig := G |} ->
  let n := Z.to_nat maxAttempts in
  let base := length (dispatches (trace w)) in
  let sent := Nat.iter n (applyGlobalConfig G) config in
  (forall i c, (i < n - 1)%nat ->
     exists e, outcome (rrequest r (base + i) c) = Rejected e) ->
  exists w',
    Retry.makeRequest maxAttempts Retry.quiet config w
    = Some (outcome (rrequest r (base + (n - 1)) sent), sent, w') /\
    trace w' = trace w ++ Retry.schedule (rname r) G config n.
Proof.
  intros Hmax Hcore n base sent Hfail.
  unfold Retry.makeRequest, useRequestor. rewrite Hcore. cbn [requestorInstance].
  assert (Hn : 0 + Z.of_nat (n - 1) < maxAttempts) by (unfold n; lia).
  destruct (loop_skip_failures maxAttempts r G (n - 1) 2 0 config w Hcore Hn Hfail)
    as (w1 & Hrun & Hc & Ht).
  replace (S (Z.to_nat maxAttempts)) with (n - 1 + 2)%nat by (unfold n; lia).
  rewrite Hrun. rewrite Hcore in Hc.
  assert (Hlast : 0 + Z.of_nat (n - 1) + 1 = maxAttempts) by (unfold n; lia).
  rewrite (loop_last_attempt maxAttempts r G 1 _ _ w1 Hc Hlast). cbn zeta.
  change (applyGlobalConfig G (Nat.iter (n - 1) (applyGlobalConfig G) config))
    with (Nat.iter (S (n - 1)) (applyGlobalConfig G) config). replace (S (n - 1)) with n by (unfold n; lia). fold sent.
  rewrite Ht, dispatches_app, length_app, dispatches_failedAttempts. fold base.
  eexists. split; [reflexivity|]. cbn [trace]. unfold Retry.schedule.
  now rewrite <- app_assoc.
Qed.

(** C4: for [maxAttempts >= 1] and an injected adapter, a call whose first
    [maxAttempts - 1] attempts are rejected and whose last one resolves,
    resolves with that value; a call all of whose attempts are rejected,
    rejects with the error of attempt [maxAttempts].  In both cases the
    adapter is asked exactly [maxAttempts] times and the k-th retry is
    preceded by a wait of [1000 * k] milliseconds. *)
Theorem retry_settles_after_maxAttempts (maxAttempts : Z) (r : Requestor)
    (G : GlobalConfig) (config : RequestConfig) (w : World) :
  1 <= maxAttempts ->
  core w = {| requestorInstance := Some r; globalConfig := G |} ->
  let n := Z.to_nat maxAttempts in
  let base := length (dispatches (trace w)) in
  let sent := Nat.iter n (applyGlobalConfig G) config in
  (forall v,
     (forall i c, (i < n - 1)%nat ->
        exists e, outcome (rrequest r (base + i) c) = Rejected e) ->
     (forall c, outcome (rrequest r (base + (n - 1)) c) = Resolved v) ->
     exists w',
       Retry.makeRequest maxAttempts Retry.quiet config w = Some (Resolved v, sent, w') /\
       trace w' = trace w ++ Retry.schedule (rname r) G config n) /\
  (forall errs,
     (forall i c, outcome (rrequest r (base + i) c) = Rejected (errs i c)) ->
     exists w',
       Retry.makeRequest maxAttempts Retry.quiet config w
       = Some (Rejected (errs (n - 1)%nat sent), sent, w') /\
       trace w' = trace w ++ Retry.schedule (rname r) G config n) /\
  length (dispatches (Retry.schedule (rname r) G config n)) = n /\
  Retry.waits (Retry.schedule (rname r) G config n)
  = (fun k => 1000 * Z.of_nat k) <$> seq 1 (n - 1).
Proof.
  intros Hmax Hcore n base sent. repeat split.
  - intros v Hfail Hok.
    destruct (makeRequest_after_failures maxAttempts r G config w Hmax Hcore Hfail)
      as (w' & Hrun & Ht).
    exists w'. fold n base sent in Hrun. rewrite Hok in Hrun. auto.
  - intros errs Hfail.
    destruct (makeRequest_after_failures maxAttempts r G config w Hmax Hcore)
      as (w' & Hrun & Ht); [intros i c _; eauto|].
    exists w'. fold n base sent in Hrun. rewrite Hfail in Hrun. auto.
  - unfold Retry.schedule. rewrite dispatches_app, length_app, dispatches_failedAttempts.
    cbn. unfold n. lia.
  - unfold Retry.schedule. rewrite waits_app.
    rewrite (waits_failedAttempts _ _ _ _ 0%nat). cbn. now rewrite app_nil_r.
Qed.

Lemma retry_settles_after_maxAttempts_witness :
  let r := Sample.flaky "fetch" 2 (Js.Str "ok") in
  let w := Sample.world (Some r) Sample.api in
  let config := Sample.request "get" "/users" in
  1 <= 3 /\
  exists w',
    Retry.makeRequest 3 Retry.quiet config w
    = Some (Resolved (Js.Str "ok"), Nat.iter 3 (applyGlobalConfig Sample.api) config, w') /\
    trace w' = trace w ++ Retry.schedule "fetch" Sample.api config 3.
Proof.
  intros r w config. split; [lia|].
  apply (proj1 (retry_settles_after_maxAttempts 3 r Sample.api config w
                  ltac:(lia) eq_refl) (Js.Str "ok")).
  - intros i c Hi. cbn in Hi. exists (Failure (Js.Num (Z.of_nat i))).
    cbn. destruct i as [|[|i]]; [reflexivity | reflexivity | lia].
  - intros c. reflexivity.
Defined.

Lemma proxiedRequest_extends (config : RequestConfig) (w : World) :
  exists t, trace (proxiedRequest config w).2 = trace w ++ t.
Proof.
  unfold proxiedRequest. destruct (requestorInstance (core w)); cbn.
  - eauto.
  - exists []. now rewrite app_nil_r.
Qed.

(** A call only adds to the trace. *)
Lemma loop_extends (maxCount : Z) (env : Z -> list action) (fuel : nat) :
  forall count config w result config' w',
    Retry.loop fuel maxCount env count config w = Some (result, config', w') ->
    exists t, trace w' = trace w ++ t.
Proof.
  induction fuel as [|fuel IH]; intros count config w result config' w' Hrun;
    [discriminate|].
  rewrite loop_S in Hrun. destruct (count <? maxCount).
  2:{ inversion Hrun; subst. exists []. now rewrite app_nil_r. }
  destruct (proxiedRequest_extends config w) as [t Ht].
  destruct (proxiedRequest config w) as [[[v|e] c1] w1]; cbn in Ht.
  { inversion Hrun; subst. eauto. }
  destruct (count + 1 >=? maxCount).
  { inversion Hrun; subst. eauto. }
  apply IH in Hrun as [t' Ht']. cbn [others wait trace] in Ht'.
  rewrite Ht' , Ht, <- !app_assoc. eauto.
Qed.

Lemma slice_one_length (x : string) :
  (String.length x <= S (String.length (Js.slice 1 x)))%nat.
Proof. destruct x; cbn; lia. Qed.

Lemma joinURL_longer (b x : string) :
  b <> "" -> b <> "/" -> (String.length x < String.length (joinURL b x))%nat.
Proof.
  intros Hb Hb'. unfold joinURL. rewrite string_app_length.
  assert (2 <= String.length (if Js.endsWith b "/" then b else b +:+ "/"))%nat as Hbase.
  { destruct (Js.endsWith b "/") eqn:E.
    - destruct b as [|c [|d b]]; cbn; [congruence | | lia].
      cbn in E. rewrite orb_false_r in E.
      destruct (Ascii.eqb_spec c "/"); [subst; congruence | discriminate].
    - rewrite string_app_length. destruct b; [congruence | cbn; lia]. }
  pose proof (slice_one_length x). destruct (Js.startsWith x "/"); lia.
Qed.

(** C9, as stated, fails for the base URL "/": merging twice gives the same
    URL as merging once, and a retried attempt sends the URL of the first. *)
Lemma root_base_url_merge_is_stable :
  let config := Sample.request "get" "users" in
  let once := applyGlobalConfig Sample.root config in
  url once = Some "/users" /\
  url (applyGlobalConfig Sample.root once) = url once /\
  (fun o => match o with
            | Some (_, _, w') =>
                (fun e => match e with Dispatch _ c => url c | Wait _ => None end)
                  <$> dispatches (trace w')
            | None => []
            end)
    (Retry.makeRequest 2 Retry.quiet config
       (Sample.world (Some (Sample.failing "fetch")) Sample.root))
  = [Some "/users"; Some "/users"].
Proof. repeat split; reflexivity. Qed.

(** C9 (amended): [applyGlobalConfig] writes into the object it is given, and
    for a non-empty request URL and a base URL other than the empty string and
    "/", merging the merged object again puts the base URL in front once more
    (it joins the base URL with the already joined URL), which gives a URL
    different from the first one; so in a retry call whose first attempt is
    rejected, the second attempt sends that second URL. *)
Theorem second_merge_prefixes_again (G : GlobalConfig) (config : RequestConfig)
    (b u : string) :
  baseURL G = Some b -> url config = Some u -> b <> "" -> b <> "/" -> u <> "" ->
  let once := applyGlobalConfig G config in
  let twice := applyGlobalConfig G once in
  url once = Some (joinURL b u) /\
  url twice = Some (joinURL b (joinURL b u)) /\
  url twice <> url once /\
  forall maxCount r w e,
    2 <= maxCount ->
    core w = {| requestorInstance := Some r; globalConfig := G |} ->
    outcome (rrequest r (length (dispatches (trace w))) once) = Rejected e ->
    exists result config' w' rest,
      Retry.makeRequest maxCount Retry.quiet config w = Some (result, config', w') /\
      trace w' = trace w ++
        [Dispatch (rname r) once; Wait 1000; Dispatch (rname r) twice] ++ rest.
Proof.
  intros Hb Hu Hb0 Hb1 Hu0 once twice.
  assert (Honce : url once = Some (joinURL b u)) by now apply applyGlobalConfig_url.
  assert (Hne : joinURL b u <> "").
  { intros E. pose proof (joinURL_longer b u Hb0 Hb1) as H. rewrite E in H. cbn in H. lia. }
  assert (Htwice : url twice = Some (joinURL b (joinURL b u)))
    by now apply applyGlobalConfig_url.
  split; [exact Honce|]. split; [exact Htwice|]. split.
  { rewrite Honce, Htwice. intros E. inversion E as [E'].
    pose proof (joinURL_longer b (joinURL b u) Hb0 Hb1) as H. rewrite E' in H. lia. }
  intros maxCount r w e Hmax Hcore Hrej.
  destruct (makeRequest_total maxCount Retry.quiet config w) as [[[result config'] w'] Hrun].
  exists result, config', w'.
  enough (exists rest, trace w' = trace w ++
            [Dispatch (rname r) once; Wait 1000; Dispatch (rname r) twice] ++ rest)
    as [rest Hrest] by (exists rest; split; [exact Hrun | exact Hrest]).
  assert (Hr : requestorInstance (core w) = Some r) by now rewrite Hcore.
  assert (HG : globalConfig (core w) = G) by now rewrite Hcore.
  unfold Retry.makeRequest, useRequestor in Hrun. rewrite Hr in Hrun.
  destruct (Z.to_nat maxCount) as [|fuel] eqn:Hfuel; [lia|].
  rewrite loop_S in Hrun. destruct (Z.ltb_spec 0 maxCount); [|lia].
  rewrite (proxiedRequest_injected _ _ _ Hr) in Hrun. cbn zeta in Hrun.
  rewrite HG in Hrun. fold once in Hrun. rewrite Hrej in Hrun.
  rewrite Z.geb_leb in Hrun. destruct (Z.leb_spec maxCount (0 + 1)); [lia|].
  rewrite loop_S in Hrun. destruct (Z.ltb_spec (0 + 1) maxCount); [|lia].
  cbn [Retry.quiet others performAll fold_left] in Hrun.
  match type of Hrun with context [proxiedRequest once ?w0] => set (w1 := w0) in * end.
  assert (Hr1 : requestorInstance (core w1) = Some r) by exact Hr.
  rewrite (proxiedRequest_injected _ _ _ Hr1) in Hrun. cbn zeta in Hrun.
  replace (globalConfig (core w1)) with G in Hrun by (symmetry; exact HG).
  fold twice in Hrun.
  destruct (outcome (rrequest r (length (dispatches (trace w1))) twice)) as [v|e'].
  { injection Hrun as <- <- <-. exists []. cbn. now rewrite <- !app_assoc. }
  destruct (0 + 1 + 1 >=? maxCount).
  { injection Hrun as <- <- <-. exists []. cbn. now rewrite <- !app_assoc. }
  apply loop_extends in Hrun as [rest Hrest]. exists (Wait (1000 * (0 + 1 + 1)) :: rest).
  rewrite Hrest. cbn. now rewrite <- !app_assoc.
Qed.

Lemma second_merge_prefixes_again_witness :
  let config := Sample.request "get" "/users" in
  let once := applyGlobalConfig Sample.api config in
  let twice := applyGlobalConfig Sample.api once in
  url once = Some "https://api.example.com/users" /\
  url twice = Some "https://api.example.com/https://api.example.com/users" /\
  url twice <> url once.
Proof.
  intros config once twice.
  pose proof (second_merge_prefixes_again Sample.api config
                "https://api.example.com" "/users" eq_refl eq_refl
                ltac:(discriminate) ltac:(discriminate) ltac:(discriminate))
    as (H1 & H2 & H3 & _).
  split; [exact H1|]. split; [exact H2 | exact H3].
Defined.

(** ** Cache decorator *)

#[global] Instance MemoryStoreLaws : Cache.StoreLaws (gmap string Cache.CacheEntry).
Proof.
  split.
  - intros key value store. cbn. now rewrite lookup_insert_eq.
  - intros key value store. cbn. now rewrite lookup_insert_eq.
  - intros key store. cbn. destruct (store !! key); [eauto | discriminate].
Qed.

(** A call that finds nothing usable in the store: it asks the adapter, and a
    result is stored under the key with the time at which it arrived. *)
Lemma cache_dispatch {S : Type} `{Cache.StoreLaws S} (opts : Cache.NormalizedOptions)
    (config : RequestConfig) (store : S) (w : World) (r : Requestor) (v : Js.value) :
  let key := Cache.key opts config in
  let sent := applyGlobalConfig (globalConfig (core w)) config in
  (Cache.store_has key store = false \/
   exists entry, Cache.store_has key store = true /\
                 Cache.store_get key store = Some entry /\
                 Cache.valid opts key config entry (clock w) = false) ->
  requestorInstance (core w) = Some r ->
  outcome (rrequest r (length (dispatches (trace w))) sent) = Resolved v ->
  exists store' w',
    Cache.makeRequest opts config store w = (Resolved v, sent, store', w') /\
    trace w' = trace w ++ [Dispatch (rname r) sent] /\
    Cache.store_has key store' = true /\
    Cache.store_get key store' = Some {| Cache.data := v; Cache.timestamp := clock w' |}.
Proof.
  intros key sent Hmiss Hr Hok. unfold Cache.makeRequest. fold key.
  assert ((if Cache.store_has key store
           then match Cache.store_get key store with
                | Some cache =>
                    if Cache.valid opts key config cache (clock w)
                    then Some (Resolved (Cache.data cache)) else None
                | None => Some (Rejected (TypeError "cache.timestamp"))
                end
           else None) = None) as ->.
  { destruct Hmiss as [-> | (entry & -> & -> & ->)]; reflexivity. }
  unfold useRequestor. rewrite Hr, (proxiedRequest_injected _ _ _ Hr). cbn zeta.
  fold sent. rewrite Hok. eexists _, _. split; [reflexivity|]. cbn [trace clock].
  split; [reflexivity|]. split; [apply Cache.has_set | apply Cache.get_set].
Qed.

(** C6: a call whose key has no entry dispatches and stores data and
    timestamp; a call whose key has an entry that is still valid (younger than
    [duration], or accepted by the custom predicate when one is given) returns
    the stored data and dispatches nothing; a call whose entry is no longer
    valid dispatches again and overwrites the entry. *)
Theorem cache_miss_hit_refresh {S : Type} `{Cache.StoreLaws S}
    (opts : Cache.NormalizedOptions) (config : RequestConfig) (store : S) (w : World) :
  let key := Cache.key opts config in
  let sent := applyGlobalConfig (globalConfig (core w)) config in
  (forall r v,
     Cache.store_has key store = false ->
     requestorInstance (core w) = Some r ->
     outcome (rrequest r (length (dispatches (trace w))) sent) = Resolved v ->
     exists store' w',
       Cache.makeRequest opts config store w = (Resolved v, sent, store', w') /\
       trace w' = trace w ++ [Dispatch (rname r) sent] /\
       Cache.store_has key store' = true /\
       Cache.store_get key store' = Some {| Cache.data := v; Cache.timestamp := clock w' |}) /\
  (forall entry,
     Cache.store_has key store = true ->
     Cache.store_get key store = Some entry ->
     match Cache.isValid opts with
     | Some custom => custom key config entry = true
     | None => clock w - Cache.timestamp entry < Cache.duration opts
     end ->
     Cache.makeRequest opts config store w = (Resolved (Cache.data entry), config, store, w)) /\
  (forall entry r v,
     Cache.store_has key store = true ->
     Cache.store_get key store = Some entry ->
     match Cache.isValid opts with
     | Some custom => custom key config entry = false
     | None => Cache.duration opts <= clock w - Cache.timestamp entry
     end ->
     requestorInstance (core w) = Some r ->
     outcome (rrequest r (length (dispatches (trace w))) sent) = Resolved v ->
     exists store' w',
       Cache.makeRequest opts config store w = (Resolved v, sent, store', w') /\
       trace w' = trace w ++ [Dispatch (rname r) sent] /\
       Cache.store_get key store' = Some {| Cache.data := v; Cache.timestamp := clock w' |}).
Proof.
  intros key sent. split; [|split].
  - intros r v Hnone Hr Hok. apply cache_dispatch; auto.
  - intros entry Hhas Hget Hvalid. unfold Cache.makeRequest. fold key.
    rewrite Hhas, Hget. unfold Cache.valid.
    destruct (Cache.isValid opts) as [custom|].
    + now rewrite Hvalid.
    + destruct (Z.ltb_spec (clock w - Cache.timestamp entry) (Cache.duration opts));
        [reflexivity | lia].
  - intros entry r v Hhas Hget Hstale Hr Hok.
    destruct (cache_dispatch opts config store w r v) as (store' & w' & Hrun & Ht & _ & Hg);
      auto.
    + right. exists entry. split; [exact Hhas|]. split; [exact Hget|].
      unfold Cache.valid. destruct (Cache.isValid opts) as [custom|]; [exact Hstale|].
      destruct (Z.ltb_spec (clock w - Cache.timestamp entry) (Cache.duration opts));
        [lia | reflexivity].
    + eauto.
Qed.

Lemma cache_miss_hit_refresh_witness :
  let opts := Cache.createCacheRequestor
                {| Cache.o_key := None; Cache.o_duration := None;
                   Cache.o_isValid := None; Cache.o_persist := None |} in
  let config := Sample.request "get" "/users" in
  let w := Sample.world (Some (Sample.echo "fetch")) Sample.api in
  let sent := applyGlobalConfig Sample.api config in
  exists store' w',
    Cache.makeRequest opts config Cache.createMemoryStore w
    = (Resolved (Js.Str "https://api.example.com/users"), sent, store', w') /\
    trace w' = trace w ++ [Dispatch "fetch" sent] /\
    Cache.store_has "get-/users" store' = true /\
    Cache.store_get "get-/users" store'
    = Some {| Cache.data := Js.Str "https://api.example.com/users";
              Cache.timestamp := clock w' |}.
Proof.
  intros opts config w sent.
  apply (proj1 (cache_miss_hit_refresh opts config Cache.createMemoryStore w)
           (Sample.echo "fetch") (Js.Str "https://api.example.com/users"));
    reflexivity.
Defined.

(** The three calls of the claim in a row on the in-memory store: a miss at
    time 0, a hit four minutes later, a refresh after six minutes. *)
Example cache_three_calls :
  let opts := Cache.createCacheRequestor
                {| Cache.o_key := None; Cache.o_duration := None;
                   Cache.o_isValid := None; Cache.o_persist := None |} in
  let config := Sample.request "get" "/users" in
  let later (ms : Z) (w : World) :=
    {| core := core w; clock := clock w + ms; trace := trace w |} in
  let '(r1, _, s1, w1) :=
    Cache.makeRequest opts config Cache.createMemoryStore
      (Sample.world (Some (Sample.echo "fetch")) Sample.api) in
  let '(r2, _, s2, w2) := Cache.makeRequest opts config s1 (later 240000 w1) in
  let '(r3, _, s3, w3) := Cache.makeRequest opts config s2 (later 120000 w2) in
  (r1, r2, r3) = (Resolved (Js.Str "https://api.example.com/users"),
                  Resolved (Js.Str "https://api.example.com/users"),
                  Resolved (Js.Str "https://api.example.com/users")) /\
  (length (trace w1), length (trace w2), length (trace w3)) = (1, 1, 2)%nat /\
  (Cache.timestamp <$> s1 !! "get-/users",
   Cache.timestamp <$> s2 !! "get-/users",
   Cache.timestamp <$> s3 !! "get-/users") = (Some 5, Some 5, Some 360010).
Proof. vm_compute. repeat split; reflexivity. Qed.

(** ** Idempotent decorator *)

Lemma string_app_inj (a x y : string) : a +:+ x = a +:+ y -> x = y.
Proof.
  induction a as [|c a IH]; [auto|]. rewrite !string_app_cons.
  intros E. injection E as E. auto.
Qed.


Lemma stringify_truthy (v : Js.value) : Js.truthy v = true -> is_Some (Js.stringify v).
Proof. destruct v as [| |[]| | | |]; cbn; try discriminate; eauto. Qed.




(** *** JSON texts of objects *)









(** The default key is the method, the separator, the URL, and then nothing or
    a separator followed by the encoded params and body. *)
Lemma defaultKey_shape (config : RequestConfig) :
  exists tail,
    Idempotent.defaultKey config
    = default "" (method config) +:+ "-" +:+ default "" (url config) +:+ tail /\
    (tail = "" \/ exists rest, tail = "-" +:+ rest).
Proof.
  unfold Idempotent.defaultKey.
  destruct (Js.truthy (params config)), (Js.truthy (data config)); cbn.
  - eexists. split; [reflexivity | right; eexists; reflexivity].
  - eexists. split; [reflexivity | right; eexists; reflexivity].
  - eexists. split; [reflexivity | right; eexists; reflexivity].
  - exists "". rewrite string_app_empty. auto.
Qed.



Example defaultKey_examples :
  Idempotent.defaultKey (Sample.request "get" "/api/articles") = "get-/api/articles" /\
  Idempotent.defaultKey Sample.payByBody
  = "post-/api/pay-{" +:+ Js.quote "orderId" +:+ ":123456}" /\
  Js.stringify (Js.Arr [Js.Num (-1); Js.Undefined; Js.Bool true; Js.Null])
  = Some "[-1,null,true,null]".
Proof. repeat split; reflexivity. Qed.


(** *** JSON texts end where they end *)














(** *** The texts behind method and url *)




(** A separator inside a url makes further keys coincide. *)
Example idempotent_separator_collision :
  Idempotent.defaultKey (Sample.request "get" "/a-1")
  = Idempotent.defaultKey
      {| method := Some "get"; url := Some "/a"; headers := None;
         params := Js.Num 1; data := Js.Undefined; timeout := None |}.
Proof. reflexivity. Qed.



(** ** Bounded-concurrency decorator *)

Section ParallelFacts.

Import Parallel.

Variable maxParallelCount : Z.

Lemma settle_length (id : nat) (o : settled) (ps : list promise) :
  length (settle id o ps) = length ps.
Proof. unfold settle. destruct (ps !! id) as [[|]|]; now rewrite ?length_insert. Qed.

Lemma settle_lookup_ne (id j : nat) (o : settled) (ps : list promise) :
  id <> j -> settle id o ps !! j = ps !! j.
Proof.
  intros Hne. unfold settle. destruct (ps !! id) as [[|]|]; [|reflexivity..].
  now apply list_lookup_insert_ne.
Qed.

Lemma settle_lookup_pending (id : nat) (o : settled) (ps : list promise) :
  ps !! id = Some Pending -> settle id o ps !! id = Some (Settled o).
Proof.
  intros H. unfold settle. rewrite H. apply list_lookup_insert_eq.
  now apply lookup_lt_Some in H.
Qed.

Lemma flying_elem (id : nat) (s : state) :
  flying id s = true <-> exists f, f ∈ inflight s /\ f_id f = id.
Proof.
  unfold flying. rewrite existsb_exists. split.
  - intros (f & Hin & E). exists f. split; [now apply list_elem_of_In|].
    now apply Nat.eqb_eq.
  - intros (f & Hin & E). exists f. split; [now apply list_elem_of_In|].
    now apply Nat.eqb_eq.
Qed.

Lemma finishing_elem (id : nat) (l : list nat) :
  existsb (Nat.eqb id) l = true <-> id ∈ l.
Proof.
  rewrite existsb_exists. split.
  - intros (x & Hin & E). apply Nat.eqb_eq in E. subst. now apply list_elem_of_In.
  - intros Hin. exists id. split; [now apply list_elem_of_In | apply Nat.eqb_refl].
Qed.

Lemma filter_length_lt {A} (p : A -> bool) (l : list A) (x : A) :
  x ∈ l -> p x = false -> (length (List.filter p l) < length l)%nat.
Proof.
  intros Hin Hp. induction l as [|y l IH]; [inversion Hin|].
  pose proof (List.filter_length_le p l) as Hle. cbn.
  apply elem_of_cons in Hin as [<- | Hin].
  - rewrite Hp. lia.
  - specialize (IH Hin). destruct (p y); cbn; lia.
Qed.

Lemma elem_of_filter_bool {A} (p : A -> bool) (l : list A) (x : A) :
  x ∈ List.filter p l <-> x ∈ l /\ p x = true.
Proof. rewrite !list_elem_of_In. apply List.filter_In. Qed.

(** Numbers handed out so far are below the next one. *)
Lemma fifo_admitted_lt (s : state) (id : nat) :
  admitted s ++ (i_id <$> queue s) = seq 0 (length (promises s)) ->
  id ∈ admitted s -> (id < length (promises s))%nat.
Proof.
  intros Hfifo Hin.
  assert (id ∈ seq 0 (length (promises s))) as H.
  { rewrite <- Hfifo. apply elem_of_app. now left. }
  apply elem_of_seq in H. lia.
Qed.

(** The three ways [processQueue] can go. *)
Lemma processQueue_cases (s : state) :
  (processQueue maxParallelCount s = (s, None) /\
   (queue s = [] \/ maxParallelCount <= runningCount s)) \/
  (exists entry rest r,
     queue s = entry :: rest /\ runningCount s < maxParallelCount /\
     requestorInstance (pcore s) = Some r /\
     processQueue maxParallelCount s =
     ({| pcore := pcore s; queue := rest; runningCount := runningCount s + 1;
         promises := promises s;
         inflight := inflight s ++
           [{| f_id := i_id entry; f_adapter := Some (rname r);
               f_config := applyGlobalConfig (globalConfig (pcore s)) (i_config entry) |}];
         finishing := finishing s;
         admitted := admitted s ++ [i_id entry] |}, None)) \/
  (exists entry rest,
     queue s = entry :: rest /\ runningCount s < maxParallelCount /\
     requestorInstance (pcore s) = None /\
     processQueue maxParallelCount s =
     ({| pcore := pcore s; queue := rest; runningCount := runningCount s + 1;
         promises := promises s; inflight := inflight s;
         finishing := finishing s;
         admitted := admitted s ++ [i_id entry] |}, Some NotInjected)).
Proof.
  unfold processQueue, useRequestor.
  destruct (queue s) as [|entry rest] eqn:Hq; cbn [length Nat.eqb orb].
  { left. auto. }
  rewrite Z.geb_leb. destruct (Z.leb_spec maxParallelCount (runningCount s)).
  { left. auto. }
  destruct (requestorInstance (pcore s)) as [r|] eqn:Hr.
  - right. left. exists entry, rest, r. auto.
  - right. right. exists entry, rest. auto.
Qed.

(** [processQueue] re-establishes the invariant when at most the head of the
    queue waits with room left. *)
Lemma processQueue_invariant (s : state) :
  Z.of_nat (length (inflight s) + length (finishing s)) <= runningCount s ->
  runningCount s <= Z.max 0 maxParallelCount ->
  admitted s ++ (i_id <$> queue s) = seq 0 (length (promises s)) ->
  (forall entry rest, queue s = entry :: rest -> rest <> [] ->
     maxParallelCount <= runningCount s + 1) ->
  (forall f, f ∈ inflight s -> f_id f ∈ admitted s /\ promises s !! f_id f = Some Pending) ->
  (forall entry, entry ∈ queue s -> promises s !! i_id entry = Some Pending) ->
  invariant maxParallelCount (processQueue maxParallelCount s).1.
Proof.
  intros Hcount Hbound Hfifo Hfull Hfly Hq.
  destruct (processQueue_cases s)
    as [[-> Hstay] | [(entry & rest & r & Hqueue & Hroom & Hr & ->)
                     | (entry & rest & Hqueue & Hroom & Hr & ->)]]; cbn [fst].
  - split; auto. intros Hne. destruct Hstay; [contradiction | assumption].
  - split; cbn [pcore queue runningCount promises inflight finishing admitted].
    + rewrite length_app. cbn [length]. lia.
    + lia.
    + rewrite <- Hfifo, Hqueue, <- app_assoc. reflexivity.
    + intros Hne. eapply Hfull in Hne; eauto.
    + intros f Hin. apply elem_of_app in Hin as [Hin | Hin].
      * destruct (Hfly f Hin). split; [apply elem_of_app; now left | assumption].
      * apply list_elem_of_singleton in Hin. subst f. cbn [f_id]. split.
        -- apply elem_of_app. right. now apply list_elem_of_singleton.
        -- apply Hq. rewrite Hqueue. apply elem_of_cons. now left.
    + intros e Hin. apply Hq. rewrite Hqueue. apply elem_of_cons. now right.
  - split; cbn [pcore queue runningCount promises inflight finishing admitted].
    + lia.
    + lia.
    + rewrite <- Hfifo, Hqueue, <- app_assoc. reflexivity.
    + intros Hne. eapply Hfull in Hne; eauto.
    + intros f Hin. destruct (Hfly f Hin). split; [apply elem_of_app; now left | assumption].
    + intros e Hin. apply Hq. rewrite Hqueue. apply elem_of_cons. now right.
Qed.


Lemma fifo_disjoint (s : state) (id : nat) (entry : item) :
  admitted s ++ (i_id <$> queue s) = seq 0 (length (promises s)) ->
  id ∈ admitted s -> entry ∈ queue s -> i_id entry <> id.
Proof.
  intros Hfifo Hadm Hq E.
  pose proof (NoDup_seq 0 (length (promises s))) as Hnd. rewrite <- Hfifo in Hnd.
  apply NoDup_app in Hnd as (_ & Hdis & _). apply (Hdis id Hadm).
  rewrite <- E. now apply list_elem_of_fmap_2.
Qed.

(** Settling a promise that belongs to no waiting call and to no dispatch under
    way keeps the invariant. *)
Lemma settle_invariant (s : state) (id : nat) (o : settled) :
  invariant maxParallelCount s ->
  (forall f, f ∈ inflight s -> f_id f <> id) ->
  (forall entry, entry ∈ queue s -> i_id entry <> id) ->
  invariant maxParallelCount (setPromises (settle id o (promises s)) s).
Proof.
  intros [Hcount Hbound Hfifo Hfull Hfly Hq] Hf Hw.
  split; cbn [setPromises pcore queue runningCount promises inflight finishing admitted];
    auto.
  - now rewrite settle_length.
  - intros f Hin. destruct (Hfly f Hin). split; [assumption|].
    rewrite settle_lookup_ne; auto. intros E. now apply (Hf f Hin).
  - intros e Hin. rewrite settle_lookup_ne; auto. intros E. now apply (Hw e Hin).
Qed.

Lemma initial_invariant (c : Core) : invariant maxParallelCount (initial c).
Proof.
  split; cbn; try lia; try reflexivity; try congruence.
  - intros f H. inversion H.
  - intros e H. inversion H.
Qed.

Lemma step_invariant (e : event) (s s' : state) :
  invariant maxParallelCount s ->
  step maxParallelCount e s = Some s' ->
  invariant maxParallelCount s'.
Proof.
  intros Hinv Hstep. pose proof Hinv as [Hcount Hbound Hfifo Hfull Hfly Hq].
  destruct e as [config | id o | id | a]; cbn [step] in Hstep.
  - (* Call *)
    set (id := length (promises s)) in *.
    match type of Hstep with
    | context [processQueue _ ?p] => set (pushed := p) in *
    end.
    assert (Hpre : invariant maxParallelCount (processQueue maxParallelCount pushed).1).
    { apply processQueue_invariant;
        cbn [pushed pcore queue runningCount promises inflight finishing admitted].
      - exact Hcount.
      - exact Hbound.
      - rewrite fmap_app, app_assoc, Hfifo, length_app. cbn [length fmap list_fmap i_id].
        rewrite Nat.add_1_r, seq_S. reflexivity.
      - intros entry rest E Hne. destruct (queue s) as [|x q] eqn:Hqs.
        + cbn in E. inversion E; subst. contradiction.
        + assert (maxParallelCount <= runningCount s) by (apply Hfull; discriminate). lia.
      - intros f Hin. destruct (Hfly f Hin) as [Ha Hp]. split; [assumption|].
        rewrite lookup_app_l; [assumption|]. now apply lookup_lt_Some in Hp.
      - intros entry Hin. apply elem_of_app in Hin as [Hin | Hin].
        + pose proof (Hq entry Hin) as Hp.
          rewrite lookup_app_l; [assumption|]. now apply lookup_lt_Some in Hp.
        + apply list_elem_of_singleton in Hin. subst entry. cbn [i_id].
          unfold id. now rewrite list_lookup_middle. }
    destruct (processQueue_cases pushed)
      as [[Hrun _] | [(entry & rest & r & _ & _ & _ & Hrun)
                     | (entry & rest & Hqueue & Hroom & _ & Hrun)]];
      rewrite Hrun in Hstep, Hpre; cbn [fst] in Hpre.
    + injection Hstep as <-. exact Hpre.
    + injection Hstep as <-. exact Hpre.
    + injection Hstep as <-.
      cbn [pushed queue runningCount] in Hqueue, Hroom.
      assert (queue s = []) as Hempty.
      { destruct (queue s); [reflexivity|].
        assert (maxParallelCount <= runningCount s) by (apply Hfull; discriminate). lia. }
      rewrite Hempty in Hqueue. cbn in Hqueue. injection Hqueue as <- <-.
      apply settle_invariant; [exact Hpre | |];
        cbn [pushed pcore queue runningCount promises inflight finishing admitted].
      * intros f Hin. destruct (Hfly f Hin) as [Ha _].
        pose proof (fifo_admitted_lt s _ Hfifo Ha). unfold id. lia.
      * intros entry Hin. inversion Hin.
  - (* Settle *)
    destruct (flying id s) eqn:Hflying; [|discriminate]. injection Hstep as <-.
    apply flying_elem in Hflying as (f0 & Hin0 & Hid0).
    destruct (Hfly f0 Hin0) as [Hadm0 _]. rewrite Hid0 in Hadm0.
    split; cbn [pcore queue runningCount promises inflight finishing admitted].
    + rewrite length_app. cbn [length].
      assert (length (List.filter (fun f => negb (f_id f =? id)%nat) (inflight s))
              < length (inflight s))%nat.
      { apply (filter_length_lt _ _ f0 Hin0). rewrite Hid0, Nat.eqb_refl. reflexivity. }
      lia.
    + exact Hbound.
    + now rewrite settle_length.
    + exact Hfull.
    + intros f Hin. apply elem_of_filter_bool in Hin as [Hin Hne].
      destruct (Hfly f Hin) as [Ha Hp]. split; [assumption|].
      rewrite settle_lookup_ne; [assumption|].
      apply negb_true_iff, Nat.eqb_neq in Hne. congruence.
    + intros entry Hin. rewrite settle_lookup_ne; [now apply Hq|].
      intros E. now apply (fifo_disjoint s id entry Hfifo Hadm0 Hin).
  - (* Finally *)
    destruct (existsb (Nat.eqb id) (finishing s)) eqn:Hfin; [|discriminate].
    injection Hstep as <-. apply finishing_elem in Hfin.
    apply processQueue_invariant;
      cbn [pcore queue runningCount promises inflight finishing admitted]; auto.
    + assert (length (List.filter (fun i => negb (i =? id)%nat) (finishing s))
              < length (finishing s))%nat.
      { apply (filter_length_lt _ _ id Hfin). now rewrite Nat.eqb_refl. }
      lia.
    + lia.
    + intros entry rest E Hne.
      assert (maxParallelCount <= runningCount s) by (apply Hfull; rewrite E; discriminate).
      lia.
  - (* Other *)
    injection Hstep as <-. split; auto.
Qed.

Lemma run_invariant (events : list event) :
  forall s s', invariant maxParallelCount s ->
    run maxParallelCount events s = Some s' -> invariant maxParallelCount s'.
Proof.
  induction events as [|e events IH]; intros s s' Hinv Hrun; cbn in Hrun.
  - injection Hrun as <-. exact Hinv.
  - destruct (step maxParallelCount e s) as [s1|] eqn:Hstep; [|discriminate].
    eapply IH; [|exact Hrun]. eapply step_invariant; eauto.
Qed.

End ParallelFacts.

(** After its dispatch failed, a call has its own promise rejected, and when
    the [finally] callback has run the head of the queue is under way. *)
Lemma failed_dispatch_frees_slot (maxParallelCount : Z) (s : Parallel.state)
    (id : nat) (e : thrown) :
  Parallel.invariant maxParallelCount s ->
  Parallel.flying id s = true ->
  exists s1 s2,
    Parallel.step maxParallelCount (Parallel.Settle id (Rejected e)) s = Some s1 /\
    Parallel.promises s1 !! id = Some (Parallel.Settled (Rejected e)) /\
    Parallel.step maxParallelCount (Parallel.Finally id) s1 = Some s2 /\
    forall entry rest,
      Parallel.queue s = entry :: rest ->
      is_Some (requestorInstance (Parallel.pcore s)) ->
      Parallel.queue s2 = rest /\
      Parallel.flying (Parallel.i_id entry) s2 = true /\
      Parallel.admitted s2 = Parallel.admitted s ++ [Parallel.i_id entry].
Proof.
  intros [Hcount Hbound Hfifo Hfull Hfly Hq] Hflying.
  pose proof Hflying as Hf. apply flying_elem in Hf as (f0 & Hin0 & Hid0).
  destruct (Hfly f0 Hin0) as [_ Hpending]. rewrite Hid0 in Hpending.
  cbn [Parallel.step]. rewrite Hflying. eexists _, _. split; [reflexivity|].
  cbn [Parallel.promises Parallel.finishing]. split; [now apply settle_lookup_pending|].
  assert (existsb (Nat.eqb id) (Parallel.finishing s ++ [id]) = true) as ->.
  { apply finishing_elem, elem_of_app. right. now apply list_elem_of_singleton. }
  split; [reflexivity|].
  intros entry rest Hqueue [r Hr].
  match goal with
  | |- context [Parallel.processQueue _ ?d] => set (decremented := d)
  end.
  assert (1 <= Parallel.runningCount s) as Hpos.
  { destruct (Parallel.inflight s); [inversion Hin0 | cbn [length] in Hcount; lia]. }
  assert (Parallel.runningCount s <= maxParallelCount) as Hmax by lia.
  destruct (processQueue_cases maxParallelCount decremented)
    as [[_ [Hempty | Hfullq]] | [(entry' & rest' & r' & Hqueue' & _ & _ & ->)
                                | (entry' & rest' & _ & _ & Hnone & _)]].
  - cbn [decremented Parallel.queue] in Hempty. congruence.
  - cbn [decremented Parallel.runningCount] in Hfullq. lia.
  - cbn [decremented Parallel.queue] in Hqueue'. rewrite Hqueue in Hqueue'.
    injection Hqueue' as <- <-.
    cbn [fst decremented Parallel.queue Parallel.admitted Parallel.inflight].
    split; [reflexivity|]. split; [|reflexivity].
    apply flying_elem. eexists. split.
    + apply elem_of_app. right. apply list_elem_of_singleton. reflexivity.
    + reflexivity.
  - cbn [decremented Parallel.pcore] in Hnone. congruence.
Qed.

(** C5: whatever calls, settlements and reconfigurations an instance with
    capacity [maxParallel >= 1] goes through, at most [maxParallel] dispatched
    requests are unsettled; the calls that have left the queue, followed by
    those still waiting, are the calls in the order in which they were made;
    and a dispatch that fails rejects the promise of its own call, after which
    its [finally] callback puts the head of the queue under way. *)
Theorem parallel_bounded_fifo (maxParallel : Z) (c : Core)
    (events : list Parallel.event) (s : Parallel.state) :
  1 <= maxParallel ->
  Parallel.run maxParallel events (Parallel.initial c) = Some s ->
  Z.of_nat (length (Parallel.inflight s)) <= maxParallel /\
  Parallel.admitted s ++ (Parallel.i_id <$> Parallel.queue s)
  = seq 0 (length (Parallel.promises s)) /\
  (forall id e,
     Parallel.flying id s = true ->
     exists s1 s2,
       Parallel.step maxParallel (Parallel.Settle id (Rejected e)) s = Some s1 /\
       Parallel.promises s1 !! id = Some (Parallel.Settled (Rejected e)) /\
       Parallel.step maxParallel (Parallel.Finally id) s1 = Some s2 /\
       forall entry rest,
         Parallel.queue s = entry :: rest ->
         is_Some (requestorInstance (Parallel.pcore s)) ->
         Parallel.queue s2 = rest /\
         Parallel.flying (Parallel.i_id entry) s2 = true /\
         Parallel.admitted s2 = Parallel.admitted s ++ [Parallel.i_id entry]).
Proof.
  intros Hmax Hrun.
  pose proof (run_invariant maxParallel events _ _ (initial_invariant maxParallel c) Hrun)
    as Hinv.
  split; [|split].
  - destruct Hinv as [Hcount Hbound _ _ _ _]. lia.
  - now destruct Hinv.
  - intros id e Hflying. now apply failed_dispatch_frees_slot.
Qed.

Lemma parallel_bounded_fifo_witness :
  let c := {| requestorInstance := Some (Sample.echo "fetch"); globalConfig := Sample.api |} in
  let call (n : string) := Parallel.Call (Sample.request "get" n) in
  let events :=
    [call "/a"; call "/b"; call "/c"; call "/d"; call "/e";
     Parallel.Settle 1 (Rejected (Failure (Js.Str "down"))); Parallel.Finally 1;
     Parallel.Settle 0 (Resolved (Js.Str "a"))] in
  1 <= 2 /\
  exists s,
    Parallel.run 2 events (Parallel.initial c) = Some s /\
    Z.of_nat (length (Parallel.inflight s)) <= 2 /\
    Parallel.admitted s ++ (Parallel.i_id <$> Parallel.queue s)
    = seq 0 (length (Parallel.promises s)).
Proof.
  assert (Hcap : 1 <= 2) by lia.
  intros c call events. split; [exact Hcap|].
  destruct (Parallel.run 2 events (Parallel.initial c)) as [s|] eqn:Hrun;
    [|vm_compute in Hrun; discriminate Hrun].
  exists s. split; [reflexivity|].
  pose proof (parallel_bounded_fifo 2 c events s Hcap Hrun) as (H1 & H2 & _).
  split; [exact H1 | exact H2].
Defined.

(** Five calls at once against capacity two: which calls are under way after
    each event, and the promises at the end. *)
Example parallel_five_calls :
  let c := {| requestorInstance := Some (Sample.echo "fetch"); globalConfig := Sample.api |} in
  let call (n : string) := Parallel.Call (Sample.request "get" n) in
  let events :=
    [call "/a"; call "/b"; call "/c"; call "/d"; call "/e";
     Parallel.Settle 1 (Rejected (Failure (Js.Str "down"))); Parallel.Finally 1;
     Parallel.Settle 0 (Resolved (Js.Str "a")); Parallel.Finally 0] in
  (fun n => (fun s => Parallel.f_id <$> Parallel.inflight s)
              <$> Parallel.run 2 (take n events) (Parallel.initial c)) <$> seq 1 9
  = [Some [0]; Some [0; 1]; Some [0; 1]; Some [0; 1]; Some [0; 1];
     Some [0]; Some [0; 2]; Some [2]; Some [2; 3]]%nat.
Proof. vm_compute. reflexivity. Qed.

Section Leak.

Import Parallel.

Variable maxParallelCount : Z.

Lemma settle_new (ps : list promise) (o : settled) :
  settle (length ps) o (ps ++ [Pending]) = ps ++ [Settled o].
Proof.
  unfold settle. rewrite list_lookup_middle by reflexivity.
  rewrite insert_app_r_alt by lia. now rewrite Nat.sub_diag.
Qed.

(** With no adapter injected, each call up to the capacity is taken off the
    queue, counted, and rejected; the count stays. *)
Lemma calls_without_adapter (configs : list RequestConfig) :
  forall s,
    requestorInstance (pcore s) = None -> queue s = [] ->
    runningCount s + Z.of_nat (length configs) <= maxParallelCount ->
    exists s',
      run maxParallelCount (Call <$> configs) s = Some s' /\
      pcore s' = pcore s /\ queue s' = [] /\
      runningCount s' = runningCount s + Z.of_nat (length configs) /\
      inflight s' = inflight s /\ finishing s' = finishing s /\
      promises s' = promises s ++
        replicate (length configs) (Settled (Rejected NotInjected)).
Proof.
  induction configs as [|config configs IH]; intros s Hnone Hq Hroom.
  - exists s. cbn. rewrite Z.add_0_r, app_nil_r. auto 10.
  - cbn [length] in Hroom. cbn [fmap list_fmap run step].
    unfold processQueue, useRequestor.
    cbn [pcore queue runningCount promises inflight finishing admitted].
    rewrite Hq, Hnone. cbn [app length Nat.eqb orb].
    rewrite Z.geb_leb. destruct (Z.leb_spec maxParallelCount (runningCount s)); [lia|].
    cbn [setPromises pcore queue runningCount promises inflight finishing admitted i_id].
    rewrite settle_new.
    match goal with
    | |- context [run _ _ ?s0] =>
        destruct (IH s0) as (s' & Hrun & Hc & Hq' & Hrc & Hfl & Hfin & Hps)
    end; [exact Hnone | reflexivity | cbn [setPromises runningCount]; lia |].
    cbn [setPromises pcore queue runningCount promises inflight finishing admitted] in *.
    exists s'. split; [exact Hrun|].
    rewrite Hps, <- app_assoc. cbn [length replicate app].
    repeat split; auto. lia.
Qed.

(** Once stuck, always stuck: the count does not move and whoever calls
    afterwards waits with a pending promise. *)
Lemma stuck_step (first : nat) (e : event) (s s' : state) :
  stuck maxParallelCount first s ->
  step maxParallelCount e s = Some s' ->
  stuck maxParallelCount first s' /\ runningCount s' = runningCount s.
Proof.
  intros [Hcount Hfl Hfin Hwait] Hstep.
  destruct e as [config | id o | id | a]; cbn [step] in Hstep.
  - assert (forall p, runningCount p = runningCount s -> queue p <> [] ->
              processQueue maxParallelCount p = (p, None)) as Hnoop.
    { intros p Hrc Hne. unfold processQueue. rewrite Hrc.
      destruct (Z.geb_spec (runningCount s) maxParallelCount); [|lia].
      now rewrite orb_true_r. }
    rewrite Hnoop in Hstep; [|reflexivity|cbn; now destruct (queue s)].
    injection Hstep as <-. split; [|reflexivity].
    split; cbn [pcore queue runningCount promises inflight finishing admitted]; auto.
    intros id Hid. rewrite length_app in Hid. cbn [length] in Hid.
    rewrite fmap_app. cbn [fmap list_fmap i_id].
    destruct (decide (id = length (promises s))) as [-> | Hne].
    + split; [now rewrite list_lookup_middle|].
      apply elem_of_app. right. now apply list_elem_of_singleton.
    + destruct (Hwait id ltac:(lia)) as [Hp Hin]. split.
      * rewrite lookup_app_l; [assumption | lia].
      * apply elem_of_app. now left.
  - unfold flying in Hstep. rewrite Hfl in Hstep. discriminate.
  - rewrite Hfin in Hstep. discriminate.
  - injection Hstep as <-. split; [|reflexivity]. split; auto.
Qed.

Lemma stuck_run (first : nat) (events : list event) :
  forall s s', stuck maxParallelCount first s ->
    run maxParallelCount events s = Some s' ->
    stuck maxParallelCount first s' /\ runningCount s' = runningCount s.
Proof.
  induction events as [|e events IH]; intros s s' Hstuck Hrun; cbn in Hrun.
  - injection Hrun as <-. auto.
  - destruct (step maxParallelCount e s) as [s1|] eqn:Hstep; [|discriminate].
    destruct (stuck_step first e s s1 Hstuck Hstep) as [Hstuck1 Hrc1].
    destruct (IH s1 s' Hstuck1 Hrun) as [Hstuck' Hrc']. split; [assumption | congruence].
Qed.

End Leak.

Lemma processQueue_surplus (maxParallelCount : Z) (s : Parallel.state) :
  Parallel.surplus s <= Parallel.surplus (Parallel.processQueue maxParallelCount s).1.
Proof.
  unfold Parallel.surplus.
  destruct (processQueue_cases maxParallelCount s)
    as [[-> _] | [(entry & rest & r & _ & _ & _ & ->) | (entry & rest & _ & _ & _ & ->)]];
    cbn [fst Parallel.runningCount Parallel.inflight Parallel.finishing];
    rewrite ?length_app; cbn [length]; lia.
Qed.

(** No event gives back a slot that no dispatch holds. *)
Lemma step_surplus (maxParallelCount : Z) (e : Parallel.event) (s s' : Parallel.state) :
  Parallel.step maxParallelCount e s = Some s' ->
  Parallel.surplus s <= Parallel.surplus s'.
Proof.
  intros Hstep. destruct e as [config | id o | id | a]; cbn [Parallel.step] in Hstep.
  - match type of Hstep with
    | context [Parallel.processQueue _ ?p] =>
        pose proof (processQueue_surplus maxParallelCount p) as Hle;
        destruct (Parallel.processQueue maxParallelCount p) as [s1 [error|]]
    end; injection Hstep as <-; exact Hle.
  - destruct (Parallel.flying id s) eqn:Hflying; [|discriminate]. injection Hstep as <-.
    apply flying_elem in Hflying as (f0 & Hin0 & Hid0).
    unfold Parallel.surplus. cbn [Parallel.runningCount Parallel.inflight Parallel.finishing].
    rewrite length_app. cbn [length].
    assert (length (List.filter (fun f => negb (Parallel.f_id f =? id)%nat)
                      (Parallel.inflight s))
            < length (Parallel.inflight s))%nat.
    { apply (filter_length_lt _ _ f0 Hin0). rewrite Hid0, Nat.eqb_refl. reflexivity. }
    lia.
  - destruct (existsb (Nat.eqb id) (Parallel.finishing s)) eqn:Hfin; [|discriminate].
    injection Hstep as <-. apply finishing_elem in Hfin.
    match goal with
    | |- context [Parallel.processQueue _ ?p] =>
        pose proof (processQueue_surplus maxParallelCount p) as Hle
    end.
    etransitivity; [|exact Hle].
    unfold Parallel.surplus. cbn [Parallel.runningCount Parallel.inflight Parallel.finishing].
    assert (length (List.filter (fun i => negb (i =? id)%nat) (Parallel.finishing s))
            < length (Parallel.finishing s))%nat.
    { apply (filter_length_lt _ _ id Hfin). now rewrite Nat.eqb_refl. }
    lia.
  - injection Hstep as <-. reflexivity.
Qed.

Section Lost.

Import Parallel.

Variable maxParallelCount : Z.

Lemma flying_snoc (id : nat) (f : flight) (fs : list flight) :
  existsb (fun g => Nat.eqb (f_id g) id) fs = false -> f_id f <> id ->
  existsb (fun g => Nat.eqb (f_id g) id) (fs ++ [f]) = false.
Proof.
  intros Hfs Hne. rewrite existsb_app, Hfs. cbn.
  apply Nat.eqb_neq in Hne. now rewrite Hne.
Qed.

(** What [processQueue] leaves of a lost call. *)
Lemma processQueue_lost (id : nat) (s : state) :
  admitted s ++ (i_id <$> queue s) = seq 0 (length (promises s)) ->
  lost id s -> lost id (processQueue maxParallelCount s).1.
Proof.
  intros Hfifo [Hp Ha Hg].
  destruct (processQueue_cases maxParallelCount s)
    as [[-> _] | [(entry & rest & r & Hqueue & _ & _ & ->)
                 | (entry & rest & Hqueue & _ & _ & ->)]]; cbn [fst].
  - now split.
  - split; cbn [promises admitted]; [assumption | apply elem_of_app; now left |].
    unfold flying. cbn [inflight]. apply (flying_snoc id); [exact Hg|]. cbn [f_id].
    apply (fifo_disjoint s id entry Hfifo Ha). rewrite Hqueue. apply elem_of_cons. now left.
  - split; cbn [promises admitted]; [assumption | apply elem_of_app; now left | exact Hg].
Qed.

(** A lost call stays lost: no event settles its promise. *)
Lemma lost_step (id : nat) (e : event) (s s' : state) :
  invariant maxParallelCount s -> lost id s ->
  step maxParallelCount e s = Some s' -> lost id s'.
Proof.
  intros [Hcount Hbound Hfifo Hfull Hfly Hq] Hlost Hstep.
  pose proof Hlost as [Hp Ha Hg].
  pose proof (lookup_lt_Some _ _ _ Hp) as Hlt.
  destruct e as [config | id' o | id' | a]; cbn [step] in Hstep.
  - match type of Hstep with
    | context [processQueue _ ?p] => set (pushed := p) in *
    end.
    assert (lost id (processQueue maxParallelCount pushed).1) as [Hp1 Ha1 Hg1].
    { apply processQueue_lost; cbn [pushed queue promises admitted].
      - rewrite fmap_app, app_assoc, Hfifo, length_app. cbn [length fmap list_fmap i_id].
        rewrite Nat.add_1_r, seq_S. reflexivity.
      - split; cbn [pushed promises admitted]; [|assumption|exact Hg].
        rewrite lookup_app_l; assumption. }
    destruct (processQueue maxParallelCount pushed) as [s1 [error|]];
      injection Hstep as <-; cbn [fst] in *; [|now split].
    split; cbn [setPromises promises admitted]; [|assumption|exact Hg1].
    rewrite settle_lookup_ne; [assumption | lia].
  - destruct (flying id' s) eqn:Hflying; [|discriminate]. injection Hstep as <-.
    assert (id' <> id) as Hne by (intros ->; congruence).
    split; cbn [promises admitted]; [|assumption|].
    + rewrite settle_lookup_ne; assumption.
    + match goal with |- ?x = false => destruct x eqn:Hnow end; [|reflexivity].
      apply flying_elem in Hnow as (f & Hin & Hid). cbn [inflight] in Hin.
      apply elem_of_filter_bool in Hin as [Hin _].
      assert (flying id s = true) by (apply flying_elem; eauto). congruence.
  - destruct (existsb (Nat.eqb id') (finishing s)); [|discriminate].
    injection Hstep as <-. apply processQueue_lost; [exact Hfifo|].
    now split.
  - injection Hstep as <-. now split.
Qed.

Lemma lost_run (id : nat) (events : list event) :
  forall s s', invariant maxParallelCount s -> lost id s ->
    run maxParallelCount events s = Some s' -> lost id s'.
Proof.
  induction events as [|e events IH]; intros s s' Hinv Hlost Hrun; cbn in Hrun.
  - now injection Hrun as <-.
  - destruct (step maxParallelCount e s) as [s1|] eqn:Hstep; [|discriminate].
    apply (IH s1); [eapply step_invariant | eapply lost_step |]; eauto.
Qed.

(** The calls that have not left the queue are the last ones made. *)
Lemma queue_ids (s : state) (id : nat) :
  admitted s ++ (i_id <$> queue s) = seq 0 (length (promises s)) ->
  (length (admitted s) <= id < length (promises s))%nat ->
  id ∈ (i_id <$> queue s).
Proof.
  intros Hfifo Hid.
  assert (id ∈ admitted s ++ (i_id <$> queue s)) as Hin
    by (rewrite Hfifo; apply elem_of_seq; lia).
  assert (admitted s = seq 0 (length (admitted s))) as Hadm.
  { apply (f_equal (take (length (admitted s)))) in Hfifo.
    rewrite take_app_length in Hfifo. rewrite Hfifo at 1. rewrite take_seq. f_equal.
    apply (f_equal length) in Hfifo. rewrite length_take, length_seq in Hfifo. lia. }
  apply elem_of_app in Hin as [Hin | Hin]; [|exact Hin].
  rewrite Hadm in Hin. apply elem_of_seq in Hin. lia.
Qed.

(** When no dispatch accounts for any of the slots, the instance is stuck. *)
Lemma surplus_stuck (s : state) :
  invariant maxParallelCount s -> maxParallelCount <= surplus s ->
  stuck maxParallelCount (length (admitted s)) s.
Proof.
  intros [Hcount Hbound Hfifo Hfull Hfly Hq] Hsur. unfold surplus in Hsur.
  assert (length (inflight s) + length (finishing s) = 0)%nat as Hnone by lia.
  split.
  - lia.
  - destruct (inflight s); [reflexivity | cbn in Hnone; lia].
  - destruct (finishing s); [reflexivity | cbn in Hnone; lia].
  - intros id Hid. pose proof (queue_ids s id Hfifo Hid) as Hin. split; [|exact Hin].
    apply list_elem_of_fmap in Hin as (entry & -> & Hin). now apply Hq.
Qed.

End Lost.

(** C10, as stated, fails: a call that [processQueue] takes off the queue from
    a [finally] callback while no adapter is injected does not reject.  Here
    the capacity is one; the second call waits, the adapter is taken away,
    and when the first call has finished the second leaves the queue and is
    counted, and its promise stays pending with nothing under way. *)
Lemma parallel_dequeued_in_finally_stays_pending :
  (fun s => (Parallel.promises s, Parallel.i_id <$> Parallel.queue s,
             Parallel.f_id <$> Parallel.inflight s, Parallel.finishing s,
             Parallel.admitted s, Parallel.runningCount s))
    <$> Parallel.run 1
          [Parallel.Call (Sample.request "get" "/a");
           Parallel.Call (Sample.request "get" "/b");
           Parallel.Other (Inject None);
           Parallel.Settle 0 (Resolved (Js.Str "a"));
           Parallel.Finally 0]
          (Parallel.initial {| requestorInstance := Some (Sample.echo "fetch");
                               globalConfig := initialGlobalConfig |})
  = Some ([Parallel.Settled (Resolved (Js.Str "a")); Parallel.Pending],
          [], [], [], [0; 1]%nat, 1).
Proof. vm_compute. reflexivity. Qed.

(** C10 (amended): when [processQueue] takes a call off the queue while no
    adapter is injected, the count, already raised for that call, is never
    lowered again.  Inside [makeRequest] the call taken is the one just made
    and it rejects with the not-injected error; inside a [finally] callback
    the call taken is the head of the queue and its promise is never settled.
    No event gives back a slot that no dispatch holds; and once no dispatch
    accounts for any of the [maxParallel] slots, as after [maxParallel] calls
    made while nothing was injected, every call that is still in the queue
    and every later call stays in the queue with a pending promise, whatever
    happens, a later [inject] included. *)
Theorem parallel_not_injected_leak (maxParallel : Z) :
  (forall c events s config,
     Parallel.run maxParallel events (Parallel.initial c) = Some s ->
     requestorInstance (Parallel.pcore s) = None ->
     Parallel.runningCount s < maxParallel ->
     exists s',
       Parallel.step maxParallel (Parallel.Call config) s = Some s' /\
       Parallel.promises s'
       = Parallel.promises s ++ [Parallel.Settled (Rejected NotInjected)] /\
       Parallel.runningCount s' = Parallel.runningCount s + 1 /\
       Parallel.inflight s' = Parallel.inflight s /\
       Parallel.finishing s' = Parallel.finishing s /\
       Parallel.queue s' = [] /\
       Parallel.surplus s' = Parallel.surplus s + 1) /\
  (forall c events s id entry rest,
     Parallel.run maxParallel events (Parallel.initial c) = Some s ->
     requestorInstance (Parallel.pcore s) = None ->
     id ∈ Parallel.finishing s ->
     Parallel.queue s = entry :: rest ->
     exists s',
       Parallel.step maxParallel (Parallel.Finally id) s = Some s' /\
       Parallel.queue s' = rest /\
       Parallel.runningCount s' = Parallel.runningCount s /\
       Parallel.inflight s' = Parallel.inflight s /\
       Parallel.surplus s + 1 <= Parallel.surplus s' /\
       Parallel.lost (Parallel.i_id entry) s' /\
       forall later s'',
         Parallel.run maxParallel later s' = Some s'' ->
         Parallel.promises s'' !! Parallel.i_id entry = Some Parallel.Pending) /\
  (forall e s s',
     Parallel.step maxParallel e s = Some s' ->
     Parallel.surplus s <= Parallel.surplus s') /\
  (forall c events s,
     Parallel.run maxParallel events (Parallel.initial c) = Some s ->
     maxParallel <= Parallel.surplus s ->
     forall later s',
       Parallel.run maxParallel later s = Some s' ->
       Parallel.runningCount s' = Parallel.runningCount s /\
       Parallel.inflight s' = [] /\
       forall id, (length (Parallel.admitted s) <= id < length (Parallel.promises s'))%nat ->
         Parallel.promises s' !! id = Some Parallel.Pending /\
         id ∈ (Parallel.i_id <$> Parallel.queue s')) /\
  (forall c configs,
     requestorInstance c = None ->
     Z.of_nat (length configs) = maxParallel ->
     exists s,
       Parallel.run maxParallel (Parallel.Call <$> configs) (Parallel.initial c) = Some s /\
       Parallel.runningCount s = maxParallel /\
       Parallel.inflight s = [] /\ Parallel.finishing s = [] /\ Parallel.queue s = [] /\
       Parallel.promises s
       = replicate (length configs) (Parallel.Settled (Rejected NotInjected)) /\
       forall events s',
         Parallel.run maxParallel events s = Some s' ->
         Parallel.runningCount s' = maxParallel /\
         Parallel.inflight s' = [] /\
         forall id, (length configs <= id < length (Parallel.promises s'))%nat ->
           Parallel.promises s' !! id = Some Parallel.Pending /\
           id ∈ (Parallel.i_id <$> Parallel.queue s')).
Proof.
  split; [|split; [|split; [|split]]].
  - intros c events s config Hrun Hnone Hroom.
    pose proof (run_invariant maxParallel events _ _ (initial_invariant maxParallel c) Hrun)
      as [_ _ _ Hfull _ _].
    assert (Parallel.queue s = []) as Hq.
    { destruct (Parallel.queue s); [reflexivity|].
      assert (maxParallel <= Parallel.runningCount s) by (apply Hfull; discriminate). lia. }
    destruct (calls_without_adapter maxParallel [config] s Hnone Hq)
      as (s' & Hstep & _ & Hq' & Hrc & Hfl & Hfin & Hps); [cbn; lia|].
    cbn [fmap list_fmap Parallel.run] in Hstep.
    destruct (Parallel.step maxParallel (Parallel.Call config) s) as [s1|];
      [|discriminate]. injection Hstep as ->.
    exists s'. cbn in Hrc, Hps. unfold Parallel.surplus. rewrite Hrc, Hfl, Hfin.
    repeat (split; [auto|]). lia.
  - intros c events s id entry rest Hrun Hnone Hfin Hqueue.
    pose proof (run_invariant maxParallel events _ _ (initial_invariant maxParallel c) Hrun)
      as Hinv.
    pose proof Hinv as [Hcount Hbound Hfifo Hfull Hfly Hq].
    assert (Hshort : (length (List.filter (fun i => negb (i =? id)%nat) (Parallel.finishing s))
                      < length (Parallel.finishing s))%nat).
    { apply (filter_length_lt _ _ id Hfin). now rewrite Nat.eqb_refl. }
    assert (Hroom : Parallel.runningCount s - 1 < maxParallel) by lia.
    destruct (Parallel.step maxParallel (Parallel.Finally id) s) as [s'|] eqn:Hstep.
    2:{ cbn [Parallel.step] in Hstep. apply finishing_elem in Hfin.
        rewrite Hfin in Hstep. discriminate. }
    pose proof (step_invariant maxParallel _ _ _ Hinv Hstep) as Hinv'.
    exists s'. split; [reflexivity|].
    cbn [Parallel.step] in Hstep. apply finishing_elem in Hfin. rewrite Hfin in Hstep.
    injection Hstep as Hstep.
    match type of Hstep with
    | context [Parallel.processQueue _ ?d] => set (decremented := d) in *
    end.
    destruct (processQueue_cases maxParallel decremented)
      as [[_ [Hempty | Hfullq]] | [(entry' & rest' & r' & _ & _ & Hsome & _)
                                  | (entry' & rest' & Hqueue' & _ & _ & Hdone)]].
    + cbn [decremented Parallel.queue] in Hempty. congruence.
    + cbn [decremented Parallel.runningCount] in Hfullq. lia.
    + cbn [decremented Parallel.pcore] in Hsome. congruence.
    + cbn [decremented Parallel.queue] in Hqueue'. rewrite Hqueue in Hqueue'.
      injection Hqueue' as <- <-. rewrite Hdone in Hstep. cbn [fst] in Hstep. subst s'.
      assert (Hlost : Parallel.lost (Parallel.i_id entry)
                {| Parallel.pcore := Parallel.pcore decremented;
                   Parallel.queue := rest;
                   Parallel.runningCount := Parallel.runningCount decremented + 1;
                   Parallel.promises := Parallel.promises decremented;
                   Parallel.inflight := Parallel.inflight decremented;
                   Parallel.finishing := Parallel.finishing decremented;
                   Parallel.admitted := Parallel.admitted decremented
                                        ++ [Parallel.i_id entry] |}).
      { assert (entry ∈ Parallel.queue s) as Hin
          by (rewrite Hqueue; apply elem_of_cons; now left).
        split; cbn [decremented Parallel.promises Parallel.admitted].
        - now apply Hq.
        - apply elem_of_app. right. now apply list_elem_of_singleton.
        - match goal with |- ?x = false => destruct x eqn:Hnow end; [|reflexivity].
          apply flying_elem in Hnow as (f & Hf & Hid).
          cbn [decremented Parallel.inflight] in Hf.
          destruct (Hfly f Hf) as [Hadm _].
          destruct (fifo_disjoint s (Parallel.f_id f) entry Hfifo Hadm Hin). now rewrite Hid. }
      cbn [decremented Parallel.queue Parallel.runningCount Parallel.inflight].
      split; [reflexivity|]. split; [lia|]. split; [reflexivity|]. split.
      { unfold Parallel.surplus.
        cbn [decremented Parallel.runningCount Parallel.inflight Parallel.finishing]. lia. }
      split; [exact Hlost|].
      intros later s'' Hlater.
      now destruct (lost_run maxParallel _ later _ s'' Hinv' Hlost Hlater).
  - intros e s s'. apply step_surplus.
  - intros c events s Hrun Hsur later s' Hlater.
    pose proof (run_invariant maxParallel events _ _ (initial_invariant maxParallel c) Hrun)
      as Hinv.
    pose proof (surplus_stuck maxParallel s Hinv Hsur) as Hstuck.
    destruct (stuck_run maxParallel _ later s s' Hstuck Hlater) as [[_ Hfl' _ Hwait] Hrc'].
    split; [assumption|]. split; [assumption | exact Hwait].
  - intros c configs Hnone Hcap.
    destruct (calls_without_adapter maxParallel configs (Parallel.initial c))
      as (s & Hrun & Hc & Hq & Hrc & Hfl & Hfin & Hps);
      [exact Hnone | reflexivity | cbn; lia |].
    cbn in Hrc, Hfl, Hfin, Hps. exists s. repeat (split; [auto; lia|]).
    intros events s' Hrun'.
    assert (Parallel.stuck maxParallel (length configs) s) as Hstuck.
    { split; [lia | assumption | assumption |].
      intros id Hid. rewrite Hps, length_replicate in Hid. lia. }
    destruct (stuck_run maxParallel _ events s s' Hstuck Hrun') as [[_ Hfl' _ Hwait] Hrc'].
    split; [lia|]. split; [assumption | exact Hwait].
Qed.

Lemma parallel_not_injected_leak_witness :
  let c := {| requestorInstance := Some (Sample.echo "fetch");
              globalConfig := initialGlobalConfig |} in
  let events := [Parallel.Call (Sample.request "get" "/a");
                 Parallel.Call (Sample.request "get" "/b");
                 Parallel.Other (Inject None);
                 Parallel.Settle 0 (Resolved (Js.Str "a"))] in
  exists s s',
    Parallel.run 1 events (Parallel.initial c) = Some s /\
    Parallel.step 1 (Parallel.Finally 0) s = Some s' /\
    Parallel.queue s' = [] /\
    Parallel.runningCount s' = Parallel.runningCount s /\
    Parallel.lost 1 s' /\
    forall later s'',
      Parallel.run 1 later s' = Some s'' ->
      Parallel.promises s'' !! 1%nat = Some Parallel.Pending.
Proof.
  intros c events.
  destruct (Parallel.run 1 events (Parallel.initial c)) as [s|] eqn:Hrun;
    [|vm_compute in Hrun; discriminate Hrun].
  assert (Hnone : requestorInstance (Parallel.pcore s) = None)
    by (vm_compute in Hrun; injection Hrun as <-; reflexivity).
  assert (Hfin : 0%nat ∈ Parallel.finishing s)
    by (vm_compute in Hrun; injection Hrun as <-; apply elem_of_cons; now left).
  assert (Hqueue : Parallel.queue s
                   = [{| Parallel.i_config := Sample.request "get" "/b";
                         Parallel.i_id := 1 |}])
    by (vm_compute in Hrun; injection Hrun as <-; reflexivity).
  destruct (proj1 (proj2 (parallel_not_injected_leak 1)) c events s 0%nat _ _
              Hrun Hnone Hfin Hqueue)
    as (s' & Hstep & Hq & Hrc & _ & _ & Hlost & Hever).
  exists s, s'. split; [reflexivity|]. split; [exact Hstep|]. split; [exact Hq|].
  split; [exact Hrc|]. split; [exact Hlost | exact Hever].
Defined.

(** Two calls before anything is injected use up a capacity of two; an adapter
    injected afterwards does not help the third call. *)
Example parallel_leak_run :
  (fun s => (Parallel.runningCount s, Parallel.promises s,
             Parallel.i_id <$> Parallel.queue s, Parallel.f_id <$> Parallel.inflight s))
    <$> Parallel.run 2
          [Parallel.Call (Sample.request "get" "/a");
           Parallel.Call (Sample.request "get" "/b");
           Parallel.Other (Inject (Some (Sample.echo "fetch")));
           Parallel.Call (Sample.request "get" "/c")]
          (Parallel.initial initialCore)
  = Some (2, [Parallel.Settled (Rejected NotInjected);
              Parallel.Settled (Rejected NotInjected); Parallel.Pending],
          [2%nat], []).
Proof. vm_compute. reflexivity. Qed.

(** * Further properties of the code *)

(** ** The configuration merge *)

(** X1: after the merge, a header that the request carries has the request's
    value; a header that only the global configuration carries has the global
    value; no other header appears. *)
Theorem merged_headers_precedence (G : GlobalConfig) (config : RequestConfig)
    (name : string) :
  (headers (applyGlobalConfig G config) ≫= lookup name)
  = match headers config ≫= lookup name with
    | Some own => Some own
    | None => gheaders G ≫= lookup name
    end.
Proof.
  assert (forall c, headers c = headers config ->
            (headers (match gheaders G with
                      | Some gh => set_headers (Some (spread_headers gh (headers c))) c
                      | None => c
                      end) ≫= lookup name)
            = match headers config ≫= lookup name with
              | Some own => Some own
              | None => gheaders G ≫= lookup name
              end) as Hmerge.
  { intros c Hc. destruct (gheaders G) as [gh|]; cbn.
    - rewrite Hc. unfold spread_headers. rewrite lookup_union.
      destruct (headers config) as [h|]; cbn.
      + destruct (h !! name), (gh !! name); reflexivity.
      + rewrite lookup_empty. destruct (gh !! name); reflexivity.
    - rewrite Hc. destruct (headers config ≫= lookup name); reflexivity. }
  unfold applyGlobalConfig.
  destruct (Js.truthy_str (baseURL G) && Js.truthy_str (url config));
    match goal with
    | |- context [if ?b then _ else _] => destruct b
    end; cbn [headers set_timeout]; apply Hmerge; reflexivity.
Qed.

(** X2: a non-zero timeout of the request is kept; a request without timeout,
    or with timeout 0, gets a non-zero global timeout; without a non-zero
    global timeout the request's timeout stays as it is. *)
Theorem merged_timeout (G : GlobalConfig) (config : RequestConfig) :
  (forall t, timeout config = Some t -> t <> 0 ->
     timeout (applyGlobalConfig G config) = Some t) /\
  (forall g, gtimeout G = Some g -> g <> 0 ->
     timeout config = None \/ timeout config = Some 0 ->
     timeout (applyGlobalConfig G config) = Some g) /\
  (gtimeout G = None \/ gtimeout G = Some 0 ->
     timeout (applyGlobalConfig G config) = timeout config).
Proof.
  assert (forall c, timeout c = timeout config ->
            timeout (if Js.truthy_num (gtimeout G) && negb (Js.truthy_num (timeout c))
                     then set_timeout (gtimeout G) c else c)
            = if Js.truthy_num (gtimeout G) && negb (Js.truthy_num (timeout config))
              then gtimeout G else timeout config) as Hfill.
  { intros c Hc. rewrite Hc. destruct (_ && _); [reflexivity | exact Hc]. }
  assert (timeout (applyGlobalConfig G config)
          = if Js.truthy_num (gtimeout G) && negb (Js.truthy_num (timeout config))
            then gtimeout G else timeout config) as ->.
  { unfold applyGlobalConfig.
    destruct (Js.truthy_str (baseURL G) && Js.truthy_str (url config));
      destruct (gheaders G); apply Hfill; reflexivity. }
  split; [|split].
  - intros t Ht Hne. rewrite Ht. cbn. apply Z.eqb_neq in Hne. rewrite Hne. cbn.
    now rewrite andb_false_r.
  - intros g Hg Hne Hown. rewrite Hg. cbn. apply Z.eqb_neq in Hne. rewrite Hne.
    destruct Hown as [-> | ->]; reflexivity.
  - intros [-> | ->]; reflexivity.
Qed.

Lemma merged_timeout_witness :
  timeout (applyGlobalConfig
             {| baseURL := None; gheaders := None; gtimeout := Some 5000 |}
             (set_timeout (Some 0) (Sample.request "get" "/users")))
  = Some 5000.
Proof.
  apply (proj1 (proj2 (merged_timeout _ _)) 5000);
    [reflexivity | discriminate | right; reflexivity].
Defined.

(** X3: storing the same partial configuration twice gives what storing it
    once gives. *)
Theorem setGlobalConfig_idempotent (P : PartialConfig) (G : GlobalConfig) :
  setGlobalConfig P (setGlobalConfig P G) = setGlobalConfig P G.
Proof.
  unfold setGlobalConfig; cbn.
  destruct (p_baseURL P), (p_headers P), (p_timeout P); reflexivity.
Qed.

Lemma applyGlobalConfig_keeps_method (G : GlobalConfig) (c : RequestConfig) :
  method (applyGlobalConfig G c) = method c /\
  params (applyGlobalConfig G c) = params c /\
  data (applyGlobalConfig G c) = data c.
Proof.
  unfold applyGlobalConfig.
  destruct (Js.truthy_str (baseURL G) && Js.truthy_str (url c)); destruct (gheaders G);
    match goal with
    | |- context [if ?b then _ else _] => destruct b
    end; auto.
Qed.

(** X4: merging the global configuration into an object that already went
    through the merge changes its url at most: method, params and data are
    never written, and headers and timeout come out as they went in. *)
Theorem repeated_merge_changes_url_only (G : GlobalConfig) (config : RequestConfig) :
  let once := applyGlobalConfig G config in
  let twice := applyGlobalConfig G once in
  method once = method config /\ params once = params config /\
  data once = data config /\
  twice = set_url (url twice) once.
Proof.
  pose proof (applyGlobalConfig_keeps_method G) as Hkeep.
  intros once twice. destruct (Hkeep config) as (Hm & Hp & Hd).
  split; [exact Hm|]. split; [exact Hp|]. split; [exact Hd|].
  destruct (Hkeep once) as (Hm2 & Hp2 & Hd2). fold twice in Hm2, Hp2, Hd2.
  assert (headers twice = headers once) as Hh.
  { assert (forall name, (headers twice ≫= lookup name) = (headers once ≫= lookup name))
      as Hlook.
    { intros name. unfold twice. rewrite (merged_headers_precedence G once name).
      destruct (headers once ≫= lookup name) eqn:E; [reflexivity|].
      pose proof (merged_headers_precedence G config name) as Hfirst.
      fold once in Hfirst. rewrite E in Hfirst.
      destruct (headers config ≫= lookup name); [discriminate | exact (eq_sym Hfirst)]. }
    assert (is_Some (headers twice) <-> is_Some (headers once)) as Hsome.
    { unfold twice, once, applyGlobalConfig.
      destruct (gheaders G);
        repeat match goal with
               | |- context [if ?b then _ else _] => destruct b
               end; cbn; split; eauto. }
    destruct (headers twice) as [h2|], (headers once) as [h1|].
    - f_equal. apply map_eq. intros k. exact (Hlook k).
    - destruct Hsome as [Hs _]. destruct Hs as [? ?]; [eauto | discriminate].
    - destruct Hsome as [_ Hs]. destruct Hs as [? ?]; [eauto | discriminate].
    - reflexivity. }
  assert (timeout twice = timeout once) as Ht.
  { destruct (merged_timeout G config) as (K1 & K2 & K3).
    destruct (merged_timeout G once) as (L1 & L2 & L3). fold once in K1, K2, K3.
    fold twice in L1, L2, L3.
    destruct (gtimeout G) as [g|] eqn:Hg; [|apply L3; auto].
    destruct (Z.eq_dec g 0) as [-> | Hne]; [apply L3; auto|].
    assert (timeout once <> None /\ timeout once <> Some 0) as [N1 N2].
    { destruct (timeout config) as [t|] eqn:Hc.
      - destruct (Z.eq_dec t 0) as [-> | Ht0].
        + rewrite (K2 g eq_refl Hne (or_intror eq_refl)). split; congruence.
        + rewrite (K1 t eq_refl Ht0). split; congruence.
      - rewrite (K2 g eq_refl Hne (or_introl eq_refl)). split; congruence. }
    destruct (timeout once) as [t|] eqn:Ho; [|congruence].
    apply L1; congruence. }
  destruct twice as [m2 u2 h2 p2 d2 t2], once as [m1 u1 h1 p1 d1 t1].
  cbn in *. unfold set_url. cbn. congruence.
Qed.

(** ** The entry point *)

Lemma memory_store_starts_empty (key : string) :
  Cache.store_has key Cache.createMemoryStore = false.
Proof. unfold Cache.createMemoryStore. cbn. now rewrite lookup_empty. Qed.

(** X5: after [initRequest] no adapter is injected, whatever was injected
    before and whatever options were passed: [useRequestor] throws, a call
    through the retry decorator rejects with the not-injected error for every
    [maxCount], and so do [getArticles] and [publishArticle]; none of them
    dispatches. *)
Theorem initRequest_leaves_no_adapter (P : PartialConfig) (c : Core) (w : World) :
  core w = Init.initRequest P c ->
  useRequestor (core w) = inl NotInjected /\
  (forall maxCount env config,
     Retry.makeRequest maxCount env config w = Some (Rejected NotInjected, config, w)) /\
  (forall page size, Article.getArticles page size w = (Rejected NotInjected, w)) /\
  (forall article, Article.publishArticle article w = (Rejected NotInjected, w)).
Proof.
  intros Hcore.
  assert (requestorInstance (core w) = None) as Hnone by (rewrite Hcore; reflexivity).
  assert (useRequestor (core w) = inl NotInjected) as Huse
    by (unfold useRequestor; now rewrite Hnone).
  split; [exact Huse|]. split; [|split].
  - intros maxCount env config. unfold Retry.makeRequest. now rewrite Huse.
  - intros page size. unfold Article.getArticles, Cache.makeRequest. cbn zeta.
    rewrite memory_store_starts_empty, Huse. reflexivity.
  - intros article. unfold Article.publishArticle, Cache.makeRequest. cbn zeta.
    rewrite memory_store_starts_empty, Huse. reflexivity.
Qed.

Lemma initRequest_leaves_no_adapter_witness :
  let before := {| requestorInstance := Some (Fixture.server "fetch" (Js.Str "ok"));
                   globalConfig := initialGlobalConfig |} in
  let P := {| p_baseURL := present (Some "https://api.example.com");
              p_headers := absent; p_timeout := absent |} in
  let w := {| core := Init.initRequest P before; clock := 0; trace := [] |} in
  Article.getArticles (Js.Num 1) (Js.Num 10) w = (Rejected NotInjected, w).
Proof.
  intros before P w.
  apply (proj1 (proj2 (proj2 (initRequest_leaves_no_adapter P before w eq_refl)))).
Defined.

(** X6: the global configuration after [initRequest] is made of the options
    passed and of nothing else: an option that is left out is stored as
    [undefined], whatever was stored before.  So after an [initRequest]
    without [baseURL] no url is prefixed, and after one without [headers] the
    headers of a request are left as they are. *)
Theorem initRequest_overwrites_configuration (P : PartialConfig) (c : Core) :
  (forall c', globalConfig (Init.initRequest P c') = globalConfig (Init.initRequest P c)) /\
  (p_baseURL P = absent ->
     baseURL (globalConfig (Init.initRequest P c)) = None /\
     forall config,
       url (applyGlobalConfig (globalConfig (Init.initRequest P c)) config) = url config) /\
  (p_headers P = absent ->
     gheaders (globalConfig (Init.initRequest P c)) = None /\
     forall config,
       headers (applyGlobalConfig (globalConfig (Init.initRequest P c)) config)
       = headers config) /\
  (p_timeout P = absent ->
     gtimeout (globalConfig (Init.initRequest P c)) = None /\
     forall config,
       timeout (applyGlobalConfig (globalConfig (Init.initRequest P c)) config)
       = timeout config).
Proof.
  split; [reflexivity|]. unfold Init.initRequest, applyGlobalConfig. cbn.
  split; [|split]; intros ->; cbn; (split; [reflexivity|]); intros config.
  - destruct (Init.destructured (p_headers P));
      match goal with |- context [if ?b then _ else _] => destruct b end; reflexivity.
  - destruct (_ && _);
      match goal with |- context [if ?b then _ else _] => destruct b end; reflexivity.
  - destruct (_ && _); destruct (Init.destructured (p_headers P)); reflexivity.
Qed.

Lemma initRequest_overwrites_configuration_witness :
  let first := {| p_baseURL := present (Some "https://api.example.com");
                  p_headers := absent; p_timeout := absent |} in
  let second := {| p_baseURL := absent;
                   p_headers := present (Some {[ "Authorization" := "Bearer t" ]});
                   p_timeout := absent |} in
  let c := Init.initRequest second (Init.initRequest first initialCore) in
  baseURL (globalConfig (setGlobal second (Init.initRequest first initialCore)))
  = Some "https://api.example.com" /\
  baseURL (globalConfig c) = None /\
  url (applyGlobalConfig (globalConfig c) (Sample.request "get" "/users")) = Some "/users".
Proof.
  intros first second c. split; [reflexivity|].
  destruct (proj1 (proj2 (initRequest_overwrites_configuration second
                            (Init.initRequest first initialCore))) eq_refl) as [Hb Hu].
  split; [exact Hb | apply Hu].
Defined.

(** ** More on the retry decorator *)

Lemma loop_dispatch_bound (maxCount : Z) (env : Z -> list action) (fuel : nat) :
  forall count config w result config' w',
    Retry.loop fuel maxCount env count config w = Some (result, config', w') ->
    exists t, trace w' = trace w ++ t /\
      (length (dispatches t) <= Z.to_nat (maxCount - count))%nat /\
      (length (Retry.waits t) <= Z.to_nat (maxCount - count) - 1)%nat.
Proof.
  induction fuel as [|fuel IH]; intros count config w result config' w' Hrun;
    [discriminate|].
  rewrite loop_S in Hrun. destruct (Z.ltb_spec count maxCount).
  2:{ injection Hrun as <- <- <-. exists []. rewrite app_nil_r. cbn. split; [reflexivity | lia]. }
  assert (exists t0, trace (proxiedRequest config w).2 = trace w ++ t0 /\
            (length (dispatches t0) <= 1)%nat /\ Retry.waits t0 = []) as (t0 & Ht0 & Hd0 & Hw0).
  { unfold proxiedRequest. destruct (requestorInstance (core w)); cbn.
    - eexists. split; [reflexivity|]. cbn. auto.
    - exists []. rewrite app_nil_r. cbn. auto. }
  destruct (proxiedRequest config w) as [[[v|e] c1] w1]; cbn in Ht0.
  { injection Hrun as <- <- <-. exists t0. rewrite Hw0. cbn. split; [exact Ht0 | lia]. }
  rewrite Z.geb_leb in Hrun. destruct (Z.leb_spec maxCount (count + 1)).
  { injection Hrun as <- <- <-. exists t0. rewrite Hw0. cbn. split; [exact Ht0 | lia]. }
  apply IH in Hrun as (t & Ht & Hd & Hw). cbn [others wait trace] in Ht.
  exists (t0 ++ [Wait (1000 * (count + 1))] ++ t).
  split; [rewrite Ht, Ht0, <- !app_assoc; reflexivity|].
  rewrite !dispatches_app, !waits_app, !length_app, Hw0. cbn. lia.
Qed.

(** X7: whatever the adapter answers and whatever other code does meanwhile, a
    call through the retry decorator settles after at most [maxCount]
    dispatches and at most [maxCount - 1] waits. *)
Theorem retry_never_exceeds_maxCount (maxCount : Z) (env : Z -> list action)
    (config : RequestConfig) (w : World) :
  exists result config' w' t,
    Retry.makeRequest maxCount env config w = Some (result, config', w') /\
    trace w' = trace w ++ t /\
    (length (dispatches t) <= Z.to_nat maxCount)%nat /\
    (length (Retry.waits t) <= Z.to_nat maxCount - 1)%nat.
Proof.
  destruct (makeRequest_total maxCount env config w) as [[[result config'] w'] Hrun].
  exists result, config', w'.
  enough (exists t, trace w' = trace w ++ t /\
            (length (dispatches t) <= Z.to_nat maxCount)%nat /\
            (length (Retry.waits t) <= Z.to_nat maxCount - 1)%nat)
    as (t & H1 & H2 & H3) by (exists t; auto).
  unfold Retry.makeRequest in Hrun. destruct (useRequestor (core w)).
  - injection Hrun as <- <- <-. exists []. rewrite app_nil_r. cbn. split; [reflexivity | lia].
  - apply loop_dispatch_bound in Hrun as (t & Ht & Hd & Hw). exists t.
    rewrite Z.sub_0_r in Hd, Hw. auto.
Qed.

(** X8: a call stops at the first attempt that resolves: when the adapter
    rejects [j] attempts and resolves the next one, with [j < maxCount], the
    call resolves with that value after [j + 1] dispatches, the last of them
    not followed by a wait; in particular a call whose first attempt resolves
    dispatches once and never waits. *)
Theorem retry_stops_at_first_success (maxCount : Z) (r : Requestor) (G : GlobalConfig)
    (config : RequestConfig) (w : World) (j : nat) (v : Js.value) :
  Z.of_nat j < maxCount ->
  core w = {| requestorInstance := Some r; globalConfig := G |} ->
  (forall i c, (i < j)%nat ->
     exists e, outcome (rrequest r (length (dispatches (trace w)) + i) c) = Rejected e) ->
  (forall c, outcome (rrequest r (length (dispatches (trace w)) + j) c) = Resolved v) ->
  exists w',
    Retry.makeRequest maxCount Retry.quiet config w
    = Some (Resolved v, Nat.iter (S j) (applyGlobalConfig G) config, w') /\
    trace w' = trace w ++ Retry.schedule (rname r) G config (S j) /\
    length (dispatches (Retry.schedule (rname r) G config (S j))) = S j /\
    Retry.waits (Retry.schedule (rname r) G config (S j))
    = (fun k => 1000 * Z.of_nat k) <$> seq 1 j.
Proof.
  intros Hj Hcore Hfail Hok.
  unfold Retry.makeRequest, useRequestor. rewrite Hcore. cbn [requestorInstance].
  assert (exists fuel, S (Z.to_nat maxCount) = (j + S fuel)%nat) as [fuel ->]
    by (exists (Z.to_nat maxCount - j)%nat; lia).
  destruct (loop_skip_failures maxCount r G j (S fuel) 0 config w Hcore ltac:(lia) Hfail)
    as (w1 & Hrun & Hc & Ht).
  rewrite Hrun, loop_S. destruct (Z.ltb_spec (0 + Z.of_nat j) maxCount); [|lia].
  rewrite Hcore in Hc.
  assert (Hr : requestorInstance (core w1) = Some r) by now rewrite Hc.
  rewrite (proxiedRequest_injected _ _ _ Hr). cbn zeta.
  replace (globalConfig (core w1)) with G by now rewrite Hc.
  rewrite Ht, dispatches_app, length_app, dispatches_failedAttempts, Hok.
  eexists. split; [reflexivity|]. cbn [trace]. unfold Retry.schedule.
  replace (S j - 1)%nat with j by lia.
  split; [now rewrite <- app_assoc|]. split.
  - rewrite dispatches_app, length_app, dispatches_failedAttempts. cbn. lia.
  - rewrite waits_app, (waits_failedAttempts _ _ _ _ 0%nat). cbn. now rewrite app_nil_r.
Qed.

Lemma retry_stops_at_first_success_witness :
  let r := Sample.flaky "fetch" 1 (Js.Str "ok") in
  let w := Sample.world (Some r) Sample.api in
  let config := Sample.request "get" "/users" in
  exists w',
    Retry.makeRequest 5 Retry.quiet config w
    = Some (Resolved (Js.Str "ok"), Nat.iter 2 (applyGlobalConfig Sample.api) config, w') /\
    trace w' = trace w ++ Retry.schedule "fetch" Sample.api config 2 /\
    length (dispatches (Retry.schedule "fetch" Sample.api config 2)) = 2%nat /\
    Retry.waits (Retry.schedule "fetch" Sample.api config 2) = [1000].
Proof.
  assert (Hfive : Z.of_nat 1 < 5) by lia.
  intros r w config.
  apply (retry_stops_at_first_success 5 r Sample.api config w 1 (Js.Str "ok") Hfive eq_refl).
  - intros i c Hi. exists (Failure (Js.Num (Z.of_nat i))).
    destruct i as [|i]; [reflexivity|]. exfalso. revert Hi. clear. intros Hi.
    apply Nat.succ_lt_mono in Hi. inversion Hi.
  - intros c. reflexivity.
Defined.

Lemma sum_of_waits (m : nat) :
  foldr Z.add 0 ((fun k => 1000 * Z.of_nat k) <$> seq 1 m)
  = 500 * Z.of_nat m * (Z.of_nat m + 1).
Proof.
  induction m as [|m IH]; [reflexivity|].
  rewrite seq_S, fmap_app, foldr_app. cbn [fmap list_fmap foldr Nat.add].
  assert (forall (l : list Z) (a : Z), foldr Z.add a l = foldr Z.add 0 l + a) as Hshift.
  { induction l as [|x l IHl]; intros a; cbn; [lia | rewrite IHl; lia]. }
  rewrite Hshift, IH. lia.
Qed.

(** X9: a call that uses up its attempts has waited 1000 + 2000 + ... ms, that
    is 500 * maxAttempts * (maxAttempts - 1) ms in all, before it rejects (ten
    seconds for the default of five attempts). *)
Theorem retry_total_backoff (maxAttempts : Z) (r : Requestor) (G : GlobalConfig)
    (config : RequestConfig) (w : World) :
  1 <= maxAttempts ->
  core w = {| requestorInstance := Some r; globalConfig := G |} ->
  (forall i c, exists e,
     outcome (rrequest r (length (dispatches (trace w)) + i) c) = Rejected e) ->
  exists e config' w',
    Retry.makeRequest maxAttempts Retry.quiet config w = Some (Rejected e, config', w') /\
    foldr Z.add 0 (Retry.waits (trace w'))
    = foldr Z.add 0 (Retry.waits (trace w)) + 500 * maxAttempts * (maxAttempts - 1).
Proof.
  intros Hmax Hcore Hfail.
  destruct (makeRequest_after_failures maxAttempts r G config w Hmax Hcore)
    as (w' & Hrun & Ht); [intros i c _; apply Hfail|].
  destruct (Hfail (Z.to_nat maxAttempts - 1)%nat
              (Nat.iter (Z.to_nat maxAttempts) (applyGlobalConfig G) config)) as [e He].
  rewrite He in Hrun. eexists e, _, w'. split; [exact Hrun|].
  rewrite Ht, waits_app, foldr_app. unfold Retry.schedule.
  rewrite waits_app, (waits_failedAttempts _ _ _ _ 0%nat). cbn [Retry.waits omap].
  rewrite app_nil_r.
  assert (forall (l : list Z) (a : Z), foldr Z.add a l = foldr Z.add 0 l + a) as Hshift.
  { induction l as [|x l IHl]; intros a; cbn; [lia | rewrite IHl; lia]. }
  rewrite Hshift, sum_of_waits.
  replace (Z.of_nat (Z.to_nat maxAttempts - 1)) with (maxAttempts - 1) by lia. ring.
Qed.

Lemma retry_total_backoff_witness :
  let w := Sample.world (Some (Sample.failing "fetch")) Sample.api in
  exists e config' w',
    Retry.makeRequest 5 Retry.quiet (Sample.request "get" "/users") w
    = Some (Rejected e, config', w') /\
    foldr Z.add 0 (Retry.waits (trace w'))
    = foldr Z.add 0 (Retry.waits (trace w)) + 500 * 5 * (5 - 1).
Proof.
  assert (Hfive : 1 <= 5) by lia.
  intros w.
  apply (retry_total_backoff 5 (Sample.failing "fetch") Sample.api
           (Sample.request "get" "/users") w Hfive eq_refl).
  intros i c. eexists. reflexivity.
Defined.

(** ** More on the bounded-concurrency decorator *)

(** X11: an instance with capacity zero or less never dispatches: after any
    sequence of events nothing is under way, the count is zero, no call has
    left the queue and every promise handed out is still pending. *)
Theorem parallel_without_capacity (maxParallelCount : Z) (c : Core)
    (events : list Parallel.event) (s : Parallel.state) :
  maxParallelCount <= 0 ->
  Parallel.run maxParallelCount events (Parallel.initial c) = Some s ->
  Parallel.inflight s = [] /\ Parallel.finishing s = [] /\
  Parallel.runningCount s = 0 /\ Parallel.admitted s = [] /\
  Forall (fun p => p = Parallel.Pending) (Parallel.promises s) /\
  length (Parallel.queue s) = length (Parallel.promises s).
Proof.
  intros Hcap.
  set (idle := fun s : Parallel.state =>
         Parallel.inflight s = [] /\ Parallel.finishing s = [] /\
         Parallel.runningCount s = 0 /\ Parallel.admitted s = [] /\
         Forall (fun p => p = Parallel.Pending) (Parallel.promises s) /\
         length (Parallel.queue s) = length (Parallel.promises s)).
  assert (forall e s s', idle s -> Parallel.step maxParallelCount e s = Some s' -> idle s')
    as Hstep.
  { intros e s0 s1 (Hfl & Hfin & Hrc & Hadm & Hps & Hlen) Hs.
    destruct e as [config | id o | id | a]; cbn [Parallel.step] in Hs.
    - unfold Parallel.processQueue in Hs.
      cbn [Parallel.queue Parallel.runningCount] in Hs. rewrite Hrc in Hs.
      destruct (Z.geb_spec 0 maxParallelCount); [|lia].
      rewrite orb_true_r in Hs. injection Hs as <-.
      unfold idle. cbn. rewrite !length_app. cbn.
      repeat split; auto. apply Forall_app. auto.
    - unfold Parallel.flying in Hs. rewrite Hfl in Hs. discriminate.
    - rewrite Hfin in Hs. discriminate.
    - injection Hs as <-. unfold idle. cbn. auto 10. }
  assert (forall evs s0 s1, idle s0 ->
            Parallel.run maxParallelCount evs s0 = Some s1 -> idle s1) as Hrun.
  { induction evs as [|e evs IH]; intros s0 s1 Hidle Hr; cbn in Hr.
    - injection Hr as <-. exact Hidle.
    - destruct (Parallel.step maxParallelCount e s0) as [s2|] eqn:Hs; [|discriminate].
      eapply IH; [|exact Hr]. eapply Hstep; eassumption. }
  intros Hr. apply (Hrun events (Parallel.initial c) s); [|exact Hr].
  unfold idle. cbn. auto 10.
Qed.

Lemma parallel_without_capacity_witness :
  let events := [Parallel.Other (Inject (Some (Sample.echo "fetch")));
                 Parallel.Call (Sample.request "get" "/a");
                 Parallel.Call (Sample.request "get" "/b")] in
  exists s,
    Parallel.run 0 events (Parallel.initial initialCore) = Some s /\
    Parallel.inflight s = [] /\ Parallel.finishing s = [] /\
    Parallel.runningCount s = 0 /\ Parallel.admitted s = [] /\
    Forall (fun p => p = Parallel.Pending) (Parallel.promises s) /\
    length (Parallel.queue s) = length (Parallel.promises s).
Proof.
  assert (Hzero : 0 <= 0) by lia.
  intros events.
  destruct (Parallel.run 0 events (Parallel.initial initialCore)) as [s|] eqn:Hrun;
    [|vm_compute in Hrun; discriminate Hrun].
  exists s. split; [reflexivity|].
  exact (parallel_without_capacity 0 initialCore events s Hzero Hrun).
Defined.

(** X12: nobody waits while there is room: whenever a call is in the queue of
    an instance with capacity [maxParallel >= 1], the count stands at
    [maxParallel]. *)
Theorem parallel_waits_only_when_full (maxParallel : Z) (c : Core)
    (events : list Parallel.event) (s : Parallel.state) :
  1 <= maxParallel ->
  Parallel.run maxParallel events (Parallel.initial c) = Some s ->
  Parallel.queue s <> [] ->
  Parallel.runningCount s = maxParallel.
Proof.
  intros Hmax Hrun Hne.
  pose proof (run_invariant maxParallel events _ _ (initial_invariant maxParallel c) Hrun)
    as [_ Hbound _ Hfull _ _].
  specialize (Hfull Hne). lia.
Qed.

Lemma parallel_waits_only_when_full_witness :
  let c := {| requestorInstance := Some (Sample.echo "fetch"); globalConfig := Sample.api |} in
  let events := [Parallel.Call (Sample.request "get" "/a");
                 Parallel.Call (Sample.request "get" "/b");
                 Parallel.Call (Sample.request "get" "/c")] in
  exists s,
    Parallel.run 2 events (Parallel.initial c) = Some s /\
    Parallel.queue s <> [] /\ Parallel.runningCount s = 2.
Proof.
  assert (Hcap : 1 <= 2) by lia.
  intros c events.
  destruct (Parallel.run 2 events (Parallel.initial c)) as [s|] eqn:Hrun;
    [|vm_compute in Hrun; discriminate Hrun].
  exists s. split; [reflexivity|].
  assert (Parallel.queue s <> []) as Hne.
  { vm_compute in Hrun. injection Hrun as <-. discriminate. }
  split; [exact Hne|].
  exact (parallel_waits_only_when_full 2 c events s Hcap Hrun Hne).
Defined.

(** X13: a settlement reaches the promise of its own call and no other: when
    the adapter settles the dispatch of call [id] with outcome [o], the
    promise of [id] takes [o], every other promise stays as it is, and queue
    and count are untouched until the [finally] callback runs. *)
Theorem parallel_settlement_is_own (maxParallel : Z) (c : Core)
    (events : list Parallel.event) (s : Parallel.state) (id : nat) (o : settled) :
  Parallel.run maxParallel events (Parallel.initial c) = Some s ->
  Parallel.flying id s = true ->
  exists s1,
    Parallel.step maxParallel (Parallel.Settle id o) s = Some s1 /\
    Parallel.promises s1 !! id = Some (Parallel.Settled o) /\
    (forall j, j <> id -> Parallel.promises s1 !! j = Parallel.promises s !! j) /\
    Parallel.queue s1 = Parallel.queue s /\
    Parallel.runningCount s1 = Parallel.runningCount s /\
    Parallel.flying id s1 = false.
Proof.
  intros Hrun Hflying.
  pose proof (run_invariant maxParallel events _ _ (initial_invariant maxParallel c) Hrun)
    as [_ _ _ _ Hfly _].
  pose proof Hflying as Hf. apply flying_elem in Hf as (f0 & Hin0 & Hid0).
  destruct (Hfly f0 Hin0) as [_ Hpending]. rewrite Hid0 in Hpending.
  cbn [Parallel.step]. rewrite Hflying. eexists. split; [reflexivity|].
  cbn [Parallel.promises Parallel.queue Parallel.runningCount].
  split; [now apply settle_lookup_pending|].
  split; [intros j Hj; apply settle_lookup_ne; congruence|].
  split; [reflexivity|]. split; [reflexivity|].
  match goal with |- ?x = false => destruct x eqn:E end; [|reflexivity].
  apply flying_elem in E as (f & Hin & Hid). cbn [Parallel.inflight] in Hin.
  apply elem_of_filter_bool in Hin as [_ Hne]. rewrite Hid, Nat.eqb_refl in Hne. discriminate.
Qed.

Lemma parallel_settlement_is_own_witness :
  let c := {| requestorInstance := Some (Sample.echo "fetch"); globalConfig := Sample.api |} in
  let events := [Parallel.Call (Sample.request "get" "/a");
                 Parallel.Call (Sample.request "get" "/b")] in
  exists s s1,
    Parallel.run 2 events (Parallel.initial c) = Some s /\
    Parallel.step 2 (Parallel.Settle 1 (Resolved (Js.Str "b"))) s = Some s1 /\
    Parallel.promises s1 !! 1%nat = Some (Parallel.Settled (Resolved (Js.Str "b"))) /\
    Parallel.promises s1 !! 0%nat = Parallel.promises s !! 0%nat.
Proof.
  intros c events.
  destruct (Parallel.run 2 events (Parallel.initial c)) as [s|] eqn:Hrun;
    [|vm_compute in Hrun; discriminate Hrun].
  assert (Parallel.flying 1 s = true) as Hfly.
  { vm_compute in Hrun. injection Hrun as <-. reflexivity. }
  destruct (parallel_settlement_is_own 2 c events s 1 (Resolved (Js.Str "b")) Hrun Hfly)
    as (s1 & Hstep & Hown & Hothers & _).
  exists s, s1. split; [reflexivity|]. split; [exact Hstep|]. split; [exact Hown|].
  apply Hothers. discriminate.
Defined.

Lemma filter_ne_id (x : nat) (l : list nat) :
  x ∉ l -> List.filter (fun i => negb (i =? x)%nat) l = l.
Proof.
  induction l as [|y l IH]; intros Hnot; [reflexivity|]. cbn.
  apply not_elem_of_cons in Hnot as [Hne Hnot].
  destruct (Nat.eqb_spec y x); [congruence|]. cbn. now rewrite IH.
Qed.

Lemma filter_ne_perm (x : nat) (l : list nat) :
  NoDup l -> x ∈ l -> l ≡ₚ x :: List.filter (fun i => negb (i =? x)%nat) l.
Proof.
  induction l as [|y l IH]; intros Hnd Hin; [inversion Hin|].
  apply NoDup_cons in Hnd as [Hy Hnd]. cbn.
  destruct (Nat.eqb_spec y x) as [-> | Hne]; cbn.
  - now rewrite filter_ne_id.
  - apply elem_of_cons in Hin as [-> | Hin]; [congruence|].
    rewrite (IH Hnd Hin) at 1. apply perm_swap.
Qed.

Lemma fmap_filter_flights (id : nat) (l : list Parallel.flight) :
  Parallel.f_id <$> List.filter (fun f => negb (Parallel.f_id f =? id)%nat) l
  = List.filter (fun i => negb (i =? id)%nat) (Parallel.f_id <$> l).
Proof.
  induction l as [|f l IH]; [reflexivity|]. cbn.
  destruct (negb (Parallel.f_id f =? id)%nat); cbn; now rewrite IH.
Qed.

Lemma tight_setPromises (ps : list Parallel.promise) (s : Parallel.state) :
  Slots.tight s -> Slots.tight (Parallel.setPromises ps s).
Proof. intros [H1 H2 H3 H4]. split; assumption. Qed.

Lemma processQueue_tight (maxParallelCount : Z) (s : Parallel.state) :
  Slots.tight s ->
  (forall entry, entry ∈ Parallel.queue s -> Parallel.i_id entry ∉ Parallel.admitted s) ->
  Slots.tight (Parallel.processQueue maxParallelCount s).1.
Proof.
  intros [Hadapter Hcount Hnd Hadm] Hfresh.
  destruct (processQueue_cases maxParallelCount s)
    as [[-> _] | [(entry & rest & r & Hqueue & _ & Hr & ->)
                 | (entry & rest & _ & _ & Hnone & _)]]; cbn [fst].
  - split; assumption.
  - assert (Parallel.i_id entry ∉ (Parallel.f_id <$> Parallel.inflight s)
                                  ++ Parallel.finishing s) as Hnew.
    { intros Hin. apply (Hfresh entry); [|now apply Hadm].
      rewrite Hqueue. apply elem_of_cons. now left. }
    assert (((Parallel.f_id <$> Parallel.inflight s ++
               [{| Parallel.f_id := Parallel.i_id entry;
                   Parallel.f_adapter := Some (rname r);
                   Parallel.f_config :=
                     applyGlobalConfig (globalConfig (Parallel.pcore s))
                       (Parallel.i_config entry) |}])
             ++ Parallel.finishing s)
            ≡ₚ Parallel.i_id entry ::
               (Parallel.f_id <$> Parallel.inflight s) ++ Parallel.finishing s) as Hperm.
    { rewrite fmap_app. cbn [fmap list_fmap Parallel.f_id].
      rewrite <- app_assoc. cbn [app].
      now rewrite <- Permutation_middle. }
    split; cbn [Parallel.pcore Parallel.runningCount Parallel.inflight
                Parallel.finishing Parallel.admitted].
    + exact Hadapter.
    + rewrite length_app. cbn [length]. lia.
    + rewrite Hperm. apply NoDup_cons. split; assumption.
    + intros id Hin. rewrite Hperm in Hin. apply elem_of_app.
      apply elem_of_cons in Hin as [-> | Hin].
      * right. now apply list_elem_of_singleton.
      * left. now apply Hadm.
  - destruct Hadapter as [r Hr]. congruence.
Qed.

(** While an adapter stays injected, no event loosens the account of slots. *)
Lemma step_tight (maxParallelCount : Z) (e : Parallel.event) (s s' : Parallel.state) :
  Parallel.invariant maxParallelCount s -> Slots.tight s ->
  Slots.keepsAdapter e = true ->
  Parallel.step maxParallelCount e s = Some s' ->
  Slots.tight s'.
Proof.
  intros [_ _ Hfifo _ _ _] Htight Hkeep Hstep.
  pose proof Htight as [Hadapter Hcount Hnd Hadm].
  assert (forall entry, entry ∈ Parallel.queue s ->
            Parallel.i_id entry ∉ Parallel.admitted s) as Hfresh.
  { intros entry Hin Ha. now apply (fifo_disjoint s _ entry Hfifo Ha Hin). }
  destruct e as [config | id o | id | a]; cbn [Parallel.step] in Hstep.
  - match type of Hstep with
    | context [Parallel.processQueue _ ?p] =>
        assert (Slots.tight (Parallel.processQueue maxParallelCount p).1) as Hp
    end.
    { apply processQueue_tight.
      - split; assumption.
      - cbn [Parallel.queue Parallel.admitted]. intros entry Hin.
        apply elem_of_app in Hin as [Hin | Hin]; [now apply Hfresh|].
        apply list_elem_of_singleton in Hin. subst entry. cbn [Parallel.i_id].
        intros Ha. pose proof (fifo_admitted_lt s _ Hfifo Ha). lia. }
    destruct (Parallel.processQueue maxParallelCount _) as [s1 [error|]];
      injection Hstep as <-; cbn [fst] in Hp; [now apply tight_setPromises | exact Hp].
  - destruct (Parallel.flying id s) eqn:Hflying; [|discriminate]. injection Hstep as <-.
    apply flying_elem in Hflying as (f0 & Hin0 & Hid0).
    assert (id ∈ Parallel.f_id <$> Parallel.inflight s) as Hid.
    { rewrite <- Hid0. now apply list_elem_of_fmap_2. }
    pose proof Hnd as Hnd'. apply NoDup_app in Hnd' as (Hnd1 & _ & _).
    pose proof (filter_ne_perm id _ Hnd1 Hid) as Hperm.
    assert (((Parallel.f_id <$>
                List.filter (fun f => negb (Parallel.f_id f =? id)%nat) (Parallel.inflight s))
             ++ Parallel.finishing s ++ [id])
            ≡ₚ (Parallel.f_id <$> Parallel.inflight s) ++ Parallel.finishing s) as Hall.
    { rewrite fmap_filter_flights.
      etransitivity; [|apply Permutation_app; [symmetry; exact Hperm | reflexivity]].
      cbn [app]. rewrite app_assoc. symmetry. apply Permutation_cons_append. }
    split; cbn [Parallel.pcore Parallel.runningCount Parallel.inflight
                Parallel.finishing Parallel.admitted].
    + exact Hadapter.
    + rewrite Hcount. f_equal.
      pose proof (Permutation_length Hall) as Hlen.
      rewrite !length_app, !length_fmap in Hlen. rewrite length_app. exact (eq_sym Hlen).
    + now rewrite Hall.
    + intros j Hj. rewrite Hall in Hj. now apply Hadm.
  - destruct (existsb (Nat.eqb id) (Parallel.finishing s)) eqn:Hfin; [|discriminate].
    injection Hstep as <-. apply finishing_elem in Hfin.
    pose proof Hnd as Hnd'. apply NoDup_app in Hnd' as (_ & _ & Hnd2).
    pose proof (filter_ne_perm id _ Hnd2 Hfin) as Hperm.
    assert ((Parallel.f_id <$> Parallel.inflight s) ++ Parallel.finishing s
            ≡ₚ id :: (Parallel.f_id <$> Parallel.inflight s) ++
                     List.filter (fun i => negb (i =? id)%nat) (Parallel.finishing s))
      as Hall.
    { etransitivity; [apply Permutation_app; [reflexivity | exact Hperm]|].
      symmetry. apply Permutation_middle. }
    apply processQueue_tight; [|exact Hfresh].
    split; cbn [Parallel.pcore Parallel.runningCount Parallel.inflight
                Parallel.finishing Parallel.admitted].
    + exact Hadapter.
    + pose proof (Permutation_length Hall) as Hlen. cbn [length] in Hlen.
      rewrite !length_app, !length_fmap in Hlen. lia.
    + rewrite Hall in Hnd. now apply NoDup_cons in Hnd as [_ Hnd].
    + intros j Hj. apply Hadm. rewrite Hall. apply elem_of_cons. now right.
  - injection Hstep as <-. split; try assumption.
    cbn [Parallel.pcore]. destruct a as [[r|] | p]; cbn in *; [eauto | discriminate | exact Hadapter].
Qed.

(** X14: while an adapter stays injected no slot is lost: after any sequence
    of events that never takes the adapter away, the count is exactly the
    number of dispatches that are under way or about to run their [finally]
    callback, so it is back at zero once all of them have finished. *)
Theorem parallel_no_leak_with_adapter (maxParallelCount : Z) (c : Core)
    (events : list Parallel.event) (s : Parallel.state) :
  is_Some (requestorInstance c) ->
  forallb Slots.keepsAdapter events = true ->
  Parallel.run maxParallelCount events (Parallel.initial c) = Some s ->
  Parallel.runningCount s
  = Z.of_nat (length (Parallel.inflight s) + length (Parallel.finishing s)) /\
  Parallel.surplus s = 0 /\
  is_Some (requestorInstance (Parallel.pcore s)).
Proof.
  intros Hadapter Hkeep Hrun.
  assert (forall evs s0 s1,
            Parallel.invariant maxParallelCount s0 -> Slots.tight s0 ->
            forallb Slots.keepsAdapter evs = true ->
            Parallel.run maxParallelCount evs s0 = Some s1 -> Slots.tight s1) as Hall.
  { induction evs as [|e evs IH]; intros s0 s1 Hinv Ht Hk Hr; cbn in Hr, Hk.
    - injection Hr as <-. exact Ht.
    - apply andb_true_iff in Hk as [Hk1 Hk2].
      destruct (Parallel.step maxParallelCount e s0) as [s2|] eqn:Hs; [|discriminate].
      apply (IH s2 s1); [eapply step_invariant | eapply step_tight | |]; eassumption. }
  destruct (Hall events (Parallel.initial c) s (initial_invariant maxParallelCount c))
    as [Ha Hc _ _]; [|exact Hkeep | exact Hrun|].
  - split; cbn; [exact Hadapter | reflexivity | constructor | intros id H; inversion H].
  - split; [exact Hc|]. split; [unfold Parallel.surplus; lia | exact Ha].
Qed.

Lemma parallel_no_leak_with_adapter_witness :
  let c := {| requestorInstance := Some (Sample.echo "fetch"); globalConfig := Sample.api |} in
  let events :=
    [Parallel.Call (Sample.request "get" "/a"); Parallel.Call (Sample.request "get" "/b");
     Parallel.Call (Sample.request "get" "/c");
     Parallel.Settle 0 (Rejected (Failure (Js.Str "down"))); Parallel.Finally 0;
     Parallel.Other (Inject (Some (Sample.echo "axios")));
     Parallel.Settle 1 (Resolved (Js.Str "b")); Parallel.Finally 1;
     Parallel.Settle 2 (Resolved (Js.Str "c")); Parallel.Finally 2] in
  exists s,
    Parallel.run 2 events (Parallel.initial c) = Some s /\
    Parallel.inflight s = [] /\ Parallel.finishing s = [] /\
    Parallel.runningCount s = 0.
Proof.
  intros c events.
  destruct (Parallel.run 2 events (Parallel.initial c)) as [s|] eqn:Hrun;
    [|vm_compute in Hrun; discriminate Hrun].
  exists s. split; [reflexivity|].
  assert (Parallel.inflight s = [] /\ Parallel.finishing s = []) as [Hfl Hfin].
  { vm_compute in Hrun. injection Hrun as <-. split; reflexivity. }
  split; [exact Hfl|]. split; [exact Hfin|].
  destruct (parallel_no_leak_with_adapter 2 c events s) as (Hcount & _ & _);
    [eexists; reflexivity | reflexivity | exact Hrun |].
  rewrite Hcount, Hfl, Hfin. reflexivity.
Defined.

(** ** More on the cache decorator *)

(** X15: failures are not cached.  A call that finds no entry and no injected
    adapter rejects with the not-injected error and leaves store, world and
    the caller's object alone; one whose dispatch is rejected by the adapter
    rejects with the adapter's error after that one dispatch and leaves the
    store as it was, so the next call dispatches again. *)
Theorem cache_failure_stores_nothing {S : Type} `{Cache.Store S}
    (opts : Cache.NormalizedOptions) (config : RequestConfig) (store : S) (w : World) :
  Cache.store_has (Cache.key opts config) store = false ->
  (requestorInstance (core w) = None ->
   Cache.makeRequest opts config store w = (Rejected NotInjected, config, store, w)) /\
  (forall r e,
     requestorInstance (core w) = Some r ->
     outcome (rrequest r (length (dispatches (trace w)))
                (applyGlobalConfig (globalConfig (core w)) config)) = Rejected e ->
     exists w',
       Cache.makeRequest opts config store w
       = (Rejected e, applyGlobalConfig (globalConfig (core w)) config, store, w') /\
       trace w' = trace w ++
         [Dispatch (rname r) (applyGlobalConfig (globalConfig (core w)) config)]).
Proof.
  intros Hmiss. split.
  - intros Hnone. unfold Cache.makeRequest, useRequestor. now rewrite Hmiss, Hnone.
  - intros r e Hr Hrej. unfold Cache.makeRequest, useRequestor.
    rewrite Hmiss, Hr, (proxiedRequest_injected _ _ _ Hr). cbn zeta. rewrite Hrej.
    eexists. split; reflexivity.
Qed.

Lemma cache_failure_stores_nothing_witness :
  let opts := Cache.createCacheRequestor
                {| Cache.o_key := None; Cache.o_duration := None;
                   Cache.o_isValid := None; Cache.o_persist := None |} in
  let config := Sample.request "get" "/users" in
  let w := Sample.world (Some (Sample.failing "fetch")) Sample.api in
  exists w',
    Cache.makeRequest opts config Cache.createMemoryStore w
    = (Rejected (Failure (Js.Num 0)), applyGlobalConfig Sample.api config,
       Cache.createMemoryStore, w') /\
    trace w' = trace w ++ [Dispatch "fetch" (applyGlobalConfig Sample.api config)].
Proof.
  intros opts config w.
  destruct (cache_failure_stores_nothing opts config Cache.createMemoryStore w) as [_ Hrej];
    [vm_compute; reflexivity|].
  apply (Hrej (Sample.failing "fetch") (Failure (Js.Num 0))); reflexivity.
Defined.

(** X16: a call touches the entry of its own key only, and the in-memory cache
    never drops an entry: every other key reads after the call as before, and
    a key that had an entry still has one. *)
Theorem cache_call_keeps_other_entries (opts : Cache.NormalizedOptions)
    (config : RequestConfig) (store : gmap string Cache.CacheEntry) (w : World) :
  let store' := (Cache.makeRequest opts config store w).1.2 in
  (forall other, other <> Cache.key opts config -> store' !! other = store !! other) /\
  (forall any, is_Some (store !! any) -> is_Some (store' !! any)).
Proof.
  cbn zeta.
  assert ((Cache.makeRequest opts config store w).1.2 = store \/
          exists entry, (Cache.makeRequest opts config store w).1.2
                        = <[Cache.key opts config := entry]> store) as [-> | [entry ->]].
  { unfold Cache.makeRequest.
    repeat match goal with
           | |- context [match ?x with _ => _ end] => destruct x eqn:?
           end; cbn; eauto. }
  - auto.
  - split.
    + intros other Hne. now rewrite lookup_insert_ne.
    + intros any Hsome. destruct (decide (Cache.key opts config = any)) as [-> | Hne].
      * rewrite lookup_insert_eq. eauto.
      * now rewrite lookup_insert_ne.
Qed.

Lemma cache_call_keeps_other_entries_witness :
  let opts := Cache.createCacheRequestor
                {| Cache.o_key := None; Cache.o_duration := None;
                   Cache.o_isValid := None; Cache.o_persist := None |} in
  let entry := {| Cache.data := Js.Str "kept"; Cache.timestamp := 0 |} in
  let store : gmap string Cache.CacheEntry := {[ "get-/other" := entry ]} in
  let w := Sample.world (Some (Sample.echo "fetch")) initialGlobalConfig in
  (Cache.makeRequest opts (Sample.request "get" "/users") store w).1.2 !! "get-/other"
  = Some entry.
Proof.
  intros opts entry store w.
  etransitivity;
    [apply (proj1 (cache_call_keeps_other_entries opts (Sample.request "get" "/users")
                     store w) "get-/other");
     intros E; vm_compute in E; discriminate
    | reflexivity].
Defined.

(** X17: a [duration] of 0 does not switch the cache off: like a missing
    [duration] it stands for five minutes, so with [duration: 0] and no custom
    predicate an entry younger than five minutes is served without a
    dispatch. *)
Theorem cache_zero_duration_is_five_minutes (options : Cache.Options)
    (config : RequestConfig) (store : gmap string Cache.CacheEntry) (w : World)
    (entry : Cache.CacheEntry) :
  Cache.o_duration options = None \/ Cache.o_duration options = Some 0 ->
  Cache.o_isValid options = None ->
  store !! Cache.key (Cache.createCacheRequestor options) config = Some entry ->
  clock w - Cache.timestamp entry < 300000 ->
  Cache.duration (Cache.createCacheRequestor options) = 300000 /\
  Cache.makeRequest (Cache.createCacheRequestor options) config store w
  = (Resolved (Cache.data entry), config, store, w).
Proof.
  intros Hd Hv Hentry Hage.
  assert (Cache.duration (Cache.createCacheRequestor options) = 300000) as Hdur
    by (cbn; destruct Hd as [-> | ->]; reflexivity).
  split; [exact Hdur|].
  unfold Cache.makeRequest. cbn [Cache.store_has Cache.store_get Cache.MemoryStore].
  rewrite Hentry. unfold Cache.valid.
  change (Cache.isValid (Cache.createCacheRequestor options)) with (Cache.o_isValid options).
  rewrite Hv, Hdur.
  destruct (Z.ltb_spec (clock w - Cache.timestamp entry) 300000); [reflexivity | lia].
Qed.

Lemma cache_zero_duration_is_five_minutes_witness :
  let options := {| Cache.o_key := None; Cache.o_duration := Some 0;
                    Cache.o_isValid := None; Cache.o_persist := None |} in
  let config := Sample.request "get" "/users" in
  let entry := {| Cache.data := Js.Str "cached"; Cache.timestamp := 1000 |} in
  let store : gmap string Cache.CacheEntry := {[ "get-/users" := entry ]} in
  let w := {| core := initialCore; clock := 200000; trace := [] |} in
  Cache.duration (Cache.createCacheRequestor options) = 300000 /\
  Cache.makeRequest (Cache.createCacheRequestor options) config store w
  = (Resolved (Js.Str "cached"), config, store, w).
Proof.
  assert (Hage : 200000 - 1000 < 300000) by lia.
  intros options config entry store w.
  apply (cache_zero_duration_is_five_minutes options config store w entry);
    [right; reflexivity | reflexivity | reflexivity | exact Hage].
Defined.

Lemma applyGlobalConfig_url_kept (G : GlobalConfig) (config : RequestConfig) :
  Js.truthy_str (baseURL G) && Js.truthy_str (url config) = false ->
  url (applyGlobalConfig G config) = url config.
Proof.
  intros Hguard. unfold applyGlobalConfig. rewrite Hguard.
  destruct (gheaders G);
    match goal with
    | |- context [if ?b then _ else _] => destruct b
    end; reflexivity.
Qed.

(** X18: with the default key and the in-memory store, calling [request]
    again with the config object of a call that was dispatched and resolved.
    When the base URL is non-empty and not "/" and the url is non-empty, the
    first call wrote the joined url into the object, so the object has another
    key; unless the store holds an entry under that key already, the second
    call misses and dispatches again.  When the base URL or the url is empty
    or missing, the object's key is unchanged and the second call, made within
    the five minutes, is answered from the cache. *)
Theorem cache_reused_object_misses (G : GlobalConfig) (config : RequestConfig)
    (store : gmap string Cache.CacheEntry) (w1 w2 : World) (r1 r2 : Requestor)
    (v : Js.value) :
  let opts := Cache.createCacheRequestor
                {| Cache.o_key := None; Cache.o_duration := None;
                   Cache.o_isValid := None; Cache.o_persist := None |} in
  let sent := applyGlobalConfig G config in
  core w1 = {| requestorInstance := Some r1; globalConfig := G |} ->
  store !! Cache.key opts config = None ->
  outcome (rrequest r1 (length (dispatches (trace w1))) sent) = Resolved v ->
  exists store1 w1',
    Cache.makeRequest opts config store w1 = (Resolved v, sent, store1, w1') /\
    (forall b u,
       baseURL G = Some b -> url config = Some u -> b <> "" -> b <> "/" -> u <> "" ->
       Cache.key opts sent <> Cache.key opts config /\
       (store !! Cache.key opts sent = None ->
        requestorInstance (core w2) = Some r2 ->
        trace (Cache.makeRequest opts sent store1 w2).2
        = trace w2 ++
          [Dispatch (rname r2) (applyGlobalConfig (globalConfig (core w2)) sent)])) /\
    (Js.truthy_str (baseURL G) && Js.truthy_str (url config) = false ->
     Cache.key opts sent = Cache.key opts config /\
     (clock w2 - clock w1' < 300000 ->
      Cache.makeRequest opts sent store1 w2 = (Resolved v, sent, store1, w2))).
Proof.
  intros opts sent Hcore Hmiss Hok.
  assert (Hr1 : requestorInstance (core w1) = Some r1) by now rewrite Hcore.
  assert (HG : globalConfig (core w1) = G) by now rewrite Hcore.
  assert (Hrun : Cache.makeRequest opts config store w1
                 = (Resolved v, sent,
                    <[Cache.key opts config :=
                        {| Cache.data := v;
                           Cache.timestamp :=
                             clock w1 + latency (rrequest r1 (length (dispatches (trace w1)))
                                                   sent) |}]> store,
                    {| core := core w1;
                       clock := clock w1 + latency (rrequest r1 (length (dispatches (trace w1)))
                                                      sent);
                       trace := trace w1 ++ [Dispatch (rname r1) sent] |})).
  { unfold Cache.makeRequest. cbn [Cache.store_has Cache.store_set Cache.MemoryStore].
    rewrite Hmiss. unfold useRequestor.
    rewrite Hr1, (proxiedRequest_injected _ _ _ Hr1). cbn zeta. rewrite HG. fold sent.
    now rewrite Hok. }
  eexists _, _. split; [exact Hrun|].
  destruct (applyGlobalConfig_keeps_method G config) as (Hm & _). fold sent in Hm.
  split.
  - intros b u Hb Hu Hb0 Hb1 Hu0.
    assert (Hkeys : Cache.key opts sent <> Cache.key opts config).
    { change (Cache.key opts) with Cache.defaultKey. unfold Cache.defaultKey.
      rewrite Hm. unfold sent.
      rewrite (applyGlobalConfig_url G config b u Hb Hu Hb0 Hu0), Hu. cbn [Js.template default].
      intros E. apply string_app_inj, string_app_inj in E.
      pose proof (joinURL_longer b u Hb0 Hb1) as Hlen. unfold id in E. rewrite E in Hlen.
      lia. }
    split; [exact Hkeys|].
    intros Hnew Hr2. unfold Cache.makeRequest. cbn [Cache.store_has Cache.MemoryStore].
    rewrite lookup_insert_ne by (intros E; apply Hkeys; symmetry; exact E).
    rewrite Hnew. unfold useRequestor.
    rewrite Hr2, (proxiedRequest_injected _ _ _ Hr2). cbn zeta.
    match goal with
    | |- context [match outcome ?reply with _ => _ end] => destruct (outcome reply)
    end; reflexivity.
  - intros Hguard.
    assert (Hkey : Cache.key opts sent = Cache.key opts config).
    { change (Cache.key opts) with Cache.defaultKey. unfold Cache.defaultKey.
      rewrite Hm. unfold sent. now rewrite (applyGlobalConfig_url_kept G config Hguard). }
    split; [exact Hkey|].
    intros Hage. unfold Cache.makeRequest.
    cbn [Cache.store_has Cache.store_get Cache.MemoryStore].
    rewrite Hkey, lookup_insert_eq. unfold Cache.valid.
    cbn [Cache.isValid Cache.duration opts Cache.createCacheRequestor Cache.o_isValid
         Cache.o_duration Js.truthy_num Cache.timestamp Cache.data clock] in *.
    destruct (Z.ltb_spec
                (clock w2 - (clock w1 + latency (rrequest r1 (length (dispatches (trace w1)))
                                                   sent)))
                (1000 * 60 * 5)); [reflexivity | lia].
Qed.

Lemma cache_reused_object_misses_witness :
  let opts := Cache.createCacheRequestor
                {| Cache.o_key := None; Cache.o_duration := None;
                   Cache.o_isValid := None; Cache.o_persist := None |} in
  let config := Sample.request "get" "/users" in
  let sent := applyGlobalConfig Sample.api config in
  let w := Sample.world (Some (Sample.echo "fetch")) Sample.api in
  exists store1 w1',
    Cache.makeRequest opts config Cache.createMemoryStore w
    = (Resolved (Js.Str "https://api.example.com/users"), sent, store1, w1') /\
    Cache.key opts sent <> Cache.key opts config /\
    trace (Cache.makeRequest opts sent store1 w).2
    = trace w ++ [Dispatch "fetch" (applyGlobalConfig Sample.api sent)].
Proof.
  intros opts config sent w.
  destruct (cache_reused_object_misses Sample.api config Cache.createMemoryStore w w
              (Sample.echo "fetch") (Sample.echo "fetch")
              (Js.Str "https://api.example.com/users") eq_refl eq_refl eq_refl)
    as (store1 & w1' & Hrun & Hjoined & _).
  destruct (Hjoined "https://api.example.com" "/users" eq_refl eq_refl)
    as [Hkeys Hagain]; [discriminate | discriminate | discriminate |].
  exists store1, w1'. split; [exact Hrun|]. split; [exact Hkeys|].
  apply Hagain; reflexivity.
Defined.

(** ** More on the idempotent decorator *)

(** X19: [params] and [data] that are falsy (0, false, the empty string, null,
    undefined) are not part of the default key.  Two requests with the same
    method and url whose [params] and [data] are all falsy have one key, so
    within the hour the second is answered with the result of the first and
    nothing is dispatched for it. *)
Theorem idempotent_falsy_bodies_collide (c1 c2 : RequestConfig)
    (store : gmap string Cache.CacheEntry) (w : World) (r : Requestor) (v : Js.value) :
  let idem := Idempotent.createIdempotentRequest None in
  method c1 = method c2 -> url c1 = url c2 ->
  Js.truthy (params c1) = false -> Js.truthy (params c2) = false ->
  Js.truthy (data c1) = false -> Js.truthy (data c2) = false ->
  store !! Cache.key idem c1 = None ->
  requestorInstance (core w) = Some r ->
  outcome (rrequest r (length (dispatches (trace w)))
             (applyGlobalConfig (globalConfig (core w)) c1)) = Resolved v ->
  Cache.key idem c1 = Cache.key idem c2 /\
  exists c1' store1 w1,
    Cache.makeRequest idem c1 store w = (Resolved v, c1', store1, w1) /\
    forall w2, clock w2 - clock w1 < 3600000 ->
      Cache.makeRequest idem c2 store1 w2 = (Resolved v, c2, store1, w2).
Proof.
  intros idem Hm Hu Hp1 Hp2 Hd1 Hd2 Hnew Hr Hok.
  assert (Hkey : Cache.key idem c1 = Cache.key idem c2).
  { change (Cache.key idem) with Idempotent.defaultKey. unfold Idempotent.defaultKey.
    now rewrite Hp1, Hp2, Hd1, Hd2, Hm, Hu. }
  split; [exact Hkey|].
  destruct (cache_dispatch idem c1 store w r v) as (store1 & w1 & Hrun & _ & Hhas & Hget);
    [left; cbn [Cache.store_has Cache.MemoryStore]; now rewrite Hnew | exact Hr | exact Hok |].
  eexists _, store1, w1. split; [exact Hrun|].
  intros w2 Hage. unfold Cache.makeRequest. rewrite <- Hkey, Hhas, Hget.
  assert (Hvalid : Cache.isValid idem = None) by reflexivity.
  assert (Hhour : Cache.duration idem = 3600000) by reflexivity.
  unfold Cache.valid. rewrite Hvalid, Hhour. cbn [Cache.timestamp Cache.data].
  destruct (Z.ltb_spec (clock w2 - clock w1) 3600000); [reflexivity | lia].
Qed.

Lemma idempotent_falsy_bodies_collide_witness :
  let idem := Idempotent.createIdempotentRequest None in
  let c1 := {| method := Some "post"; url := Some "/api/count"; headers := None;
               params := Js.Undefined; data := Js.Num 0; timeout := None |} in
  let c2 := {| method := Some "post"; url := Some "/api/count"; headers := None;
               params := Js.Undefined; data := Js.Str ""; timeout := None |} in
  let w := Sample.world (Some (Fixture.server "fetch" (Js.Str "ok"))) initialGlobalConfig in
  Cache.key idem c1 = Cache.key idem c2 /\
  exists c1' store1 w1,
    Cache.makeRequest idem c1 Cache.createMemoryStore w
    = (Resolved (Js.Obj [("data", Js.Str "ok"); ("status", Js.Num 200)]), c1', store1, w1) /\
    forall w2, clock w2 - clock w1 < 3600000 ->
      Cache.makeRequest idem c2 store1 w2
      = (Resolved (Js.Obj [("data", Js.Str "ok"); ("status", Js.Num 200)]), c2, store1, w2).
Proof.
  intros idem c1 c2 w.
  apply (idempotent_falsy_bodies_collide c1 c2 Cache.createMemoryStore w
           (Fixture.server "fetch" (Js.Str "ok"))); reflexivity.
Defined.

(** ** The article functions of the business layer *)

(** What a call through a cache decorator with a store of its own does when an
    adapter is injected: the store is empty, so it dispatches. *)
Lemma fresh_cache_dispatches (opts : Cache.NormalizedOptions) (config : RequestConfig)
    (w : World) (r : Requestor) :
  requestorInstance (core w) = Some r ->
  let sent := applyGlobalConfig (globalConfig (core w)) config in
  exists config' store' w',
    Cache.makeRequest opts config Cache.createMemoryStore w
    = (outcome (rrequest r (length (dispatches (trace w))) sent), config', store', w') /\
    trace w' = trace w ++ [Dispatch (rname r) sent].
Proof.
  intros Hr sent. unfold Cache.makeRequest. rewrite memory_store_starts_empty.
  unfold useRequestor. rewrite Hr, (proxiedRequest_injected _ _ _ Hr). cbn zeta. fold sent.
  destruct (outcome _); eexists _, _, _; split; reflexivity.
Qed.

(** X20: [getArticles] never answers from its cache.  The decorator, and with
    it the store, is created inside the function, so whatever was fetched
    before, every call with an injected adapter dispatches one GET request
    that carries page and size (1 and 10 when left out), and returns the
    [data] property of what the adapter resolves with. *)
Theorem getArticles_always_dispatches (page size : Js.value) (w : World) (r : Requestor) :
  requestorInstance (core w) = Some r ->
  exists sent,
    trace (Article.getArticles page size w).2 = trace w ++ [Dispatch (rname r) sent] /\
    method sent = Some "get" /\
    params sent = Js.Obj [("page", Article.parameter page (Js.Num 1));
                          ("size", Article.parameter size (Js.Num 10))] /\
    (Article.getArticles page size w).1
    = Article.returnData (outcome (rrequest r (length (dispatches (trace w))) sent)).
Proof.
  intros Hr. unfold Article.getArticles. cbn zeta.
  match goal with
  | |- context [Cache.makeRequest ?opts ?config _ _] =>
      destruct (fresh_cache_dispatches opts config w r Hr)
        as (config' & store' & w' & -> & Ht);
      exists (applyGlobalConfig (globalConfig (core w)) config);
      destruct (applyGlobalConfig_keeps_method (globalConfig (core w)) config)
        as (Hm & Hp & _)
  end.
  cbn [fst snd]. rewrite Hm, Hp. auto.
Qed.

Lemma getArticles_always_dispatches_witness :
  let w := Sample.world (Some (Fixture.server "fetch" (Js.Str "articles"))) initialGlobalConfig in
  let w1 := (Article.getArticles Js.Undefined Js.Undefined w).2 in
  exists sent,
    trace (Article.getArticles Js.Undefined Js.Undefined w1).2
    = trace w1 ++ [Dispatch "fetch" sent] /\
    method sent = Some "get" /\
    params sent = Js.Obj [("page", Js.Num 1); ("size", Js.Num 10)] /\
    (Article.getArticles Js.Undefined Js.Undefined w1).1 = Resolved (Js.Str "articles").
Proof.
  intros w w1.
  apply (getArticles_always_dispatches Js.Undefined Js.Undefined w1
           (Fixture.server "fetch" (Js.Str "articles"))).
  reflexivity.
Defined.

(** X21: [publishArticle] does not deduplicate.  Its idempotent decorator is
    created inside the function, so every call with an injected adapter
    dispatches one POST request with the article as body, also when the same
    article was published a moment ago. *)
Theorem publishArticle_always_dispatches (article : Js.value) (w : World) (r : Requestor) :
  requestorInstance (core w) = Some r ->
  exists sent,
    trace (Article.publishArticle article w).2 = trace w ++ [Dispatch (rname r) sent] /\
    method sent = Some "post" /\
    data sent = article /\
    (Article.publishArticle article w).1
    = Article.returnData (outcome (rrequest r (length (dispatches (trace w))) sent)).
Proof.
  intros Hr. unfold Article.publishArticle. cbn zeta.
  match goal with
  | |- context [Cache.makeRequest ?opts ?config _ _] =>
      destruct (fresh_cache_dispatches opts config w r Hr)
        as (config' & store' & w' & -> & Ht);
      exists (applyGlobalConfig (globalConfig (core w)) config);
      destruct (applyGlobalConfig_keeps_method (globalConfig (core w)) config)
        as (Hm & _ & Hd)
  end.
  cbn [fst snd]. rewrite Hm, Hd. auto.
Qed.

Lemma publishArticle_always_dispatches_witness :
  let article := Js.Obj [("title", Js.Str "hello")] in
  let w := Sample.world (Some (Fixture.server "fetch" (Js.Str "created"))) initialGlobalConfig in
  let w1 := (Article.publishArticle article w).2 in
  exists sent,
    trace (Article.publishArticle article w1).2 = trace w1 ++ [Dispatch "fetch" sent] /\
    method sent = Some "post" /\
    data sent = article /\
    (Article.publishArticle article w1).1 = Resolved (Js.Str "created").
Proof.
  intros article w w1.
  apply (publishArticle_always_dispatches article w1
           (Fixture.server "fetch" (Js.Str "created"))).
  reflexivity.
Defined.

(** X22: [getArticleDetail] makes at most three dispatches in all, the first
    attempt and two retries, with at most two waits, whatever the adapter
    answers and whatever other code does meanwhile; when the adapter rejects
    three times in a row the call rejects after the third dispatch, having
    waited 1000 ms and 2000 ms. *)
Theorem getArticleDetail_three_attempts (id : string) (w : World) :
  (forall env, exists answer w' t,
     Article.getArticleDetail id env w = Some (answer, w') /\
     trace w' = trace w ++ t /\
     (length (dispatches t) <= 3)%nat /\ (length (Retry.waits t) <= 2)%nat) /\
  (forall r G,
     core w = {| requestorInstance := Some r; globalConfig := G |} ->
     (forall i c, (i < 3)%nat ->
        exists e, outcome (rrequest r (length (dispatches (trace w)) + i) c) = Rejected e) ->
     exists e w' t,
       Article.getArticleDetail id Retry.quiet w = Some (Rejected e, w') /\
       trace w' = trace w ++ t /\
       length (dispatches t) = 3%nat /\ Retry.waits t = [1000; 2000]).
Proof.
  split.
  - intros env. unfold Article.getArticleDetail. cbn zeta.
    match goal with
    | |- context [Retry.makeRequest ?n env ?config w] =>
        destruct (makeRequest_total n env config w) as [[[result config'] w'] Hrun];
        rewrite Hrun
    end.
    enough (exists t, trace w' = trace w ++ t /\
              (length (dispatches t) <= 3)%nat /\ (length (Retry.waits t) <= 2)%nat)
      as (t & H1 & H2 & H3) by (eexists _, w', t; auto).
    unfold Retry.makeRequest in Hrun. destruct (useRequestor (core w)).
    + injection Hrun as <- <- <-. exists []. rewrite app_nil_r. cbn. split; [reflexivity | lia].
    + apply loop_dispatch_bound in Hrun as (t & Ht & Hd & Hw). exists t.
      cbn in Hd, Hw. auto.
  - intros r G Hcore Hfail. unfold Article.getArticleDetail. cbn zeta.
    match goal with
    | |- context [Retry.makeRequest ?n Retry.quiet ?config w] =>
        destruct (makeRequest_after_failures 3 r G config w ltac:(lia) Hcore)
          as (w' & Hrun & Ht);
        [intros i c Hi; apply Hfail; cbn in Hi; lia|];
        change n with 3; rewrite Hrun
    end.
    destruct (Hfail 2%nat (Nat.iter (Z.to_nat 3) (applyGlobalConfig G)
                             (Verb.get (Some ("/api/articles/" +:+ id)) None)))
      as [e He]; [lia|].
    change (Z.to_nat 3 - 1)%nat with 2%nat. rewrite He.
    eexists e, w', _. split; [reflexivity|]. split; [exact Ht|].
    split; reflexivity.
Qed.

Lemma getArticleDetail_three_attempts_witness :
  let w := Sample.world (Some (Sample.failing "fetch")) initialGlobalConfig in
  exists e w' t,
    Article.getArticleDetail "42" Retry.quiet w = Some (Rejected e, w') /\
    trace w' = trace w ++ t /\
    length (dispatches t) = 3%nat /\ Retry.waits t = [1000; 2000].
Proof.
  intros w.
  apply (proj2 (getArticleDetail_three_attempts "42" w) (Sample.failing "fetch")
           initialGlobalConfig eq_refl).
  intros i c _. eexists. reflexivity.
Defined.

(** ** The fetch adapter behind the core *)

Lemma fetch_body (config : RequestConfig) :
  FetchAdapter.fo_body (FetchAdapter.fetchOptions config)
  = if Js.truthy (data config) &&
       (negb (FetchAdapter.toUpperCase (default "get" (method config)) =? "GET")%string &&
        negb (FetchAdapter.toUpperCase (default "get" (method config)) =? "HEAD")%string)
    then Js.stringify (data config) else None.
Proof.
  unfold FetchAdapter.fetchOptions. cbn [FetchAdapter.fo_body].
  destruct (data config); reflexivity.
Qed.

(** X23: the fetch adapter sends a body exactly when the data is truthy and
    the upper-cased method is neither GET nor HEAD, and the body is then the
    JSON text of the data; data 0, false, the empty string and null are never
    sent, and a request without method, which counts as GET, has no body. *)
Theorem fetch_body_iff (config : RequestConfig) :
  let sent := FetchAdapter.fetchOptions config in
  (is_Some (FetchAdapter.fo_body sent) <->
     Js.truthy (data config) = true /\
     FetchAdapter.fo_method sent <> "GET" /\ FetchAdapter.fo_method sent <> "HEAD") /\
  (is_Some (FetchAdapter.fo_body sent) ->
     FetchAdapter.fo_body sent = Js.stringify (data config)) /\
  (method config = None -> FetchAdapter.fo_body sent = None).
Proof.
  cbn zeta. rewrite fetch_body.
  change (FetchAdapter.fo_method (FetchAdapter.fetchOptions config))
    with (FetchAdapter.toUpperCase (default "get" (method config))).
  set (m := FetchAdapter.toUpperCase (default "get" (method config))).
  assert (method config = None -> m = "GET") as Hdefault
    by (intros E; subst m; rewrite E; reflexivity).
  destruct (Js.truthy (data config)) eqn:Hdata;
    destruct (String.eqb_spec m "GET") as [Hget | Hget];
    destruct (String.eqb_spec m "HEAD") as [Hhead | Hhead];
    cbn [negb andb];
    (split; [split|split]);
    try (intros [body Hbody]; discriminate);
    try (intros (Ht & Hg & Hh); congruence);
    try reflexivity.
  - intros _. auto.
  - intros _. now apply stringify_truthy.
  - intros E. destruct (Hget (Hdefault E)).
Qed.

Lemma fetch_body_iff_witness :
  let config := {| method := Some "post"; url := Some "/api/articles"; headers := None;
                   params := Js.Undefined; data := Js.Obj [("title", Js.Str "hello")];
                   timeout := None |} in
  FetchAdapter.fo_body (FetchAdapter.fetchOptions config) = Js.stringify (data config) /\
  FetchAdapter.fo_body
    (FetchAdapter.fetchOptions (Sample.request "get" "/api/articles")) = None.
Proof.
  intros config. split.
  - apply (proj1 (proj2 (fetch_body_iff config))).
    apply (proj2 (proj1 (fetch_body_iff config))).
    split; [reflexivity | split; discriminate].
  - reflexivity.
Defined.

(** X24: the headers that reach [fetch] for a request sent through the
    core: the request's own value for a header wins, then the value of the
    global configuration, and Content-Type is application/json when neither
    names it; no other header appears. *)
Theorem dispatched_fetch_headers (G : GlobalConfig) (config : RequestConfig)
    (name : string) :
  FetchAdapter.fo_headers (FetchAdapter.fetchOptions (applyGlobalConfig G config)) !! name
  = match headers config ≫= lookup name with
    | Some own => Some own
    | None =>
        match gheaders G ≫= lookup name with
        | Some global => Some global
        | None => if decide (name = "Content-Type") then Some "application/json" else None
        end
    end.
Proof.
  unfold FetchAdapter.fetchOptions. cbn [FetchAdapter.fo_headers].
  rewrite applyGlobalConfig_headers, lookup_union.
  assert (({[ "Content-Type" := "application/json" ]} : gmap string string) !! name
          = if decide (name = "Content-Type") then Some "application/json" else None) as ->.
  { destruct (decide (name = "Content-Type")) as [-> | Hne].
    - apply lookup_singleton_eq.
    - apply lookup_singleton_ne. congruence. }
  destruct (gheaders G) as [gh|]; cbn.
  - unfold spread_headers. rewrite lookup_union.
    destruct (headers config) as [h|]; cbn.
    + destruct (h !! name), (gh !! name), (decide _); reflexivity.
    + rewrite lookup_empty. destruct (gh !! name), (decide _); reflexivity.
  - destruct (headers config) as [h|]; cbn.
    + destruct (h !! name), (decide _); reflexivity.
    + rewrite lookup_empty. destruct (decide _); reflexivity.
Qed.

(** X25: what the verbs of the decorators put on the wire through the core
    and the fetch adapter.  A [get] call whose options do not override the
    method sends no body, also when the options carry data; a [post] or [put]
    call whose options override neither method nor data sends the JSON text
    of its data argument when that is truthy and no body otherwise. *)
Theorem verb_bodies_on_the_wire (G : GlobalConfig) (u : option string) (body : Js.value)
    (options : option Verb.CallConfig) :
  (forall c, options = Some c -> Verb.c_method c = absent) ->
  FetchAdapter.fo_body
    (FetchAdapter.fetchOptions (applyGlobalConfig G (Verb.get u options))) = None /\
  ((forall c, options = Some c -> Verb.c_data c = None) ->
   FetchAdapter.fo_body
     (FetchAdapter.fetchOptions (applyGlobalConfig G (Verb.post u body options)))
   = (if Js.truthy body then Js.stringify body else None) /\
   FetchAdapter.fo_body
     (FetchAdapter.fetchOptions (applyGlobalConfig G (Verb.put u body options)))
   = (if Js.truthy body then Js.stringify body else None)).
Proof.
  intros Hmethod.
  assert (forall literal, method (Verb.spread literal options) = method literal) as Hm.
  { intros literal. destruct options as [c|]; [|reflexivity].
    cbn. now rewrite (Hmethod c eq_refl). }
  split.
  - rewrite fetch_body.
    destruct (applyGlobalConfig_keeps_method G (Verb.get u options)) as (-> & _ & _).
    unfold Verb.get. rewrite Hm. cbn [method default].
    change (FetchAdapter.toUpperCase "get") with "GET". cbn [String.eqb negb andb].
    rewrite String.eqb_refl. cbn. now rewrite andb_false_r.
  - intros Hdata.
    assert (forall literal, data (Verb.spread literal options) = data literal) as Hd.
    { intros literal. destruct options as [c|]; [|reflexivity].
      cbn. now rewrite (Hdata c eq_refl). }
    split; rewrite fetch_body.
    + destruct (applyGlobalConfig_keeps_method G (Verb.post u body options)) as (-> & _ & ->).
      unfold Verb.post. rewrite Hm, Hd. cbn [method data default].
      change (FetchAdapter.toUpperCase "post") with "POST".
      change (("POST" =? "GET")%string) with false.
      change (("POST" =? "HEAD")%string) with false.
      cbn [negb andb]. now rewrite andb_true_r.
    + destruct (applyGlobalConfig_keeps_method G (Verb.put u body options)) as (-> & _ & ->).
      unfold Verb.put. rewrite Hm, Hd. cbn [method data default].
      change (FetchAdapter.toUpperCase "put") with "PUT".
      change (("PUT" =? "GET")%string) with false.
      change (("PUT" =? "HEAD")%string) with false.
      cbn [negb andb]. now rewrite andb_true_r.
Qed.

Lemma verb_bodies_on_the_wire_witness :
  let options := Some {| Verb.c_method := absent; Verb.c_url := absent;
                         Verb.c_headers := absent; Verb.c_params := None;
                         Verb.c_data := Some (Js.Str "ignored"); Verb.c_timeout := absent |} in
  FetchAdapter.fo_body
    (FetchAdapter.fetchOptions
       (applyGlobalConfig Sample.api (Verb.get (Some "/api/articles") options))) = None /\
  FetchAdapter.fo_body
    (FetchAdapter.fetchOptions
       (applyGlobalConfig Sample.api (Verb.post (Some "/api/articles") (Js.Num 7) None)))
  = Some "7".
Proof.
  intros options. split.
  - apply (proj1 (verb_bodies_on_the_wire Sample.api (Some "/api/articles") Js.Undefined
                    options ltac:(intros c E; injection E as <-; reflexivity))).
  - apply (proj1 (proj2 (verb_bodies_on_the_wire Sample.api (Some "/api/articles")
                           (Js.Num 7) None ltac:(discriminate))
                    ltac:(discriminate))).
Defined.
